(** * cryptomite: bit buffer, prime searches, Von Neumann and Trevisan assembly

    A shallow embedding of [cryptomite/utils.py] and
    [cryptomite/trevisan.py].  Python integers are [Z]; a [bytearray] is a
    list of [Z] in [0, 256); Python exceptions and possibly unbounded
    [while] loops are made explicit in the type [result].

    The one place where the source leaves the integers is
    [round(sqrt(n))]: [math.sqrt] takes its argument to the nearest double
    ([OverflowError] beyond the largest one), rejects a negative one
    ([ValueError]) and returns the double nearest to the square root, of
    which [round] takes the nearest integer, ties to the even one.
    [Py.round_sqrt] computes this on integers, a double being an integer
    of at most 53 significant bits over a power of 2.  Below [2^50] the
    result is the integer nearest to the real square root (lemma
    [round_sqrt_exact]); from [1125900007505922] on it need not be, and the
    properties of the functions built on it are stated below [2^50].
    [conv] (a call into the external transform), [suggest_extractor] and
    [__repr__] are not modelled. *)

From Stdlib Require Import ZArith List Lia Bool Zdivisibility Znumtheory.
From Stdlib Require Import Zmod.ZmodInv Zcong.
Import ListNotations.

#[local] Open Scope Z_scope.

(** ** Results of Python computations *)

Inductive exn : Set :=
| IndexError
| ValueError
| ZeroDivisionError
| StopIteration
| OverflowError.

(** [Unfinished] is the answer of a loop that was still running when the
    iteration budget given to it was used up. *)
Inductive result (A : Type) : Type :=
| Ret (a : A)
| Raise (e : exn)
| Unfinished.

Arguments Ret {A} a.
Arguments Raise {A} e.
Arguments Unfinished {A}.

Definition bind {A B : Type} (m : result A) (f : A -> result B) : result B :=
  match m with
  | Ret a => f a
  | Raise e => Raise e
  | Unfinished => Unfinished
  end.

Declare Scope result_scope.
Delimit Scope result_scope with result.
Notation "x <- m ;; k" := (bind m (fun x => k))
  (at level 61, m at next level, right associativity) : result_scope.
Notation "' p <- m ;; k" := (bind m (fun x => match x with p => k end))
  (at level 61, p pattern, m at next level, right associativity) : result_scope.
#[local] Open Scope result_scope.

(** ** Python primitives used by the module *)

Module Py.

(** [a // b]: floor division, as [Z.div] ([a % b], where the divisor
    cannot be 0, is [Z.modulo]). *)
Definition floordiv (a b : Z) : result Z :=
  if b =? 0 then Raise ZeroDivisionError else Ret (a / b).

(** [range(a, b)] *)
Definition range (a b : Z) : list Z :=
  map (fun i => a + Z.of_nat i) (seq 0 (Z.to_nat (b - a))).

(** [m / 2^k] rounded to the nearest integer, ties to the even one (for
    [k <= 0] the integer [m * 2^(-k)] itself): the rounding of [float(n)]
    and of [round(x)]. *)
Definition round_half_even (m k : Z) : Z :=
  if k <=? 0 then m * 2 ^ (- k)
  else
    let q := m / 2 ^ k in
    let r := m mod 2 ^ k in
    let half := 2 ^ (k - 1) in
    if (half <? r) || ((r =? half) && Z.odd q) then q + 1 else q.

(** [float(n)] for [n >= 0]: the nearest integer of at most 53 significant
    bits. *)
Definition to_double (n : Z) : Z :=
  let shift := Z.log2 n + 1 - 53 in
  if shift <=? 0 then n else round_half_even n shift * 2 ^ shift.

(** [sqrt(x)] for a double [x >= 0] that is an integer: the answer
    [(q, s)] is the double [q / 2^s], with [q] the integer nearest to the
    square root of [x * 4^s] and [s] such that [q] has 53 bits.  (For
    [s < 0] the division is exact: [x] has 53 significant bits out of more
    than 106.) *)
Definition double_sqrt (x : Z) : Z * Z :=
  if x =? 0 then (0, 0)
  else
    let s := (105 - Z.log2 x) / 2 in
    let y := if 0 <=? s then x * 4 ^ s else x / 4 ^ (- s) in
    let iq := Z.sqrt y in
    (if y - iq * iq <=? iq then iq else iq + 1, s).

(** [round(sqrt(n))]: the conversion of [n] to a double comes first and
    fails beyond the largest double, then [sqrt] rejects a negative
    argument. *)
Definition round_sqrt (n : Z) : result Z :=
  let x := to_double (Z.abs n) in
  if 2 ^ 1024 <=? x then Raise OverflowError
  else if n <? 0 then Raise ValueError
  else let '(q, s) := double_sqrt x in Ret (round_half_even q s).

(** [pow(b, e, m)]: three-argument [pow]; a negative exponent goes through
    the modular inverse, which must exist. *)
Definition pow (b e m : Z) : result Z :=
  if m =? 0 then Raise ValueError
  else if e <? 0 then
    if Z.gcd b m =? 1 then Ret (Z.invmod b m ^ (- e) mod m)
    else Raise ValueError
  else Ret (b ^ e mod m).

(** Resolution of a list index: [-len <= i < 0] counts from the end. *)
Definition index {A : Type} (l : list A) (i : Z) : result nat :=
  let n := Z.of_nat (length l) in
  if (0 <=? i) && (i <? n) then Ret (Z.to_nat i)
  else if (- n <=? i) && (i <? 0) then Ret (Z.to_nat (n + i))
  else Raise IndexError.

(** [l[i]] *)
Definition getitem {A : Type} (l : list A) (i : Z) : result A :=
  k <- index l i ;;
  match nth_error l k with
  | Some x => Ret x
  | None => Raise IndexError
  end.

(** [l[i] = v] *)
Definition setitem {A : Type} (l : list A) (i : Z) (v : A) : result (list A) :=
  k <- index l i ;;
  Ret (firstn k l ++ v :: skipn (S k) l).

(** Truth value of an integer or boolean ([True] is [1], [False] is [0]). *)
Definition truthy (v : Z) : bool := negb (v =? 0).

End Py.

(** ** Number theory: [is_prime], [prime_facto] and the searches *)

(** The body of [for i in range(...): if n % i == 0: return False]. *)
Fixpoint no_divisor (n : Z) (candidates : list Z) : bool :=
  match candidates with
  | [] => true
  | i :: rest => if n mod i =? 0 then false else no_divisor n rest
  end.

(** The candidates [range(2, round(sqrt(n)) + 1)] of [is_prime]. *)
Definition trial_range (n : Z) : result (list Z) :=
  r <- Py.round_sqrt n ;; Ret (Py.range 2 (r + 1)).

Definition is_prime (n : Z) : result bool :=
  cands <- trial_range n ;; Ret (no_divisor n cands).

(** First loop of [prime_facto]:
    [while i <= round(sqrt(n)) + 1], dividing [n] by [i] or stepping [i].
    [i] starts at 2 and only grows, so [n % i] and [n // i] are defined. *)
Fixpoint facto_loop (fuel : nat) (n i : Z) (factors : list Z)
  : result (Z * list Z) :=
  match fuel with
  | O => Unfinished
  | S fuel' =>
      r <- Py.round_sqrt n ;;
      if i <=? r + 1 then
        if n mod i =? 0 then facto_loop fuel' (n / i) i (factors ++ [i])
        else facto_loop fuel' n (i + 1) factors
      else Ret (n, factors)
  end.

(** Second loop of [prime_facto]: [for i in range(1, len(factors))],
    comparing [factors[i]] with [factors[i - 1]]. *)
Fixpoint group_loop (factors : list Z) (idx : list Z)
  (factors2 powers : list Z) (p : Z) : result (list Z * list Z) :=
  match idx with
  | [] => Ret (factors2, powers)
  | i :: idx' =>
      fi <- Py.getitem factors i ;;
      fp <- Py.getitem factors (i - 1) ;;
      powers1 <- (if fi =? fp
                     then pp <- Py.getitem powers p ;;
                          Py.setitem powers p (pp + 1)
                     else Ret powers) ;;
      if negb (fi =? fp)
      then group_loop factors idx' (factors2 ++ [fi]) (powers1 ++ [1]) (p + 1)
      else group_loop factors idx' factors2 powers1 p
  end.

(** The first loop of [prime_facto] always ends (lemma
    [facto_loop_ends]); this many iterations are never used up. *)
Definition facto_budget (n : Z) : nat := S (S (Z.to_nat (5 * n))).

Definition prime_facto (n : Z) : result (list Z * list Z) :=
  '(n1, factors) <- facto_loop (facto_budget n) n 2 [] ;;
  let factors := if negb (n1 =? 1) then factors ++ [n1] else factors in
  f0 <- Py.getitem factors 0 ;;
  group_loop factors (Py.range 1 (Z.of_nat (length factors))) [f0] [1] 0.

(** [while not is_prime(k + 1): k = k + step], with [step] being [-2] in
    the [previous_*] functions and [2] in the [next_*] functions. *)
Fixpoint skip_composites (fuel : nat) (step k : Z) : result Z :=
  match fuel with
  | O => Unfinished
  | S fuel' =>
      b <- is_prime (k + 1) ;;
      if b then Ret k else skip_composites fuel' step (k + step)
  end.

(** [k -= 1; if k % 2 != 0: k = k + adjust] *)
Definition start_even (adjust k : Z) : Z :=
  let k := k - 1 in
  if negb (k mod 2 =? 0) then k + adjust else k.

(** In [previous_prime] and [next_prime] the outer [while not stop] runs
    its body once: [stop] is set and nothing resets it. *)
Definition previous_prime (fuel : nat) (k : Z) : result Z :=
  k <- skip_composites fuel (-2) (start_even (-1) k) ;;
  Ret (k + 1).

Definition next_prime (fuel : nat) (k : Z) : result Z :=
  k <- skip_composites fuel 2 (start_even 1 k) ;;
  Ret (k + 1).

Definition closest_prime (fuel : nat) (k : Z) : result Z :=
  next_p <- next_prime fuel k ;;
  previous_p <- previous_prime fuel k ;;
  Ret (if next_p - k >=? k - previous_p then previous_p else next_p).

(** [for prime in primes: if pow(2, k // prime, k + 1) == 1: ...; break]
    answers whether some prime made the test fail (the [break] case). *)
Fixpoint root_test_fails (k : Z) (primes : list Z) : result bool :=
  match primes with
  | [] => Ret false
  | prime :: rest =>
      e <- Py.floordiv k prime ;;
      r <- Py.pow 2 e (k + 1) ;;
      if r =? 1 then Ret true else root_test_fails k rest
  end.

(** The outer [while not stop] of [previous_na_set] and [next_na_set]. *)
Fixpoint na_search (fuel : nat) (step k : Z) : result Z :=
  match fuel with
  | O => Unfinished
  | S fuel' =>
      k <- skip_composites fuel step k ;;
      '(primes, _) <- prime_facto k ;;
      failed <- root_test_fails k primes ;;
      if failed then na_search fuel' step (k + step) else Ret k
  end.

Definition previous_na_set (fuel : nat) (k : Z) : result Z :=
  k <- na_search fuel (-2) (start_even (-1) k) ;;
  Ret (k + 1).

Definition next_na_set (fuel : nat) (k : Z) : result Z :=
  k <- na_search fuel 2 (start_even 1 k) ;;
  Ret (k + 1).

Definition closest_na_set (fuel : nat) (k : Z) : result Z :=
  next_p <- next_na_set fuel k ;;
  previous_p <- previous_na_set fuel k ;;
  Ret (if next_p - k >=? k - previous_p then previous_p else next_p).

(** ** Notions the properties are stated with *)

(** [d] is the multiplicative order of [a] modulo [p]: the least positive
    exponent that brings [a] back to 1. *)
Definition has_order (a p d : Z) : Prop :=
  0 < d /\ a ^ d mod p = 1 /\ forall e, 0 < e < d -> a ^ e mod p <> 1.

Definition product (l : list Z) : Z := fold_right Z.mul 1 l.

(** The integer nearest to the square root of [n]. *)
Definition nearest_sqrt (n : Z) : Z :=
  let s := Z.sqrt n in if n - s * s <=? s then s else s + 1.

Definition nondecreasing (l : list Z) : Prop :=
  forall i j : nat, (i <= j < length l)%nat -> nth i l 0 <= nth j l 0.

(** The byte written by [_set_byte_and_bit_index]. *)
Definition put_bit (old k : Z) (v : bool) : Z :=
  if v then Z.lor old (Z.shiftl 1 k)
  else Z.land old (Z.lnot (Z.shiftl 1 k)).

(** ** [CompactBoolList]: the bit-packed boolean sequence *)

Record CompactBoolList : Type := mkCBL {
  cb_data : list Z;     (* _data: bytearray *)
  cb_length : Z;        (* _length *)
  cb_index : Z          (* _index: the traversal cursor *)
}.

Module CBL.

Definition with_data (s : CompactBoolList) (d : list Z) : CompactBoolList :=
  mkCBL d (cb_length s) (cb_index s).
Definition with_length (s : CompactBoolList) (n : Z) : CompactBoolList :=
  mkCBL (cb_data s) n (cb_index s).
Definition with_index (s : CompactBoolList) (i : Z) : CompactBoolList :=
  mkCBL (cb_data s) (cb_length s) i.

(** [_get_byte_and_bit_index] *)
Definition get_byte_and_bit_index (s : CompactBoolList) (index : Z) : Z * Z :=
  let index := if index <? 0 then index + cb_length s else index in
  (index / 8, index mod 8).

(** [_set_byte_and_bit_index]: the read of [_data[byte_idx]] may raise, in
    which case nothing has been written. *)
Definition set_byte_and_bit_index (s : CompactBoolList) (index value : Z)
  : result CompactBoolList :=
  let '(byte_idx, bit_idx) := get_byte_and_bit_index s index in
  old <- Py.getitem (cb_data s) byte_idx ;;
  let new := if Py.truthy value
             then Z.lor old (Z.shiftl 1 bit_idx)
             else Z.land old (Z.lnot (Z.shiftl 1 bit_idx)) in
  d <- Py.setitem (cb_data s) byte_idx new ;;
  Ret (with_data s d).

Definition in_bounds (s : CompactBoolList) (index : Z) : bool :=
  (- cb_length s <=? index) && (index <? cb_length s).

(** [__getitem__] at an integer index. *)
Definition getitem (s : CompactBoolList) (index : Z) : result bool :=
  if negb (in_bounds s index) then Raise IndexError
  else
    let '(byte_idx, bit_idx) := get_byte_and_bit_index s index in
    let mask := Z.shiftl 1 bit_idx in
    b <- Py.getitem (cb_data s) byte_idx ;;
    Ret (negb (Z.land b mask =? 0)).

(** [__setitem__] *)
Definition setitem (s : CompactBoolList) (index value : Z)
  : result CompactBoolList :=
  if negb (in_bounds s index) then Raise IndexError
  else set_byte_and_bit_index s index value.

(** [append]: a statement that raises leaves the object as the statements
    before it made it. *)
Definition append (value : Z) (s : CompactBoolList)
  : result unit * CompactBoolList :=
  let s1 := if cb_length s mod 8 =? 0
            then with_data s (cb_data s ++ [0]) else s in
  match set_byte_and_bit_index s1 (cb_length s1) value with
  | Ret s2 => (Ret tt, with_length s2 (cb_length s2 + 1))
  | Raise e => (Raise e, s1)
  | Unfinished => (Unfinished, s1)
  end.

(** [for item in iterable: self.append(item)] *)
Fixpoint extend (items : list Z) (s : CompactBoolList)
  : result unit * CompactBoolList :=
  match items with
  | [] => (Ret tt, s)
  | item :: rest =>
      match append item s with
      | (Ret _, s1) => extend rest s1
      | (r, s1) => (r, s1)
      end
  end.

Definition empty : CompactBoolList := mkCBL [] 0 0.

(** [__init__(iterable)]; [None] stands for the missing argument. *)
Definition init (iterable : option (list Z)) : result unit * CompactBoolList :=
  match iterable with
  | None => (Ret tt, empty)
  | Some items => extend items empty
  end.

(** [CompactBoolList(items)]: the object left by [__init__]. *)
Definition of_list (items : list Z) : CompactBoolList := snd (init (Some items)).

(** [__iter__] returns the object itself: every iterator over a buffer is
    that buffer, and they all share [_index]. *)
Definition iter (s : CompactBoolList) : CompactBoolList := s.

(** [__next__] *)
Definition next (s : CompactBoolList) : result bool * CompactBoolList :=
  if cb_index s <? cb_length s then
    match getitem s (cb_index s) with
    | Ret value => (Ret value, with_index s (cb_index s + 1))
    | r => (r, s)
    end
  else (Raise StopIteration, with_index s 0).

(** [list(it)]: call [next] until [StopIteration].  [__next__] answers
    with a value only while [_index < _length] and then moves [_index]
    up by one, so [_length - _index] answers are all there can be. *)
Fixpoint drain (fuel : nat) (s : CompactBoolList)
  : result (list bool) * CompactBoolList :=
  match next s with
  | (Ret value, s1) =>
      match fuel with
      | O => (Unfinished, s1)
      | S fuel' =>
          match drain fuel' s1 with
          | (Ret rest, s2) => (Ret (value :: rest), s2)
          | (r, s2) => (r, s2)
          end
      end
  | (Raise StopIteration, s1) => (Ret [], s1)
  | (Raise e, s1) => (Raise e, s1)
  | (Unfinished, s1) => (Unfinished, s1)
  end.

Definition list_of_iter (s : CompactBoolList)
  : result (list bool) * CompactBoolList :=
  drain (Z.to_nat (cb_length s - cb_index s)) s.

(** [to_list]: [list(self)], that is [list(iter(self))]. *)
Definition to_list (s : CompactBoolList)
  : result (list bool) * CompactBoolList :=
  list_of_iter (iter s).

(** The logical bit at position [i] of the packed storage. *)
Definition bit (s : CompactBoolList) (i : Z) : bool :=
  Z.testbit (nth (Z.to_nat (i / 8)) (cb_data s) 0) (i mod 8).

(** The logical contents: bits [0 .. _length - 1]. *)
Definition bits (s : CompactBoolList) : list bool :=
  map (bit s) (Py.range 0 (cb_length s)).

(** The storage invariant: [ceil(_length / 8)] bytes. *)
Definition wf (s : CompactBoolList) : Prop :=
  0 <= cb_length s /\
  Z.of_nat (length (cb_data s)) = (cb_length s + 7) / 8.

(** Objects built by the constructor and then grown by [append]. *)
Inductive reachable : CompactBoolList -> Prop :=
| reach_init (iterable : option (list Z)) :
    reachable (snd (init iterable))
| reach_append (s : CompactBoolList) (value : Z) :
    reachable s -> reachable (snd (append value s)).

End CBL.

(** ** [von_neumann] *)

(** [l[::2]]: every second element, from the first one on. *)
Fixpoint every_other {A : Type} (l : list A) : list A :=
  match l with
  | [] => []
  | [x] => [x]
  | x :: _ :: rest => x :: every_other rest
  end.

(** [l[start::2]] *)
Definition slice_step2 {A : Type} (start : nat) (l : list A) : list A :=
  every_other (skipn start l).

(** [[x for x, y in zip(bits[::2], bits[1::2]) if x != y]] *)
Definition von_neumann (bits : list Z) : list Z :=
  map fst
    (filter (fun xy => negb (fst xy =? snd xy))
       (combine (slice_step2 0 bits) (slice_step2 1 bits))).

(** The description of the transform by pairs: pair [i] is
    [(bits[2i], bits[2i+1])] for [i] below [floor(length / 2)], and a pair
    gives its first bit when its two bits differ. *)
Definition pair_at (bits : list Z) (i : nat) : Z * Z :=
  (nth (2 * i) bits 0, nth (2 * i + 1) bits 0).

Definition pairs_of (bits : list Z) : list (Z * Z) :=
  map (pair_at bits) (seq 0 (length bits / 2)).

Definition von_neumann_by_pairs (bits : list Z) : list Z :=
  flat_map (fun xy => if fst xy =? snd xy then [] else [fst xy]) (pairs_of bits).

(** ** [Trevisan]: assembling the output bit by bit *)

(** The bit-extraction engine [_cryptomite.Trevisan] is external: it is
    known by its two operations, acting on a state of its own. *)
Class ExtractionEngine (E : Type) : Type := {
  load_source : CompactBoolList -> CompactBoolList -> E -> result unit * E;
  extract_bit : Z -> E -> result Z * E
}.

(** A call made to the engine, [extract_bit] with what it answered. *)
Inductive engine_call : Type :=
| CallLoadSource (input1 input2 : CompactBoolList)
| CallExtractBit (i : Z) (answer : result Z).

(** The [extract_bit] calls with indices [idx] and answers [answers]. *)
Definition bit_calls (idx answers : list Z) : list engine_call :=
  map (fun ia => CallExtractBit (fst ia) (Ret (snd ia))) (combine idx answers).

(** The [Trevisan] object: [config.m], the engine [ext], and the record
    of the calls made to [ext] so far. *)
Record Trevisan (E : Type) : Type := mkTrevisan {
  config_m : Z;
  ext : E;
  calls : list engine_call
}.

Arguments mkTrevisan {E} config_m ext calls.
Arguments config_m {E} t.
Arguments ext {E} t.
Arguments calls {E} t.

Section Orchestrator.

Context {E : Type} `{ExtractionEngine E}.

(** [self.ext.load_source(input1, input2)] *)
Definition call_load_source (input1 input2 : CompactBoolList) (t : Trevisan E)
  : result unit * Trevisan E :=
  let (r, e) := load_source input1 input2 (ext t) in
  (r, mkTrevisan (config_m t) e (calls t ++ [CallLoadSource input1 input2])).

(** [self.ext.extract_bit(i)] *)
Definition call_extract_bit (i : Z) (t : Trevisan E) : result Z * Trevisan E :=
  let (r, e) := extract_bit i (ext t) in
  (r, mkTrevisan (config_m t) e (calls t ++ [CallExtractBit i r])).

(** [for i in range(m): bit = self.ext.extract_bit(i); bits.append(bit)] *)
Fixpoint extract_loop (idx : list Z) (bits : CompactBoolList) (t : Trevisan E)
  : result CompactBoolList * Trevisan E :=
  match idx with
  | [] => (Ret bits, t)
  | i :: rest =>
      match call_extract_bit i t with
      | (Ret bit, t1) =>
          match CBL.append bit bits with
          | (Ret _, bits1) => extract_loop rest bits1 t1
          | (Raise e, _) => (Raise e, t1)
          | (Unfinished, _) => (Unfinished, t1)
          end
      | (Raise e, t1) => (Raise e, t1)
      | (Unfinished, t1) => (Unfinished, t1)
      end
  end.

(** [Trevisan.extract] *)
Definition extract (input1 input2 : CompactBoolList) (t : Trevisan E)
  : result CompactBoolList * Trevisan E :=
  match call_load_source input1 input2 t with
  | (Ret _, t1) =>
      let m := config_m t1 in
      let bits := snd (CBL.init None) in
      extract_loop (Py.range 0 m) bits t1
  | (Raise e, t1) => (Raise e, t1)
  | (Unfinished, t1) => (Unfinished, t1)
  end.

End Orchestrator.

(** A stand-in engine for tests: it counts the calls it receives and
    answers [extract_bit(i)] with the parity of [i]. *)
#[local] Instance parity_engine : ExtractionEngine nat := {
  load_source := fun _ _ n => (Ret tt, S n);
  extract_bit := fun i n => (Ret (i mod 2), S n)
}.

(** ** Further functions of [utils.py] and notions for their properties *)

(** [log_2]: [while n > 0: n >>= 1; x += 1]. *)
Fixpoint log_2_loop (fuel : nat) (n x : Z) : result Z :=
  match fuel with
  | O => Unfinished
  | S fuel' =>
      if 0 <? n then log_2_loop fuel' (Z.shiftr n 1) (x + 1) else Ret x
  end.

(** The loop of [log_2] ends (theorem [log_2_bit_length]); this many
    iterations are never used up. *)
Definition log_2_budget (n : Z) : nat := S (Z.to_nat n).

Definition log_2 (n : Z) : result Z := log_2_loop (log_2_budget n) n 0.

(** A Python [slice(start, stop, step)]; [None] is a missing part. *)
Record slice : Type := mkSlice {
  sl_start : option Z;
  sl_stop : option Z;
  sl_step : option Z
}.

Module PySlice.

(** How [slice.indices] brings a given bound into the sequence. *)
Definition clamp (length lower upper v : Z) : Z :=
  if v <? 0 then
    let v := v + length in
    if v <? lower then lower else v
  else
    if upper <? v then upper else v.

(** [slice.indices(length)] *)
Definition indices (sl : slice) (length : Z) : result (Z * Z * Z) :=
  if length <? 0 then Raise ValueError
  else
    let step := match sl_step sl with None => 1 | Some s => s end in
    if step =? 0 then Raise ValueError
    else
      let lower := if step <? 0 then -1 else 0 in
      let upper := if step <? 0 then length - 1 else length in
      let start := match sl_start sl with
                   | None => if step <? 0 then upper else lower
                   | Some v => clamp length lower upper v
                   end in
      let stop := match sl_stop sl with
                  | None => if step <? 0 then lower else upper
                  | Some v => clamp length lower upper v
                  end in
      Ret (start, stop, step).

(** [range(start, stop, step)] *)
Definition range_step (start stop step : Z) : result (list Z) :=
  if step =? 0 then Raise ValueError
  else
    let n := if 0 <? step
             then (if start <? stop then (stop - start - 1) / step + 1 else 0)
             else (if stop <? start then (start - stop - 1) / (- step) + 1 else 0) in
    Ret (map (fun i => start + Z.of_nat i * step) (seq 0 (Z.to_nat n))).

End PySlice.

Module CBLSlice.

(** [[self[i] for i in idx]] *)
Fixpoint getitems (s : CompactBoolList) (idx : list Z) : result (list bool) :=
  match idx with
  | [] => Ret []
  | i :: rest =>
      value <- CBL.getitem s i ;;
      values <- getitems s rest ;;
      Ret (value :: values)
  end.

(** [__getitem__] at a slice: a new buffer made from the selected items
    (booleans, [True] being 1 and [False] 0). *)
Definition getitem (s : CompactBoolList) (sl : slice) : result CompactBoolList :=
  '(start, stop, step) <- PySlice.indices sl (cb_length s) ;;
  idx <- PySlice.range_step start stop step ;;
  values <- getitems s idx ;;
  match CBL.init (Some (map Z.b2z values)) with
  | (Ret _, s') => Ret s'
  | (Raise e, _) => Raise e
  | (Unfinished, _) => Unfinished
  end.

End CBLSlice.

(** [__len__] *)
Definition cbl_len (s : CompactBoolList) : Z := cb_length s.

(** Buffers that the methods of the class can make: by the constructor,
    [append], a successful [__setitem__], [__next__] and [to_list]. *)
Inductive api_reachable : CompactBoolList -> Prop :=
| api_init (iterable : option (list Z)) :
    api_reachable (snd (CBL.init iterable))
| api_append (s : CompactBoolList) (value : Z) :
    api_reachable s -> api_reachable (snd (CBL.append value s))
| api_setitem (s s' : CompactBoolList) (index value : Z) :
    api_reachable s -> CBL.setitem s index value = Ret s' -> api_reachable s'
| api_next (s : CompactBoolList) :
    api_reachable s -> api_reachable (snd (CBL.next s))
| api_to_list (s : CompactBoolList) :
    api_reachable s -> api_reachable (snd (CBL.to_list s)).

(** What every such buffer satisfies: the storage size, a cursor within
    the buffer, bytes that a [bytearray] can hold, and zero bits after the
    last logical bit. *)
Definition buffer_invariant (s : CompactBoolList) : Prop :=
  CBL.wf s /\
  0 <= cb_index s <= cb_length s /\
  Forall (fun b => 0 <= b < 256) (cb_data s) /\
  forall j, cb_length s <= j -> CBL.bit s j = false.

(** A candidate [c + 1] that a [*_na_set] search steps over: [is_prime]
    says no, or the test of the powers of 2 fails. *)
Definition refused (c : Z) : Prop :=
  is_prime (c + 1) = Ret false \/
  exists primes pows,
    prime_facto c = Ret (primes, pows) /\ root_test_fails c primes = Ret true.

(** A prime of which 2 is a primitive root. *)
Definition primitive_root_prime (p : Z) : Prop :=
  Z.prime p /\ has_order 2 p (p - 1).

Definition increasing (l : list Z) : Prop :=
  forall i j : nat, (i < j < length l)%nat -> nth i l 0 < nth j l 0.

(** The number that a list of factors and a list of powers stand for. *)
Definition power_product (factors powers : list Z) : Z :=
  product (map (fun fe => fst fe ^ snd fe) (combine factors powers)).

(** The [extract_bit] calls with indices [idx] and outcomes [results]. *)
Definition bit_outcomes (idx : list Z) (results : list (result Z))
  : list engine_call :=
  map (fun ir => CallExtractBit (fst ir) (snd ir)) (combine idx results).

Definition is_ret {A : Type} (r : result A) : Prop :=
  match r with Ret _ => True | _ => False end.

(** What the engine itself answers when [extract_bit] is put to it with
    the indices [idx] one after the other, from the state [e] and up to
    the first failure: the answers, the failure last if there is one, and
    the state in which the engine is left. *)
Fixpoint ask {E : Type} `{ExtractionEngine E} (idx : list Z) (e : E)
  : list (result Z) * E :=
  match idx with
  | [] => ([], e)
  | i :: rest =>
      match extract_bit i e with
      | (Ret bit, e1) =>
          let (results, e') := ask rest e1 in (Ret bit :: results, e')
      | (failure, e1) => ([failure], e1)
      end
  end.

(** * Properties *)

(** ** Ranges, square roots and trial division *)

Lemma range_In (a b i : Z) : In i (Py.range a b) <-> a <= i < b.
Proof.
  unfold Py.range. rewrite in_map_iff. split.
  - intros (j & <- & Hj). apply in_seq in Hj. lia.
  - intros Hi. exists (Z.to_nat (i - a)). split; [lia|].
    apply in_seq. lia.
Qed.

Lemma range_length (a b : Z) : length (Py.range a b) = Z.to_nat (b - a).
Proof. unfold Py.range. now rewrite length_map, length_seq. Qed.

Lemma range_empty (a b : Z) : b <= a -> Py.range a b = [].
Proof.
  intros Hab. unfold Py.range.
  replace (Z.to_nat (b - a)) with 0%nat by lia. reflexivity.
Qed.

Lemma range_cons (a b : Z) : a < b -> Py.range a b = a :: Py.range (a + 1) b.
Proof.
  intros Hab. unfold Py.range.
  replace (Z.to_nat (b - a)) with (S (Z.to_nat (b - (a + 1)))) by lia.
  cbn [seq map]. f_equal; [lia|].
  rewrite <- seq_shift, map_map. apply map_ext. intros j. lia.
Qed.

Lemma range_snoc (a b : Z) : a <= b -> Py.range a (b + 1) = Py.range a b ++ [b].
Proof.
  intros Hab. unfold Py.range.
  replace (Z.to_nat (b + 1 - a)) with (Z.to_nat (b - a) + 1)%nat by lia.
  rewrite seq_app, map_app. cbn [seq map]. do 2 f_equal. lia.
Qed.

(** ** [round(sqrt(n))] on doubles *)

Lemma nearest_sqrt_spec (n : Z) :
  0 <= n ->
  let r := nearest_sqrt n in
  0 <= r /\ n <= r * r + r /\ (r = 0 \/ r * r - r < n) /\
  Z.sqrt n <= r <= Z.sqrt n + 1.
Proof.
  intros Hn. unfold nearest_sqrt.
  pose proof (Z.sqrt_spec n Hn) as Hs. pose proof (Z.sqrt_nonneg n) as Hs0.
  unfold Z.succ in Hs. set (s := Z.sqrt n) in *.
  destruct (Z.leb_spec (n - s * s) s); cbn zeta.
  - split; [lia|split; [lia|split; [|lia]]].
    destruct (Z.eq_dec s 0); [now left|right; nia].
  - split; [lia|split; [nia|split; [right; nia|lia]]].
Qed.

Lemma to_double_small (n : Z) : 0 <= n < 2 ^ 53 -> Py.to_double n = n.
Proof.
  intros Hn. unfold Py.to_double.
  destruct (Z.eq_dec n 0) as [->|Hz]; [reflexivity|].
  assert (Z.log2 n < 53) by (apply Z.log2_lt_pow2; lia).
  destruct (Z.leb_spec (Z.log2 n + 1 - 53) 0); [reflexivity|lia].
Qed.

Lemma div_mod_known (a d q r : Z) :
  a = q * d + r -> 0 <= r < d -> a / d = q /\ a mod d = r.
Proof.
  intros -> Hr. split.
  - symmetry. apply (Z.div_unique _ _ _ r); [lia|ring].
  - symmetry. apply (Z.mod_unique _ _ q); [lia|ring].
Qed.

(** Below [2^50] the doubles do not show: [round(sqrt(n))] is the integer
    nearest to the square root. *)
Lemma round_sqrt_exact (n : Z) :
  0 <= n < 2 ^ 50 -> Py.round_sqrt n = Ret (nearest_sqrt n).
Proof.
  intros Hn. unfold Py.round_sqrt.
  rewrite Z.abs_eq by lia. rewrite to_double_small by lia.
  destruct (Z.leb_spec (2 ^ 1024) n) as [Hbig|_].
  { exfalso. assert (2 ^ 50 < 2 ^ 1024) by (apply Z.pow_lt_mono_r; lia). lia. }
  destruct (Z.ltb_spec n 0); [lia|].
  unfold Py.double_sqrt.
  destruct (Z.eqb_spec n 0) as [->|Hz]; [reflexivity|].
  assert (Hb : 0 <= Z.log2 n < 50).
  { split; [apply Z.log2_nonneg|apply Z.log2_lt_pow2; lia]. }
  set (s := (105 - Z.log2 n) / 2).
  assert (Hs : 28 <= s) by (subst s; apply Z.div_le_lower_bound; lia).
  destruct (Z.leb_spec 0 s); [|lia].
  fold (nearest_sqrt (n * 4 ^ s)).
  pose proof (nearest_sqrt_spec n ltac:(lia)) as (Hr0 & Hru & Hrl & _).
  set (r := nearest_sqrt n) in *.
  assert (Hr1 : 1 <= r) by nia.
  assert (Hr25 : r <= 2 ^ 25).
  { destruct Hrl as [|Hrl]; [lia|].
    destruct (Z.le_gt_cases r (2 ^ 25)); [assumption|].
    assert (2 ^ 25 * 2 ^ 25 = 2 ^ 50) by reflexivity. nia. }
  set (P := 2 ^ (s - 1)).
  assert (HP : 2 ^ 27 <= P) by (subst P; apply Z.pow_le_mono_r; lia).
  assert (H2s : 2 ^ s = 2 * P).
  { subst P. replace s with (1 + (s - 1)) at 1 by lia.
    rewrite Z.pow_add_r by lia. reflexivity. }
  assert (H4s : 4 ^ s = 4 * P * P).
  { change 4 with (2 * 2) at 1. rewrite Z.pow_mul_l, H2s. ring. }
  assert (Hy : 0 <= n * 4 ^ s) by nia.
  pose proof (nearest_sqrt_spec (n * 4 ^ s) Hy) as (Hq0 & Hqu & Hql & _).
  set (q := nearest_sqrt (n * 4 ^ s)) in *.
  rewrite H4s in Hqu, Hql.
  assert (Hq1 : 1 <= q) by nia.
  destruct Hrl as [|Hrl]; [lia|]. destruct Hql as [|Hql]; [lia|].
  assert (Hlow : (2 * r - 1) * P < q).
  { destruct (Z.lt_ge_cases ((2 * r - 1) * P) q) as [|Hc]; [assumption|exfalso].
    set (L := (2 * r - 1) * P) in *.
    assert (q * q + q <= L * L + L) by nia.
    assert (L * L + 3 * (P * P) <= n * (4 * P * P)) by (subst L; nia).
    assert (L <= P * P) by (subst L; nia). nia. }
  assert (Hhigh : q < (2 * r + 1) * P).
  { destruct (Z.lt_ge_cases q ((2 * r + 1) * P)) as [|Hc]; [assumption|exfalso].
    set (M := (2 * r + 1) * P) in *.
    assert (M * M - M <= q * q - q) by nia.
    assert (n * (4 * P * P) <= M * M - P * P) by (subst M; nia).
    assert (M <= P * P) by (subst M; nia). nia. }
  unfold Py.round_half_even.
  destruct (Z.leb_spec s 0); [lia|]. fold P. rewrite H2s.
  f_equal.
  destruct (Z.lt_ge_cases q (2 * r * P)) as [Hlt|Hge].
  - destruct (div_mod_known q (2 * P) (r - 1) (q - (r - 1) * (2 * P)))
      as [-> ->]; [ring|nia|].
    destruct (Z.ltb_spec P (q - (r - 1) * (2 * P))); [cbn; lia|nia].
  - destruct (div_mod_known q (2 * P) r (q - r * (2 * P)))
      as [-> ->]; [ring|nia|].
    destruct (Z.ltb_spec P (q - r * (2 * P))); [nia|].
    destruct (Z.eqb_spec (q - r * (2 * P)) P); [nia|reflexivity].
Qed.

(** [float(n)] keeps the size of [n]. *)
Lemma to_double_size (n : Z) :
  0 < n -> 2 ^ Z.log2 n <= Py.to_double n <= 2 ^ (Z.log2 n + 1).
Proof.
  intros Hn. pose proof (Z.log2_spec n Hn) as Hb. unfold Z.succ in Hb.
  pose proof (Z.log2_nonneg n) as Hb0.
  unfold Py.to_double. set (b := Z.log2 n) in *.
  destruct (Z.leb_spec (b + 1 - 53) 0) as [|Hk]; [lia|].
  set (k := b + 1 - 53) in *.
  assert (Hlo : 2 ^ b = 2 ^ 52 * 2 ^ k).
  { rewrite <- Z.pow_add_r by lia. f_equal. lia. }
  assert (Hhi : 2 ^ (b + 1) = 2 ^ 53 * 2 ^ k).
  { rewrite <- Z.pow_add_r by lia. f_equal. lia. }
  assert (Hpk : 0 < 2 ^ k) by (apply Z.pow_pos_nonneg; lia).
  assert (Hq : 2 ^ 52 <= n / 2 ^ k < 2 ^ 53).
  { split; [apply Z.div_le_lower_bound; lia|apply Z.div_lt_upper_bound; lia]. }
  unfold Py.round_half_even. destruct (Z.leb_spec k 0); [lia|].
  rewrite Hlo, Hhi.
  destruct (_ || _); split; apply Z.mul_le_mono_nonneg_r; lia.
Qed.

Lemma round_sqrt_overflow (n : Z) :
  2 ^ 1024 <= Z.abs n -> Py.round_sqrt n = Raise OverflowError.
Proof.
  intros Hn. unfold Py.round_sqrt.
  assert (H0 : 0 < 2 ^ 1024) by (apply Z.pow_pos_nonneg; lia).
  pose proof (to_double_size (Z.abs n) ltac:(lia)) as [Hlo _].
  assert (2 ^ 1024 <= 2 ^ Z.log2 (Z.abs n)).
  { apply Z.pow_le_mono_r; [lia|]. apply Z.log2_le_pow2; lia. }
  destruct (Z.leb_spec (2 ^ 1024) (Py.to_double (Z.abs n))); [reflexivity|lia].
Qed.

Lemma to_double_fits (n : Z) :
  0 <= n < 2 ^ 1023 -> Py.to_double n < 2 ^ 1024.
Proof.
  intros Hn. assert (H0 : 2 ^ 1023 < 2 ^ 1024) by (apply Z.pow_lt_mono_r; lia).
  destruct (Z.eq_dec n 0) as [->|Hz]; [cbn; lia|].
  pose proof (to_double_size n ltac:(lia)) as [_ Hhi].
  assert (2 ^ (Z.log2 n + 1) <= 2 ^ 1023).
  { apply Z.pow_le_mono_r; [lia|]. 
    assert (Z.log2 n < 1023) by (apply Z.log2_lt_pow2; lia). lia. }
  lia.
Qed.

Lemma round_sqrt_negative (n : Z) :
  - 2 ^ 1023 < n < 0 -> Py.round_sqrt n = Raise ValueError.
Proof.
  intros Hn. unfold Py.round_sqrt.
  pose proof (to_double_fits (Z.abs n) ltac:(lia)).
  destruct (Z.leb_spec (2 ^ 1024) (Py.to_double (Z.abs n))); [lia|].
  destruct (Z.ltb_spec n 0); [reflexivity|lia].
Qed.

Lemma nearest_sqrt_le (y : Z) : 0 <= y -> nearest_sqrt y <= Z.sqrt y + 1.
Proof. intros Hy. apply (nearest_sqrt_spec y Hy). Qed.

(** A bound without care, for the loops that count up to [round(sqrt(n))]. *)
Lemma round_sqrt_bound (n r : Z) :
  0 <= n -> Py.round_sqrt n = Ret r -> r <= 4 * n + 1.
Proof.
  intros Hn. unfold Py.round_sqrt. rewrite Z.abs_eq by lia.
  destruct (Z.leb_spec (2 ^ 1024) (Py.to_double n)); [discriminate|].
  destruct (Z.ltb_spec n 0); [lia|].
  destruct (Z.eq_dec n 0) as [->|Hz]; [now intros [= <-]|].
  pose proof (to_double_size n ltac:(lia)) as [Hxlo Hxhi].
  pose proof (Z.log2_spec n ltac:(lia)) as Hb. unfold Z.succ in Hb.
  pose proof (Z.log2_nonneg n) as Hb0.
  assert (Hx2 : Py.to_double n <= 2 * n).
  { rewrite Z.pow_add_r in Hxhi by lia. change (2 ^ 1) with 2 in Hxhi. lia. }
  assert (Hx1 : 1 <= Py.to_double n).
  { assert (0 < 2 ^ Z.log2 n) by (apply Z.pow_pos_nonneg; lia). lia. }
  set (x := Py.to_double n) in *. clearbody x.
  unfold Py.double_sqrt. destruct (Z.eqb_spec x 0); [lia|].
  pose proof (Z.log2_spec x ltac:(lia)) as Hc. unfold Z.succ in Hc.
  pose proof (Z.log2_nonneg x) as Hc0.
  set (c := Z.log2 x) in *. set (s := (105 - c) / 2).
  assert (Hs : 2 * s <= 105 - c < 2 * s + 2).
  { subst s. pose proof (Z.div_mod (105 - c) 2 ltac:(lia)).
    pose proof (Z.mod_pos_bound (105 - c) 2 ltac:(lia)). lia. }
  clearbody s.
  destruct (Z.leb_spec 0 s) as [Hs0|Hs0].
  - fold (nearest_sqrt (x * 4 ^ s)). intros [= <-].
    assert (H4 : 4 ^ s = 2 ^ s * 2 ^ s).
    { change 4 with (2 * 2). now rewrite Z.pow_mul_l. }
    assert (Hp : 1 <= 2 ^ s) by (apply (Z.pow_le_mono_r 2 0 s); lia).
    assert (Hy : 0 <= x * 4 ^ s) by nia.
    pose proof (nearest_sqrt_le _ Hy) as Hq.
    pose proof (nearest_sqrt_spec _ Hy) as (Hq0 & _).
    assert (Hsq : Z.sqrt (x * 4 ^ s) < x * 2 ^ s + 1).
    { apply Z.sqrt_lt_square; [lia|nia|]. rewrite H4. nia. }
    set (q := nearest_sqrt (x * 4 ^ s)) in *.
    unfold Py.round_half_even. destruct (Z.leb_spec s 0).
    + assert (Hz0 : s = 0) by lia. rewrite Hz0 in *.
      change (2 ^ (- 0)) with 1. change (2 ^ 0) with 1 in *. lia.
    + assert (q / 2 ^ s < x + 1).
      { apply Z.div_lt_upper_bound; [lia|].
        assert (2 <= 2 ^ s) by (apply (Z.pow_le_mono_r 2 1 s); lia). nia. }
      destruct (_ || _); lia.
  - fold (nearest_sqrt (x / 4 ^ (- s))). intros [= <-].
    set (t := - s) in *.
    assert (H4 : 4 ^ t = 2 ^ t * 2 ^ t).
    { change 4 with (2 * 2). now rewrite Z.pow_mul_l. }
    assert (Hp : 1 <= 2 ^ t) by (apply (Z.pow_le_mono_r 2 0 t); lia).
    assert (H4x : 4 ^ t <= x).
    { rewrite H4, <- Z.pow_add_r by lia.
      transitivity (2 ^ c); [apply Z.pow_le_mono_r; lia|lia]. }
    assert (Hy : 0 <= x / 4 ^ t) by (apply Z.div_pos; lia).
    pose proof (Z.mul_div_le x (4 ^ t) ltac:(lia)) as Hmd.
    pose proof (nearest_sqrt_le _ Hy) as Hq.
    pose proof (Z.sqrt_le_lin _ Hy) as Hlin.
    set (y := x / 4 ^ t) in *. set (q := nearest_sqrt y) in *.
    unfold Py.round_half_even. destruct (Z.leb_spec s 0); [|lia].
    fold t. nia.
Qed.

(** [round(sqrt(n))] answers for every [n] from 0 to the double range. *)
Lemma round_sqrt_returns (n : Z) :
  0 <= n < 2 ^ 1023 -> exists r, Py.round_sqrt n = Ret r.
Proof.
  intros Hn. unfold Py.round_sqrt. rewrite Z.abs_eq by lia.
  pose proof (to_double_fits n Hn).
  destruct (Z.leb_spec (2 ^ 1024) (Py.to_double n)); [lia|].
  destruct (Z.ltb_spec n 0); [lia|].
  destruct (Py.double_sqrt _). eauto.
Qed.

(** Below [2^50], [round_sqrt n] is the integer nearest to the square root
    of [n]: [r - 1/2 < sqrt n < r + 1/2], squared and cleared of
    fractions. *)
Lemma round_sqrt_nearest (n r : Z) :
  Py.round_sqrt n = Ret r -> n < 2 ^ 50 ->
  0 <= r /\ n <= r * r + r /\ (r = 0 \/ r * r - r < n).
Proof.
  intros Hr Hn.
  assert (Hn0 : 0 <= n).
  { destruct (Z.lt_ge_cases n 0) as [Hneg|]; [|assumption].
    unfold Py.round_sqrt in Hr. destruct (_ <=? _); [discriminate|].
    destruct (Z.ltb_spec n 0); [discriminate|lia]. }
  rewrite round_sqrt_exact in Hr by lia. injection Hr as <-.
  pose proof (nearest_sqrt_spec n Hn0) as Hs. cbv zeta in Hs. tauto.
Qed.

Lemma round_sqrt_defined (n : Z) :
  0 <= n < 2 ^ 50 ->
  exists r, Py.round_sqrt n = Ret r /\ Z.sqrt n <= r <= Z.sqrt n + 1.
Proof.
  intros Hn. exists (nearest_sqrt n). split; [now apply round_sqrt_exact|].
  apply nearest_sqrt_spec. lia.
Qed.

Lemma round_sqrt_below (n r : Z) :
  2 <= n < 2 ^ 50 -> Py.round_sqrt n = Ret r -> r < n.
Proof.
  intros Hn Hr. apply round_sqrt_nearest in Hr; [nia|lia].
Qed.

Lemma no_divisor_true (n : Z) (l : list Z) :
  no_divisor n l = true <-> forall i, In i l -> n mod i <> 0.
Proof.
  induction l as [|i l IH]; cbn [no_divisor].
  - split; [intros _ i []|reflexivity].
  - destruct (Z.eqb_spec (n mod i) 0) as [Hi|Hi].
    + split; [discriminate|]. intros Hall. exfalso. apply (Hall i); [now left|exact Hi].
    + rewrite IH. split.
      * intros Hall j [<-|Hj]; auto.
      * intros Hall j Hj. apply Hall. now right.
Qed.

(** A proper divisor comes with one that is at most the square root. *)
Lemma small_divisor (n d : Z) :
  1 < d < n -> (d | n) -> exists i, 2 <= i <= Z.sqrt n /\ (i | n).
Proof.
  intros Hd [c Hc].
  assert (Hc2 : 2 <= c) by nia.
  pose proof (Z.sqrt_spec n ltac:(lia)) as Hs.
  pose proof (Z.sqrt_nonneg n) as Hs0.
  unfold Z.succ in Hs. set (s := Z.sqrt n) in *.
  assert (Hle : forall i, 0 <= i -> i * i <= n -> i <= s).
  { intros i Hi Hii. destruct (Z.le_gt_cases i s) as [|Hgt]; [assumption|].
    assert ((s + 1) * (s + 1) <= i * i) by nia. lia. }
  destruct (Z.le_gt_cases c d) as [Hcd|Hcd].
  - exists c. split; [split; [lia|apply Hle; nia]|]. exists d. lia.
  - exists d. split; [split; [lia|apply Hle; nia]|]. exists c. lia.
Qed.

(** From 2 to [2^50], [is_prime] answers, and answers whether [n] is
    prime. *)
Lemma is_prime_correct (n : Z) :
  2 <= n < 2 ^ 50 -> exists b, is_prime n = Ret b /\ (b = true <-> Z.prime n).
Proof.
  intros Hn. unfold is_prime, trial_range.
  destruct (round_sqrt_defined n ltac:(lia)) as (r & Hr & Hsr).
  pose proof (round_sqrt_below n r Hn Hr) as Hrn.
  rewrite Hr. cbn [bind]. eexists; split; [reflexivity|].
  rewrite no_divisor_true. split.
  - intros Hall. split; [lia|]. intros d Hd Hdiv.
    destruct (small_divisor n d Hd Hdiv) as (i & Hi & Hin).
    apply (Hall i); [apply range_In; lia|].
    apply Z.mod_divide; [lia|exact Hin].
  - intros [_ Hp] i Hi Hmod. apply range_In in Hi.
    apply (Hp i); [lia|]. apply Z.mod_divide; [lia|exact Hmod].
Qed.

Lemma is_prime_true (n : Z) :
  2 <= n < 2 ^ 50 -> is_prime n = Ret true -> Z.prime n.
Proof.
  intros Hn Hrun. destruct (is_prime_correct n Hn) as (b & Hb & Hiff).
  apply Hiff. congruence.
Qed.

Lemma is_prime_defined (n : Z) :
  0 <= n < 2 ^ 50 -> exists b, is_prime n = Ret b.
Proof.
  intros Hn. unfold is_prime, trial_range.
  destruct (round_sqrt_defined n Hn) as (r & -> & _). cbn [bind]. eauto.
Qed.

Lemma is_prime_negative (n : Z) :
  - 2 ^ 1023 < n < 0 -> is_prime n = Raise ValueError.
Proof.
  intros Hn. unfold is_prime, trial_range.
  now rewrite round_sqrt_negative.
Qed.

Lemma is_prime_overflow (n : Z) :
  2 ^ 1024 <= Z.abs n -> is_prime n = Raise OverflowError.
Proof.
  intros Hn. unfold is_prime, trial_range.
  now rewrite round_sqrt_overflow.
Qed.

(** ** Python list indexing *)

Lemma index_nonneg {A : Type} (l : list A) (i : Z) :
  0 <= i < Z.of_nat (length l) -> Py.index l i = Ret (Z.to_nat i).
Proof.
  intros Hi. unfold Py.index.
  destruct (Z.leb_spec 0 i); [|lia].
  destruct (Z.ltb_spec i (Z.of_nat (length l))); [reflexivity|lia].
Qed.

Lemma index_out {A : Type} (l : list A) (i : Z) :
  i < - Z.of_nat (length l) \/ Z.of_nat (length l) <= i ->
  Py.index l i = Raise IndexError.
Proof.
  intros Hi. unfold Py.index.
  destruct (Z.leb_spec 0 i), (Z.ltb_spec i (Z.of_nat (length l)));
    cbn [andb]; try lia;
    destruct (Z.leb_spec (- Z.of_nat (length l)) i), (Z.ltb_spec i 0);
    cbn [andb]; try lia; reflexivity.
Qed.

Lemma getitem_nth {A : Type} (l : list A) (i : Z) (d : A) :
  0 <= i < Z.of_nat (length l) -> Py.getitem l i = Ret (nth (Z.to_nat i) l d).
Proof.
  intros Hi. unfold Py.getitem. rewrite index_nonneg by exact Hi. cbn [bind].
  rewrite (nth_error_nth' l d) by lia. reflexivity.
Qed.

Lemma setitem_nonneg {A : Type} (l : list A) (i : Z) (v : A) :
  0 <= i < Z.of_nat (length l) ->
  Py.setitem l i v = Ret (firstn (Z.to_nat i) l ++ v :: skipn (S (Z.to_nat i)) l).
Proof.
  intros Hi. unfold Py.setitem. now rewrite index_nonneg by exact Hi.
Qed.

Lemma update_length {A : Type} (l : list A) (k : nat) (v : A) :
  (k < length l)%nat -> length (firstn k l ++ v :: skipn (S k) l) = length l.
Proof.
  intros Hk. rewrite length_app, length_firstn. cbn [length].
  rewrite length_skipn. lia.
Qed.

Lemma update_nth_same {A : Type} (l : list A) (k : nat) (v d : A) :
  (k < length l)%nat -> nth k (firstn k l ++ v :: skipn (S k) l) d = v.
Proof.
  intros Hk. rewrite app_nth2; rewrite length_firstn; [|lia].
  replace (k - Nat.min k (length l))%nat with 0%nat by lia. reflexivity.
Qed.

Lemma update_nth_other {A : Type} (l : list A) (k j : nat) (v d : A) :
  (k < length l)%nat -> j <> k ->
  nth j (firstn k l ++ v :: skipn (S k) l) d = nth j l d.
Proof.
  intros Hk Hjk. destruct (Nat.lt_ge_cases j k) as [Hlt|Hge].
  - rewrite app_nth1 by (rewrite length_firstn; lia). rewrite nth_firstn.
    destruct (Nat.ltb_spec j k); [reflexivity|lia].
  - rewrite app_nth2; rewrite length_firstn; [|lia].
    replace (Nat.min k (length l)) with k by lia.
    destruct (j - k)%nat as [|t] eqn:Ht; [lia|]. cbn [nth].
    rewrite nth_skipn. f_equal. lia.
Qed.

(** ** [prime_facto] *)

(** The invariant of the first loop: what is left of [n] has no divisor
    below [i], and the factors found are primes whose product, times what
    is left, is the number the loop started from. *)
Lemma facto_loop_spec (fuel : nat) :
  forall n i fs n' fs',
    facto_loop fuel n i fs = Ret (n', fs') ->
    1 <= n < 2 ^ 50 -> 2 <= i ->
    (forall d, 2 <= d < i -> ~ (d | n)) ->
    exists gs, fs' = fs ++ gs /\ n = n' * product gs /\
               Forall Z.prime gs /\ 1 <= n' /\ (n' = 1 \/ Z.prime n').
Proof.
  induction fuel as [|fuel IH]; intros n i fs n' fs' Hrun Hn Hi Hfree;
    cbn [facto_loop] in Hrun; [discriminate|].
  destruct (round_sqrt_defined n ltac:(lia)) as (r & Hr & Hsr).
  rewrite Hr in Hrun. cbn [bind] in Hrun.
  destruct (Z.leb_spec i (r + 1)) as [Hir|Hir].
  - destruct (Z.eqb_spec (n mod i) 0) as [Hmod|Hmod].
    + assert (Hdiv : n = i * (n / i)) by (apply Z_div_exact_2; lia).
      apply IH in Hrun; [| nia | lia |].
      * destruct Hrun as (gs & -> & Hprod & Hgs & Hn' & Hlast).
        exists (i :: gs). rewrite <- app_assoc. cbn [app product fold_right].
        split; [reflexivity|]. split; [unfold product in Hprod; nia|].
        split; [|tauto]. constructor; [|exact Hgs].
        split; [lia|]. intros d Hd Hdi. apply (Hfree d); [lia|].
        apply Z.divide_trans with i; [exact Hdi|]. exists (n / i). lia.
      * intros d Hd Hdn. apply (Hfree d Hd).
        apply Z.divide_trans with (n / i); [exact Hdn|]. exists i. lia.
    + apply IH in Hrun; [exact Hrun | lia | lia |].
      intros d Hd Hdn. destruct (Z.eq_dec d i) as [->|Hne].
      * apply Hmod. apply Z.mod_divide; [lia|exact Hdn].
      * apply (Hfree d); [lia|exact Hdn].
  - injection Hrun as <- <-. exists []. rewrite app_nil_r. cbn [product fold_right].
    split; [reflexivity|]. split; [lia|]. split; [constructor|]. split; [lia|].
    destruct (Z.eq_dec n 1) as [->|Hn1]; [now left|right].
    split; [lia|]. intros d Hd Hdn.
    destruct (small_divisor n d Hd Hdn) as (j & Hj & Hjn).
    apply (Hfree j); [lia|exact Hjn].
Qed.

(** The first loop ends: every iteration lowers [n + (sqrt n + 3 - i)]. *)
Lemma facto_loop_enough (fuel : nat) :
  forall n i fs,
    0 <= n < 2 ^ 50 -> 2 <= i ->
    n + Z.max 0 (Z.sqrt n + 3 - i) < Z.of_nat fuel ->
    exists n' fs', facto_loop fuel n i fs = Ret (n', fs').
Proof.
  induction fuel as [|fuel IH]; intros n i fs Hn Hi Hfuel; [lia|].
  cbn [facto_loop].
  destruct (round_sqrt_defined n Hn) as (r & Hr & Hsr).
  rewrite Hr. cbn [bind].
  destruct (Z.leb_spec i (r + 1)) as [Hir|Hir]; [|eauto].
  assert (Hn1 : 1 <= n).
  { pose proof (round_sqrt_nearest n r Hr ltac:(lia)) as Hnear. nia. }
  destruct (Z.eqb_spec (n mod i) 0) as [Hmod|Hmod].
  - pose proof (Z.div_lt n i ltac:(lia) ltac:(lia)) as Hlt.
    apply IH; [split; [apply Z.div_pos; lia|lia] | lia |].
    pose proof (Z.sqrt_le_mono (n / i) n ltac:(lia)) as Hmono. lia.
  - apply IH; lia.
Qed.

(** It ends on every input, whatever the doubles make of
    [round(sqrt(n))]: with [n0] the number the loop started from, every
    iteration lowers [max 0 n + max 0 (4 * n0 + 3 - i)]. *)
Lemma facto_loop_ends (n0 : Z) (fuel : nat) :
  forall n i fs,
    n <= n0 -> 2 <= i ->
    Z.max 0 n + Z.max 0 (4 * n0 + 3 - i) < Z.of_nat fuel ->
    facto_loop fuel n i fs <> Unfinished.
Proof.
  induction fuel as [|fuel IH]; intros n i fs Hn Hi Hfuel; [lia|].
  - cbn [facto_loop].
    destruct (Py.round_sqrt n) as [r| |] eqn:Hr; cbn [bind]; try discriminate.
    + destruct (Z.leb_spec i (r + 1)) as [Hir|Hir]; [|discriminate].
      assert (Hn0 : 0 <= n).
      { destruct (Z.lt_ge_cases n 0) as [Hneg|]; [|assumption].
        unfold Py.round_sqrt in Hr. destruct (_ <=? _); [discriminate|].
        destruct (Z.ltb_spec n 0); [discriminate|lia]. }
      pose proof (round_sqrt_bound n r Hn0 Hr) as Hb.
      assert (Hn1 : 1 <= n).
      { destruct (Z.eq_dec n 0) as [->|]; [|lia].
        cbv in Hr. injection Hr as <-. lia. }
      destruct (Z.eqb_spec (n mod i) 0) as [Hmod|Hmod].
      * pose proof (Z.div_lt n i ltac:(lia) ltac:(lia)) as Hlt.
        apply IH; lia.
      * apply IH; lia.
    + unfold Py.round_sqrt in Hr. destruct (_ <=? _); [discriminate|].
      destruct (_ <? _); [discriminate|]. destruct (Py.double_sqrt _). discriminate.
Qed.

Lemma facto_loop_negative (fuel : nat) (n i : Z) (fs : list Z) :
  - 2 ^ 1023 < n < 0 -> facto_loop (S fuel) n i fs = Raise ValueError.
Proof.
  intros Hn. cbn [facto_loop]. now rewrite round_sqrt_negative.
Qed.

Lemma facto_loop_overflow (fuel : nat) (n i : Z) (fs : list Z) :
  2 ^ 1024 <= Z.abs n -> facto_loop (S fuel) n i fs = Raise OverflowError.
Proof.
  intros Hn. cbn [facto_loop]. now rewrite round_sqrt_overflow.
Qed.

Lemma facto_loop_budget (n : Z) :
  0 <= n < 2 ^ 50 ->
  exists n' fs', facto_loop (facto_budget n) n 2 [] = Ret (n', fs').
Proof.
  intros Hn. apply facto_loop_enough; [exact Hn|lia|].
  pose proof (Z.sqrt_le_lin n ltac:(lia)). pose proof (Z.sqrt_nonneg n).
  unfold facto_budget. lia.
Qed.

(** The second loop keeps in [factors2] the values met in [factors]. *)
Lemma group_loop_spec (factors : list Z) (todo : nat) :
  forall a f2 pw p,
    Z.of_nat (length factors) = a + Z.of_nat todo -> 1 <= a ->
    (forall j, (j < Z.to_nat a)%nat -> In (nth j factors 0) f2) ->
    (forall q, In q f2 -> In q factors) ->
    Z.of_nat (length pw) = p + 1 -> 0 <= p ->
    exists f2' pw',
      group_loop factors (Py.range a (Z.of_nat (length factors))) f2 pw p
      = Ret (f2', pw') /\
      (forall q, In q f2' <-> In q factors).
Proof.
  induction todo as [|todo IH]; intros a f2 pw p Hlen Ha Hseen Hsub Hpw Hp.
  - rewrite range_empty by lia. cbn [group_loop]. do 2 eexists.
    split; [reflexivity|]. intros q. split; [apply Hsub|].
    intros Hq. destruct (In_nth factors q 0 Hq) as (j & Hj & <-).
    apply Hseen. lia.
  - rewrite range_cons by lia. cbn [group_loop].
    rewrite (getitem_nth factors a 0) by lia.
    rewrite (getitem_nth factors (a - 1) 0) by lia. cbn [bind].
    set (fi := nth (Z.to_nat a) factors 0).
    set (fp := nth (Z.to_nat (a - 1)) factors 0).
    assert (Hfi : In fi factors) by (apply nth_In; lia).
    destruct (Z.eqb_spec fi fp) as [Heq|Hne]; cbn [negb].
    + rewrite (getitem_nth pw p 0) by lia. cbn [bind].
      rewrite setitem_nonneg by lia. cbn [bind].
      apply IH; [lia | lia | | exact Hsub | | exact Hp].
      * intros j Hj. destruct (Nat.eq_dec j (Z.to_nat a)) as [->|Hja].
        -- fold fi. rewrite Heq. apply Hseen. lia.
        -- apply Hseen. lia.
      * rewrite update_length; lia.
    + cbn [bind]. apply IH; [lia | lia | | | | lia].
      * intros j Hj. apply in_or_app.
        destruct (Nat.eq_dec j (Z.to_nat a)) as [->|Hja].
        -- right. now left.
        -- left. apply Hseen. lia.
      * intros q Hq. apply in_app_or in Hq. destruct Hq as [Hq|[<-|[]]]; auto.
      * rewrite length_app. cbn [length]. lia.
Qed.

Lemma divide_product_prime (q : Z) (gs : list Z) :
  Z.prime q -> Forall Z.prime gs -> (q | product gs) -> In q gs.
Proof.
  intros Hq Hgs. induction Hgs as [|g gs Hg Hgs IH]; cbn [product fold_right].
  - intros H1. apply Z.divide_1_r_nonneg in H1; [|destruct Hq; lia].
    destruct Hq. lia.
  - intros Hdiv. apply Z.divide_prime_mul in Hdiv; [|exact Hq].
    destruct Hdiv as [Hqg|Hrest]; [left|right; now apply IH].
    symmetry. now apply Z.divide_prime_prime.
Qed.

Lemma product_divide (q : Z) (gs : list Z) : In q gs -> (q | product gs).
Proof.
  induction gs as [|g gs IH]; [intros []|]. cbn [product fold_right].
  intros [->|Hin]; [apply Z.divide_factor_l|].
  apply Z.divide_mul_r. now apply IH.
Qed.

Lemma index_finishes {A : Type} (l : list A) (i : Z) : Py.index l i <> Unfinished.
Proof.
  unfold Py.index. destruct (_ && _); [discriminate|].
  destruct (_ && _); discriminate.
Qed.

Lemma getitem_finishes {A : Type} (l : list A) (i : Z) :
  Py.getitem l i <> Unfinished.
Proof.
  unfold Py.getitem. pose proof (index_finishes l i) as Hi.
  destruct (Py.index l i) as [k| |]; cbn [bind]; [|discriminate|contradiction].
  destruct (nth_error l k); discriminate.
Qed.

Lemma setitem_finishes {A : Type} (l : list A) (i : Z) (v : A) :
  Py.setitem l i v <> Unfinished.
Proof.
  unfold Py.setitem. pose proof (index_finishes l i) as Hi.
  destruct (Py.index l i) as [k| |]; cbn [bind]; [discriminate|discriminate|contradiction].
Qed.

Lemma group_loop_finishes (factors idx : list Z) :
  forall f2 pw p, group_loop factors idx f2 pw p <> Unfinished.
Proof.
  induction idx as [|i idx IH]; intros f2 pw p; cbn [group_loop]; [discriminate|].
  pose proof (getitem_finishes factors i) as H1.
  destruct (Py.getitem factors i) as [fi| |]; cbn [bind]; [|discriminate|contradiction].
  pose proof (getitem_finishes factors (i - 1)) as H2.
  destruct (Py.getitem factors (i - 1)) as [fp| |]; cbn [bind];
    [|discriminate|contradiction].
  destruct (fi =? fp); cbn [negb bind]; [|apply IH].
  pose proof (getitem_finishes pw p) as H3.
  destruct (Py.getitem pw p) as [pp| |]; cbn [bind]; [|discriminate|contradiction].
  pose proof (setitem_finishes pw p (pp + 1)) as H4.
  destruct (Py.setitem pw p (pp + 1)) as [pw1| |]; cbn [bind];
    [apply IH|discriminate|contradiction].
Qed.

(** [prime_facto] never stops for lack of iterations: its loops end. *)
Lemma prime_facto_finishes (n : Z) : prime_facto n <> Unfinished.
Proof.
  unfold prime_facto.
  assert (Hloop : facto_loop (facto_budget n) n 2 [] <> Unfinished).
  { apply (facto_loop_ends (Z.max n 0)); unfold facto_budget; lia. }
  destruct (facto_loop (facto_budget n) n 2 []) as [[n1 fs]| |]; cbn [bind];
    [|discriminate|contradiction].
  set (factors := if negb (n1 =? 1) then fs ++ [n1] else fs).
  pose proof (getitem_finishes factors 0) as H0.
  destruct (Py.getitem factors 0) as [f0| |]; cbn [bind];
    [apply group_loop_finishes|discriminate|contradiction].
Qed.

(** The factors come out in non-decreasing order, so that equal ones
    are neighbours and the second loop keeps one of each. *)
Lemma nondecreasing_cons (x : Z) (l : list Z) :
  Forall (fun g => x <= g) l -> nondecreasing l -> nondecreasing (x :: l).
Proof.
  intros Hx Hl [|i] [|j] Hij; cbn [nth length] in *; try lia.
  - apply (proj1 (Forall_forall _ _) Hx). apply nth_In. lia.
  - apply Hl. lia.
Qed.

Lemma nondecreasing_snoc (x : Z) (l : list Z) :
  Forall (fun g => g <= x) l -> nondecreasing l -> nondecreasing (l ++ [x]).
Proof.
  intros Hx Hl i j Hij. rewrite length_app in Hij. cbn [length] in Hij.
  destruct (Nat.lt_ge_cases j (length l)) as [Hj|Hj].
  - rewrite !app_nth1 by lia. apply Hl. lia.
  - replace j with (length l) by lia. rewrite nth_middle.
    destruct (Nat.lt_ge_cases i (length l)) as [Hi|Hi].
    + rewrite app_nth1 by lia. apply (proj1 (Forall_forall _ _) Hx).
      apply nth_In. lia.
    + replace i with (length l) by lia. rewrite nth_middle. lia.
Qed.

Lemma facto_loop_sorted (fuel : nat) :
  forall n i fs n' fs',
    facto_loop fuel n i fs = Ret (n', fs') ->
    1 <= n < 2 ^ 50 -> 2 <= i ->
    (forall d, 2 <= d < i -> ~ (d | n)) ->
    exists gs, fs' = fs ++ gs /\
               Forall (fun g => i <= g) gs /\ nondecreasing gs /\
               (n' = 1 \/ (i <= n' /\ Forall (fun g => g <= n') gs)).
Proof.
  induction fuel as [|fuel IH]; intros n i fs n' fs' Hrun Hn Hi Hfree;
    cbn [facto_loop] in Hrun; [discriminate|].
  destruct (round_sqrt_defined n ltac:(lia)) as (r & Hr & Hsr).
  rewrite Hr in Hrun. cbn [bind] in Hrun.
  destruct (Z.leb_spec i (r + 1)) as [Hir|Hir].
  - destruct (Z.eqb_spec (n mod i) 0) as [Hmod|Hmod].
    + assert (Hdiv : n = i * (n / i)) by (apply Z_div_exact_2; lia).
      apply IH in Hrun; [| nia | lia |].
      * destruct Hrun as (gs & -> & Hlow & Hsorted & Hlast).
        exists (i :: gs). rewrite <- app_assoc. split; [reflexivity|].
        split; [constructor; [lia|exact Hlow]|].
        split; [now apply nondecreasing_cons|].
        destruct Hlast as [->|[Hin' Hup]]; [now left|right].
        split; [exact Hin'|constructor; assumption].
      * intros d Hd Hdn. apply (Hfree d Hd).
        apply Z.divide_trans with (n / i); [exact Hdn|]. exists i. lia.
    + apply IH in Hrun; [| lia | lia |].
      * destruct Hrun as (gs & -> & Hlow & Hsorted & Hlast).
        exists gs. split; [reflexivity|]. split.
        -- eapply Forall_impl; [|exact Hlow]. cbn. intros g Hg. lia.
        -- split; [exact Hsorted|].
           destruct Hlast as [->|[Hin' Hup]]; [now left|right]. split; [lia|exact Hup].
      * intros d Hd Hdn. destruct (Z.eq_dec d i) as [->|Hne].
        -- apply Hmod. apply Z.mod_divide; [lia|exact Hdn].
        -- apply (Hfree d); [lia|exact Hdn].
  - injection Hrun as <- <-. exists []. rewrite app_nil_r.
    split; [reflexivity|]. split; [constructor|].
    split; [intros a b Hab; cbn in Hab; lia|].
    destruct (Z.eq_dec n 1) as [->|Hn1]; [now left|right].
    split; [|constructor].
    destruct (Z.le_gt_cases i n) as [|Hlt]; [assumption|exfalso].
    apply (Hfree n); [lia|apply Z.divide_refl].
Qed.

(** On factors in non-decreasing order the second loop keeps each value
    once. *)
Lemma group_loop_nodup (factors : list Z) (todo : nat) :
  nondecreasing factors ->
  forall a f2 pw p f2' pw',
    Z.of_nat (length factors) = a + Z.of_nat todo -> 1 <= a ->
    NoDup f2 ->
    Forall (fun g => g <= nth (Z.to_nat (a - 1)) factors 0) f2 ->
    group_loop factors (Py.range a (Z.of_nat (length factors))) f2 pw p
    = Ret (f2', pw') ->
    NoDup f2'.
Proof.
  intros Hsorted.
  induction todo as [|todo IH]; intros a f2 pw p f2' pw' Hlen Ha Hnd Hup Hrun.
  - rewrite range_empty in Hrun by lia. cbn [group_loop] in Hrun.
    now injection Hrun as <- _.
  - rewrite range_cons in Hrun by lia. cbn [group_loop] in Hrun.
    rewrite (getitem_nth factors a 0) in Hrun by lia.
    rewrite (getitem_nth factors (a - 1) 0) in Hrun by lia. cbn [bind] in Hrun.
    assert (Hle : nth (Z.to_nat (a - 1)) factors 0 <= nth (Z.to_nat a) factors 0)
      by (apply Hsorted; lia).
    set (fi := nth (Z.to_nat a) factors 0) in *.
    set (fp := nth (Z.to_nat (a - 1)) factors 0) in *.
    destruct (Z.eqb_spec fi fp) as [Heq|Hne]; cbn [negb] in Hrun.
    + destruct (Py.getitem pw p) as [pp| |]; cbn [bind] in Hrun; try discriminate.
      destruct (Py.setitem pw p (pp + 1)) as [pw1| |]; cbn [bind] in Hrun;
        try discriminate.
      apply (IH (a + 1) f2 pw1 p f2' pw'); [lia|lia|exact Hnd| |exact Hrun].
      replace (a + 1 - 1) with a by lia. fold fi. now rewrite Heq.
    + cbn [bind] in Hrun.
      apply (IH (a + 1) (f2 ++ [fi]) (pw ++ [1]) (p + 1) f2' pw');
        [lia|lia| | |exact Hrun].
      * apply NoDup_app; [exact Hnd|repeat constructor; intros []|].
        intros g Hg [<-|[]].
        pose proof (proj1 (Forall_forall _ _) Hup fi Hg) as Hgfp. cbn in Hgfp. lia.
      * replace (a + 1 - 1) with a by lia. fold fi.
        apply Forall_app. split; [|repeat constructor; lia].
        eapply Forall_impl; [|exact Hup]. cbn. intros g Hg. lia.
Qed.

(** From 2 to [2^50], [prime_facto] returns, and its first list holds
    the prime divisors of [n], each once, and nothing else. *)
Lemma prime_facto_spec (n : Z) :
  2 <= n < 2 ^ 50 ->
  exists qs pows, prime_facto n = Ret (qs, pows) /\
                  NoDup qs /\
                  (forall q, In q qs <-> Z.prime q /\ (q | n)).
Proof.
  intros Hn. unfold prime_facto.
  destruct (facto_loop_budget n ltac:(lia)) as (n1 & fs & Hrun).
  rewrite Hrun. cbn [bind].
  destruct (facto_loop_sorted _ _ _ _ _ _ Hrun ltac:(lia) ltac:(lia)) as
    (gs' & Hgs' & _ & Hsorted & Hup); [intros d Hd; lia|].
  destruct (facto_loop_spec _ _ _ _ _ _ Hrun ltac:(lia) ltac:(lia)) as
    (gs & -> & Hprod & Hgs & Hn1 & Hlast); [intros d Hd; lia|].
  cbn [app] in *. subst gs'.
  set (factors := if negb (n1 =? 1) then gs ++ [n1] else gs).
  assert (Hfsorted : nondecreasing factors).
  { subst factors. destruct (Z.eqb_spec n1 1) as [->|Hne]; cbn [negb];
      [exact Hsorted|].
    destruct Hup as [|[_ Hup]]; [contradiction|]. now apply nondecreasing_snoc. }
  assert (Hall : Forall Z.prime factors /\ n = product factors).
  { subst factors. destruct (Z.eqb_spec n1 1) as [->|Hne]; cbn [negb].
    - split; [exact Hgs|lia].
    - destruct Hlast as [|Hp1]; [contradiction|].
      split; [apply Forall_app; split; [exact Hgs|constructor; [exact Hp1|constructor]]|].
      rewrite Hprod. clear. induction gs as [|g gs IH]; cbn [app product fold_right] in *;
        [lia|]. unfold product in *. rewrite <- IH. ring. }
  destruct Hall as [Hprimes Hnprod].
  assert (Hne : (0 < length factors)%nat).
  { destruct factors; [cbn in Hnprod; lia|cbn; lia]. }
  rewrite (getitem_nth factors 0 0) by lia. cbn [bind].
  destruct (group_loop_spec factors (length factors - 1) 1 [nth 0 factors 0] [1] 0)
    as (f2 & pw & Hgl & Hf2); try (cbn [length]; lia).
  - intros j Hj. left. f_equal. cbn in Hj. lia.
  - intros q [<-|[]]. apply nth_In. exact Hne.
  - change (Z.to_nat 0) with 0%nat. rewrite Hgl.
    exists f2, pw. split; [reflexivity|]. split.
    { apply (group_loop_nodup factors (length factors - 1) Hfsorted
               1 [nth 0 factors 0] [1] 0 f2 pw); [lia|lia| | |exact Hgl].
      - repeat constructor. intros [].
      - repeat constructor. change (Z.to_nat (1 - 1)) with 0%nat. lia. }
    intros q. rewrite Hf2. split.
    + intros Hq. split; [exact (proj1 (Forall_forall _ _) Hprimes q Hq)|].
      rewrite Hnprod. now apply product_divide.
    + intros [Hq Hdiv]. rewrite Hnprod in Hdiv.
      now apply divide_product_prime.
Qed.

(** ** Multiplicative order *)

Lemma prime_or_divisor (n : Z) :
  2 <= n -> Z.prime n \/ exists d, 1 < d < n /\ (d | n).
Proof.
  intros Hn. destruct (prime_dec n) as [Hp|Hnp].
  - left. now apply prime_alt.
  - right. apply not_prime_divide; [lia|exact Hnp].
Qed.

Lemma prime_divisor_exists (n : Z) :
  2 <= n -> exists q, Z.prime q /\ (q | n).
Proof.
  intros Hn.
  assert (H0 : 0 <= n) by lia. revert Hn.
  pattern n. apply Z_lt_induction; [|exact H0]. clear n H0.
  intros n IH Hn. destruct (prime_or_divisor n Hn) as [Hp|(d & Hd & Hdn)].
  - exists n. split; [exact Hp|apply Z.divide_refl].
  - destruct (IH d ltac:(lia) ltac:(lia)) as (q & Hq & Hqd).
    exists q. split; [exact Hq|]. now apply Z.divide_trans with d.
Qed.

Lemma pow_mul_mod_one (a p d t : Z) :
  0 <= d -> 0 <= t -> 1 < p -> a ^ d mod p = 1 -> a ^ (d * t) mod p = 1.
Proof.
  intros Hd Ht Hp Had.
  rewrite Z.pow_mul_r by assumption.
  rewrite <- Z.mod_pow_l, Had, Z.pow_1_l by assumption.
  apply Z.mod_1_l. exact Hp.
Qed.

(** Below any exponent that gives 1 there is a least one. *)
Lemma least_exponent (a p : Z) (n : nat) :
  (forall e, 0 < e <= Z.of_nat n -> a ^ e mod p <> 1) \/
  (exists d, 0 < d <= Z.of_nat n /\ a ^ d mod p = 1 /\
             forall e, 0 < e < d -> a ^ e mod p <> 1).
Proof.
  induction n as [|n [IH|(d & Hd & Had & Hmin)]].
  - left. intros e He. lia.
  - destruct (Z.eq_dec (a ^ Z.of_nat (S n) mod p) 1) as [Hone|Hnot].
    + right. exists (Z.of_nat (S n)). split; [lia|]. split; [exact Hone|].
      intros e He. apply IH. lia.
    + left. intros e He. destruct (Z.eq_dec e (Z.of_nat (S n))) as [->|Hne];
        [exact Hnot|apply IH; lia].
  - right. exists d. split; [lia|]. now split.
Qed.

(** The test made by the [*_na_set] searches is enough: for a prime [p]
    not dividing [a], if no [(p-1)/q] with [q] a prime divisor of [p - 1]
    brings [a] to 1, the order of [a] is [p - 1]. *)
Lemma order_from_tests (a p : Z) :
  Z.prime p -> a mod p <> 0 -> 2 < p ->
  (forall q, Z.prime q -> (q | p - 1) -> a ^ ((p - 1) / q) mod p <> 1) ->
  has_order a p (p - 1).
Proof.
  intros Hp Ha Hp2 Htests.
  pose proof (Z.fermat_nz p a Hp Ha) as Hfermat.
  split; [lia|]. split; [exact Hfermat|]. intros e He Hae.
  destruct (least_exponent a p (Z.to_nat e)) as [Hnone|(d & Hd & Had & Hmin)];
    [apply (Hnone e); [lia|exact Hae]|].
  (* the least exponent divides p - 1 *)
  pose proof (Z.div_mod (p - 1) d ltac:(lia)) as Hdm.
  pose proof (Z.mod_pos_bound (p - 1) d ltac:(lia)) as Hr.
  set (t := (p - 1) / d) in *. set (r := (p - 1) mod d) in *.
  assert (Ht : 0 <= t) by (subst t; apply Z.div_pos; lia).
  assert (Har : a ^ r mod p = 1).
  { pose proof Hfermat as Hsplit. rewrite Hdm in Hsplit.
    rewrite Z.pow_add_r in Hsplit by nia.
    rewrite <- Z.mul_mod_idemp_l in Hsplit by lia.
    rewrite (pow_mul_mod_one a p d t) in Hsplit by lia.
    now rewrite Z.mul_1_l in Hsplit. }
  assert (Hr0 : r = 0).
  { destruct (Z.eq_dec r 0) as [|Hne]; [assumption|].
    exfalso. apply (Hmin r); [lia|exact Har]. }
  assert (Ht2 : 2 <= t) by nia.
  destruct (prime_divisor_exists t Ht2) as (q & Hq & [c Hc]).
  pose proof (Z.prime_ge_2 q Hq) as Hq2.
  assert (Hc0 : 0 <= c) by nia.
  apply (Htests q Hq).
  - exists (d * c). nia.
  - replace ((p - 1) / q) with (d * c).
    + apply pow_mul_mod_one; [lia|lia|lia|exact Had].
    + apply Z.div_unique_exact; [lia|nia].
Qed.

(** ** The searches *)

(** What the inner [while] has done when it stops: it has stepped over
    [j] candidates that [is_prime] refused and stands on one it accepts. *)
Lemma skip_composites_ret (fuel : nat) (step : Z) :
  forall k k',
    skip_composites fuel step k = Ret k' ->
    exists j : nat,
      k' = k + step * Z.of_nat j /\
      is_prime (k' + 1) = Ret true /\
      forall i : nat, (i < j)%nat ->
                      is_prime (k + step * Z.of_nat i + 1) = Ret false.
Proof.
  induction fuel as [|fuel IH]; intros k k' Hrun; cbn [skip_composites] in Hrun;
    [discriminate|].
  destruct (is_prime (k + 1)) as [[|]| |] eqn:Hk; cbn [bind] in Hrun;
    try discriminate.
  - injection Hrun as <-. exists 0%nat. split; [lia|]. split; [exact Hk|].
    intros i Hi. lia.
  - destruct (IH _ _ Hrun) as (j & -> & Hacc & Hrej).
    exists (S j). split; [lia|]. split; [exact Hacc|].
    intros [|i] Hi.
    + now replace (k + step * Z.of_nat 0) with k by lia.
    + replace (k + step * Z.of_nat (S i)) with (k + step + step * Z.of_nat i) by lia.
      apply Hrej. lia.
Qed.

Lemma skip_composites_more (fuel fuel' : nat) (step : Z) :
  forall k k',
    (fuel <= fuel')%nat ->
    skip_composites fuel step k = Ret k' -> skip_composites fuel' step k = Ret k'.
Proof.
  revert fuel'. induction fuel as [|fuel IH]; intros fuel' k k' Hle Hrun;
    cbn [skip_composites] in Hrun; [discriminate|].
  destruct fuel' as [|fuel']; [lia|]. cbn [skip_composites].
  destruct (is_prime (k + 1)) as [[|]| |]; cbn [bind] in *; try discriminate;
    [exact Hrun|]. apply IH; [lia|exact Hrun].
Qed.

(** Going down, the loop meets 1, which [is_prime] accepts. *)
Lemma skip_down_returns (fuel : nat) :
  forall k,
    0 <= k < 2 ^ 50 - 1 -> k mod 2 = 0 -> k < 2 * Z.of_nat fuel ->
    exists k', skip_composites fuel (-2) k = Ret k'.
Proof.
  induction fuel as [|fuel IH]; intros k Hk Heven Hfuel; [lia|].
  cbn [skip_composites].
  destruct (is_prime_defined (k + 1) ltac:(lia)) as ([|] & Hb); rewrite Hb;
    cbn [bind]; [eauto|].
  assert (Hk2 : 2 <= k).
  { destruct (Z.eq_dec k 0) as [->|]; [discriminate Hb|].
    destruct (Z.eq_dec k 1) as [->|]; [discriminate Heven|lia]. }
  apply IH; [lia| |lia].
  replace (k + -2) with (k + (-1) * 2) by lia. now rewrite Z.mod_add by lia.
Qed.

(** Going up, the loop stops at the latest on an accepted candidate. *)
Lemma skip_up_returns (j : nat) :
  forall k,
    0 <= k + 1 /\ k + 2 * Z.of_nat j + 1 < 2 ^ 50 ->
    is_prime (k + 2 * Z.of_nat j + 1) = Ret true ->
    exists k', skip_composites (S j) 2 k = Ret k'.
Proof.
  induction j as [|j IH]; intros k Hk Hacc; cbn [skip_composites].
  - replace (k + 2 * Z.of_nat 0 + 1) with (k + 1) in Hacc by lia.
    rewrite Hacc. cbn [bind]. eauto.
  - destruct (is_prime_defined (k + 1) ltac:(lia)) as ([|] & Hb); rewrite Hb;
      cbn [bind]; [eauto|].
    apply IH; [lia|].
    now replace (k + 2 + 2 * Z.of_nat j + 1) with (k + 2 * Z.of_nat (S j) + 1) by lia.
Qed.

Lemma odd_prime (p : Z) : Z.prime p -> 2 < p -> p mod 2 = 1.
Proof.
  intros [_ Hp] Hp2.
  pose proof (Z.mod_pos_bound p 2 ltac:(lia)) as Hb.
  destruct (Z.eq_dec (p mod 2) 0) as [H0|H0]; [exfalso|lia].
  apply (Hp 2); [lia|]. apply Z.mod_divide; [lia|exact H0].
Qed.

Lemma start_even_next (k : Z) :
  start_even 1 k mod 2 = 0 /\ k - 1 <= start_even 1 k <= k.
Proof.
  unfold start_even. pose proof (Z.mod_pos_bound (k - 1) 2 ltac:(lia)) as Hb.
  destruct (Z.eqb_spec ((k - 1) mod 2) 0) as [H0|H0]; cbn [negb].
  - split; [exact H0|lia].
  - split; [|lia]. replace (k - 1 + 1) with (k - 1 + 1 * 1) by lia.
    rewrite <- Z.add_mod_idemp_l by lia.
    replace ((k - 1) mod 2) with 1 by lia. reflexivity.
Qed.

Lemma start_even_previous (k : Z) :
  start_even (-1) k mod 2 = 0 /\ k - 2 <= start_even (-1) k <= k - 1.
Proof.
  unfold start_even. pose proof (Z.mod_pos_bound (k - 1) 2 ltac:(lia)) as Hb.
  destruct (Z.eqb_spec ((k - 1) mod 2) 0) as [H0|H0]; cbn [negb].
  - split; [exact H0|lia].
  - split; [|lia].
    rewrite <- Z.add_mod_idemp_l by lia.
    replace ((k - 1) mod 2) with 1 by lia. reflexivity.
Qed.

(** [next_prime] stops at the latest on a prime below [2^50]. *)
Lemma next_prime_returns (k p : Z) :
  1 <= k -> Z.prime p -> k <= p < 2 ^ 50 ->
  exists fuel p', next_prime fuel k = Ret p'.
Proof.
  intros Hk Hp Hpk. destruct (start_even_next k) as [Heven Hrange].
  pose proof (Z.prime_ge_2 p Hp) as Hp2.
  destruct (Z.eq_dec p 2) as [->|Hne].
  { destruct (Z.eq_dec k 1) as [->|]; [exists 1%nat, 1; reflexivity|].
    replace k with 2 by lia. exists 1%nat, 3. reflexivity. }
  pose proof (odd_prime p Hp ltac:(lia)) as Hodd.
  destruct (is_prime_correct p ltac:(lia)) as (b & Hb & Hiff).
  apply Hiff in Hp. subst b.
  set (k0 := start_even 1 k) in *.
  assert (Hk0p : k0 + 1 <= p).
  { destruct (Z.eq_dec p k0) as [Heq|]; [|lia].
    rewrite <- Heq in Heven. lia. }
  set (j := Z.to_nat ((p - 1 - k0) / 2)).
  assert (Hj : p = k0 + 2 * Z.of_nat j + 1).
  { pose proof (Z.div_mod (p - 1 - k0) 2 ltac:(lia)) as Hdm.
    assert (Hm : (p - 1 - k0) mod 2 = 0).
    { rewrite Zminus_mod, Heven. rewrite (Zminus_mod p 1), Hodd. reflexivity. }
    assert (0 <= (p - 1 - k0) / 2) by (apply Z.div_pos; lia). lia. }
  rewrite Hj in Hb.
  destruct (skip_up_returns j k0 ltac:(lia) Hb) as (k' & Hk').
  exists (S j), (k' + 1).
  unfold next_prime. fold k0. now rewrite Hk'.
Qed.

Lemma previous_prime_returns (k : Z) :
  2 <= k < 2 ^ 50 -> exists fuel p, previous_prime fuel k = Ret p.
Proof.
  intros Hk. destruct (start_even_previous k) as [Heven Hrange].
  destruct (skip_down_returns (S (Z.to_nat k)) (start_even (-1) k))
    as (k' & Hk'); [lia|exact Heven|lia|].
  exists (S (Z.to_nat k)), (k' + 1). unfold previous_prime. now rewrite Hk'.
Qed.

Lemma even_gap (a b : Z) :
  a mod 2 = b mod 2 -> a <= b -> exists i : nat, b = a + 2 * Z.of_nat i.
Proof.
  intros Hpar Hle. exists (Z.to_nat ((b - a) / 2)).
  pose proof (Z.div_mod (b - a) 2 ltac:(lia)) as Hdm.
  assert (Hm : (b - a) mod 2 = 0) by (rewrite Zminus_mod, Hpar, Z.sub_diag; reflexivity).
  assert (0 <= (b - a) / 2) by (apply Z.div_pos; lia). lia.
Qed.

Lemma succ_even_odd (k : Z) : k mod 2 = 0 -> (k + 1) mod 2 = 1.
Proof.
  intros Hk. rewrite <- Z.add_mod_idemp_l by lia. now rewrite Hk.
Qed.

(** From 3 to [2^50], [previous_prime] is the largest prime not above
    [k]. *)
Lemma previous_prime_correct (k : Z) :
  3 <= k < 2 ^ 50 ->
  exists fuel p, previous_prime fuel k = Ret p /\
                 Z.prime p /\ p <= k /\
                 forall q, Z.prime q -> q <= k -> q <= p.
Proof.
  intros Hk. destruct (previous_prime_returns k ltac:(lia)) as (fuel & p & Hrun).
  exists fuel, p. split; [exact Hrun|].
  unfold previous_prime in Hrun.
  destruct (start_even_previous k) as [Heven Hrange].
  set (k0 := start_even (-1) k) in *.
  destruct (skip_composites fuel (-2) k0) as [k'| |] eqn:Hskip; cbn [bind] in Hrun;
    try discriminate.
  injection Hrun as <-.
  destruct (skip_composites_ret _ _ _ _ Hskip) as (j & Hk' & Hacc & Hrej).
  assert (Hvisit : forall c, c mod 2 = 1 -> k' + 1 < c <= k ->
                             is_prime c = Ret false).
  { intros c Hc Hck.
    destruct (even_gap c (k0 + 1)) as (i & Hi);
      [now rewrite succ_even_odd | |].
    - destruct (Z.eq_dec c (k0 + 2)) as [->|]; [|lia].
      replace (k0 + 2) with (k0 + 1 * 2) in Hc by lia.
      rewrite Z.mod_add in Hc by lia. lia.
    - replace c with (k0 + -2 * Z.of_nat i + 1) by lia. apply Hrej. lia. }
  assert (H3 : 3 <= k' + 1).
  { destruct (Z.le_gt_cases 3 (k' + 1)) as [|Hlt]; [assumption|exfalso].
    specialize (Hvisit 3 eq_refl ltac:(lia)). discriminate Hvisit. }
  destruct (is_prime_correct (k' + 1) ltac:(lia)) as (b & Hb & Hiff).
  rewrite Hb in Hacc. injection Hacc as ->.
  split; [now apply Hiff|]. split; [lia|].
  intros q Hq Hqk. destruct (Z.le_gt_cases q (k' + 1)) as [|Hgt]; [assumption|exfalso].
  pose proof (odd_prime q Hq ltac:(lia)) as Hodd.
  specialize (Hvisit q Hodd ltac:(lia)).
  destruct (is_prime_correct q ltac:(lia)) as (b & Hb' & Hiff').
  rewrite Hb' in Hvisit. injection Hvisit as ->.
  apply Hiff' in Hq. discriminate Hq.
Qed.

(** From 3 on, and as long as there is a prime from [k] to [2^50],
    [next_prime] is the smallest prime not below [k]. *)
Lemma next_prime_correct (k p0 : Z) :
  3 <= k -> Z.prime p0 -> k <= p0 < 2 ^ 50 ->
  exists fuel p, next_prime fuel k = Ret p /\
                 Z.prime p /\ k <= p /\
                 forall q, Z.prime q -> k <= q -> p <= q.
Proof.
  intros Hk Hp0 Hkp0.
  destruct (next_prime_returns k p0 ltac:(lia) Hp0 Hkp0) as (fuel & p & Hrun).
  exists fuel, p. split; [exact Hrun|].
  unfold next_prime in Hrun.
  destruct (start_even_next k) as [Heven Hrange].
  set (k0 := start_even 1 k) in *.
  destruct (skip_composites fuel 2 k0) as [k'| |] eqn:Hskip; cbn [bind] in Hrun;
    try discriminate.
  injection Hrun as <-.
  destruct (skip_composites_ret _ _ _ _ Hskip) as (j & Hk' & Hacc & Hrej).
  assert (Hleast : forall q, Z.prime q -> k <= q < 2 ^ 50 -> k' + 1 <= q).
  { intros q Hq Hqk.
    destruct (Z.le_gt_cases (k' + 1) q) as [|Hgt]; [assumption|exfalso].
    pose proof (odd_prime q Hq ltac:(lia)) as Hodd.
    destruct (even_gap (k0 + 1) q) as (i & Hi);
      [now rewrite succ_even_odd | |].
    - destruct (Z.eq_dec q k0) as [->|]; [|lia]. lia.
    - specialize (Hrej i ltac:(lia)).
      replace (k0 + 2 * Z.of_nat i + 1) with q in Hrej by lia.
      destruct (is_prime_correct q ltac:(lia)) as (b & Hb' & Hiff').
      rewrite Hb' in Hrej. injection Hrej as ->.
      apply Hiff' in Hq. discriminate Hq. }
  pose proof (Hleast p0 Hp0 Hkp0) as Hle0.
  destruct (is_prime_correct (k' + 1) ltac:(lia)) as (b & Hb & Hiff).
  rewrite Hb in Hacc. injection Hacc as ->.
  split; [now apply Hiff|]. split; [lia|].
  intros q Hq Hqk. destruct (Z.lt_ge_cases q (2 ^ 50)); [apply Hleast; [exact Hq|lia]|lia].
Qed.

(** A search that ends without a [break] has seen every test pass. *)
Lemma root_test_passed (k : Z) (primes : list Z) :
  0 <= k -> root_test_fails k primes = Ret false ->
  forall q, In q primes -> 0 < q -> 2 ^ (k / q) mod (k + 1) <> 1.
Proof.
  intros Hk. induction primes as [|a primes IH]; intros Hrun q Hin Hq; [destruct Hin|].
  cbn [root_test_fails] in Hrun.
  destruct (Py.floordiv k a) as [e| |] eqn:He; cbn [bind] in Hrun; try discriminate.
  destruct (Py.pow 2 e (k + 1)) as [r| |] eqn:Hr; cbn [bind] in Hrun; try discriminate.
  destruct (Z.eqb_spec r 1) as [|Hr1]; [discriminate|].
  destruct Hin as [->|Hin]; [|now apply IH].
  unfold Py.floordiv in He. destruct (Z.eqb_spec q 0); [lia|]. injection He as <-.
  unfold Py.pow in Hr. destruct (Z.eqb_spec (k + 1) 0); [lia|].
  assert (0 <= k / q) by (apply Z.div_pos; lia).
  destruct (Z.ltb_spec (k / q) 0); [lia|]. injection Hr as <-. exact Hr1.
Qed.

(** What the outer [while] of the [*_na_set] searches returns. *)
Lemma na_search_ret (fuel : nat) (step : Z) :
  forall k k',
    na_search fuel step k = Ret k' ->
    (exists j : nat, k' = k + step * Z.of_nat j) /\
    is_prime (k' + 1) = Ret true /\
    exists primes pows,
      prime_facto k' = Ret (primes, pows) /\
      root_test_fails k' primes = Ret false.
Proof.
  induction fuel as [|fuel IH]; intros k k' Hrun; cbn [na_search] in Hrun;
    [discriminate|].
  destruct (skip_composites (S fuel) step k) as [k1| |] eqn:Hskip;
    cbn [bind] in Hrun; try discriminate.
  destruct (skip_composites_ret _ _ _ _ Hskip) as (j & Hk1 & Hacc & _).
  destruct (prime_facto k1) as [[primes pows]| |] eqn:Hf; cbn [bind] in Hrun;
    try discriminate.
  destruct (root_test_fails k1 primes) as [[|]| |] eqn:Ht; cbn [bind] in Hrun;
    try discriminate.
  - destruct (IH _ _ Hrun) as ((j' & Hj') & Hrest).
    split; [|exact Hrest]. exists (S (j + j')). lia.
  - injection Hrun as <-. split; [now exists j|]. split; [exact Hacc|].
    now exists primes, pows.
Qed.

(** Every test can be made, and it fails exactly when some prime of the
    list brings 2 back to 1. *)
Lemma root_test_defined (k : Z) (primes : list Z) :
  0 <= k -> Forall (fun q => 0 < q) primes ->
  exists b, root_test_fails k primes = Ret b /\
            (b = true -> exists q, In q primes /\ 2 ^ (k / q) mod (k + 1) = 1).
Proof.
  intros Hk Hpos. induction Hpos as [|q primes Hq _ IH]; cbn [root_test_fails].
  - exists false. split; [reflexivity|discriminate].
  - unfold Py.floordiv, Py.pow.
    destruct (Z.eqb_spec q 0); [lia|]. cbn [bind].
    destruct (Z.eqb_spec (k + 1) 0); [lia|].
    assert (0 <= k / q) by (apply Z.div_pos; lia).
    destruct (Z.ltb_spec (k / q) 0); [lia|]. cbn [bind].
    destruct (Z.eqb_spec (2 ^ (k / q) mod (k + 1)) 1) as [Hone|Hnot].
    + exists true. split; [reflexivity|]. intros _. exists q. split; [now left|exact Hone].
    + destruct IH as (b & Hb & Hfail). exists b. split; [exact Hb|].
      intros Htrue. destruct (Hfail Htrue) as (q' & Hin & Hq').
      exists q'. split; [now right|exact Hq'].
Qed.

(** The [next_na_set] search stops at the latest on a prime of which 2
    is a primitive root: it returns as soon as there is one from [k] to
    [2^50]. *)
Lemma na_search_returns (n : nat) :
  forall (fuel : nat) (k : Z),
    (n < fuel)%nat -> 2 <= k /\ k + 2 * Z.of_nat n + 1 < 2 ^ 50 ->
    Z.prime (k + 2 * Z.of_nat n + 1) ->
    has_order 2 (k + 2 * Z.of_nat n + 1) (k + 2 * Z.of_nat n) ->
    exists k', na_search fuel 2 k = Ret k'.
Proof.
  induction n as [n IH] using (well_founded_induction lt_wf).
  intros fuel k Hfuel Hk Hp Hord.
  destruct fuel as [|fuel]; [lia|]. cbn [na_search].
  set (p := k + 2 * Z.of_nat n + 1) in *.
  destruct (is_prime_correct p ltac:(lia)) as (b & Hb & Hiff).
  apply Hiff in Hp. subst b.
  destruct (skip_up_returns n k ltac:(lia) Hb) as (k1 & Hskip).
  apply (skip_composites_more _ (S fuel)) in Hskip; [|lia].
  rewrite Hskip. cbn [bind].
  destruct (skip_composites_ret _ _ _ _ Hskip) as (j & Hk1 & Hacc & Hrej).
  assert (Hjn : (j <= n)%nat).
  { destruct (Nat.le_gt_cases j n) as [|Hgt]; [assumption|exfalso].
    specialize (Hrej n Hgt). fold p in Hrej. congruence. }
  destruct (is_prime_correct (k1 + 1) ltac:(lia)) as (b & Hb1 & Hiff1).
  rewrite Hb1 in Hacc. injection Hacc as ->.
  destruct (prime_facto_spec k1 ltac:(lia)) as (qs & pows & Hfacto & _ & Hqs).
  rewrite Hfacto. cbn [bind].
  destruct (root_test_defined k1 qs ltac:(lia)) as ([|] & Htest & Hfail).
  { apply Forall_forall. intros q Hq. apply Hqs in Hq.
    destruct Hq as [Hq _]. pose proof (Z.prime_ge_2 q Hq). lia. }
  - rewrite Htest. cbn [bind].
    destruct (Hfail eq_refl) as (q & Hq & Hone). apply Hqs in Hq.
    destruct Hq as [Hq [c Hc]]. pose proof (Z.prime_ge_2 q Hq) as Hq2.
    assert (Hc0 : 0 < c) by nia.
    assert (Hquot : k1 / q = c) by (symmetry; apply Z.div_unique_exact; lia).
    rewrite Hquot in Hone.
    destruct (Nat.eq_dec j n) as [->|Hne].
    + exfalso. destruct Hord as (_ & _ & Hmin).
      apply (Hmin c); [nia|]. subst p. now rewrite <- Hk1.
    + apply (IH (n - j - 1)%nat); [lia|lia|lia| |].
      * replace (k1 + 2 + 2 * Z.of_nat (n - j - 1) + 1) with (p + 0) by lia.
        rewrite Z.add_0_r. now apply Hiff.
      * replace (k1 + 2 + 2 * Z.of_nat (n - j - 1) + 1) with p by lia.
        replace (k1 + 2 + 2 * Z.of_nat (n - j - 1)) with (k + 2 * Z.of_nat n) by lia.
        exact Hord.
  - rewrite Htest. cbn [bind]. eauto.
Qed.

Lemma next_na_set_returns (k p : Z) :
  2 <= k -> k <= p < 2 ^ 50 -> Z.prime p -> has_order 2 p (p - 1) ->
  exists fuel p', next_na_set fuel k = Ret p'.
Proof.
  intros Hk Hkp Hp Hord.
  destruct (start_even_next k) as [Heven Hrange].
  set (k0 := start_even 1 k) in *.
  assert (Hp2 : 2 < p).
  { pose proof (Z.prime_ge_2 p Hp). destruct (Z.eq_dec p 2) as [->|]; [|lia].
    destruct Hord as (_ & Hone & _). discriminate Hone. }
  pose proof (odd_prime p Hp Hp2) as Hodd.
  destruct (even_gap (k0 + 1) p) as (n & Hn); [now rewrite succ_even_odd| |].
  - destruct (Z.eq_dec p k0) as [->|]; [lia|lia].
  - assert (Hk0 : 2 <= k0).
    { destruct (Z.eq_dec k0 1) as [H1|]; [rewrite H1 in Heven; discriminate|lia]. }
    destruct (na_search_returns n (S n) k0 ltac:(lia) ltac:(lia)) as (k' & Hk').
    + now replace (k0 + 2 * Z.of_nat n + 1) with p by lia.
    + replace (k0 + 2 * Z.of_nat n + 1) with p by lia.
      now replace (k0 + 2 * Z.of_nat n) with (p - 1) by lia.
    + exists (S n), (k' + 1). unfold next_na_set. fold k0. now rewrite Hk'.
Qed.

(** At 2 the downward search reaches the candidate 1, which [is_prime]
    accepts, and [prime_facto(0)] hands it the factor 0. *)
Lemma na_set_at_2 (fuel : nat) :
  next_na_set (S fuel) 2 = Ret 3 /\
  previous_na_set (S fuel) 2 = Raise ZeroDivisionError /\
  closest_na_set (S fuel) 2 = Raise ZeroDivisionError.
Proof. repeat split; reflexivity. Qed.

(** ** The claims on the number-theoretic searches *)

(** C1, at the input where the code leaves it: [previous_prime(2)] answers
    1, which is not a prime, although 2 is the largest prime not above 2;
    [next_prime(2)] answers 3, stepping over the prime 2. *)
Theorem prime_search_at_2 (fuel : nat) :
  previous_prime (S fuel) 2 = Ret 1 /\ next_prime (S fuel) 2 = Ret 3 /\
  ~ Z.prime 1 /\ Z.prime 2.
Proof.
  split; [reflexivity|]. split; [reflexivity|].
  split; [exact Z.not_prime_1|exact Z.prime_2].
Qed.



(** X22: when [next_na_set(k)] returns a [p] below [2^50], for [k >= 2],
    then [p] is a prime, [p >= k], the multiplicative order of 2 modulo
    [p] is [p - 1], and [prime_facto(p - 1)] has produced exactly the
    prime divisors [q] of [p - 1], each once, for each of which
    [2^((p-1)/q) mod p] differs from 1. *)
Theorem next_na_set_primitive_root (fuel : nat) (k p : Z) :
  2 <= k -> next_na_set fuel k = Ret p -> p < 2 ^ 50 ->
  Z.prime p /\ k <= p /\ has_order 2 p (p - 1) /\
  exists qs pows,
    prime_facto (p - 1) = Ret (qs, pows) /\
    NoDup qs /\
    (forall q, In q qs <-> Z.prime q /\ (q | p - 1)) /\
    (forall q, In q qs -> 2 ^ ((p - 1) / q) mod p <> 1).
Proof.
  intros Hk Hrun Hbound. unfold next_na_set in Hrun.
  destruct (start_even_next k) as [_ Hrange].
  destruct (na_search fuel 2 (start_even 1 k)) as [k'| |] eqn:Hsearch;
    cbn [bind] in Hrun; try discriminate.
  injection Hrun as <-.
  destruct (na_search_ret _ _ _ _ Hsearch)
    as ((j & Hj) & Hacc & primes & pows & Hfacto & Htest).
  replace (k' + 1 - 1) with k' by lia.
  assert (Hk2 : 2 <= k').
  { destruct (Z.eq_dec k' 1) as [->|]; [discriminate Hfacto|lia]. }
  destruct (is_prime_correct (k' + 1) ltac:(lia)) as (b & Hb & Hiff).
  rewrite Hb in Hacc. injection Hacc as ->.
  assert (Hp : Z.prime (k' + 1)) by now apply Hiff.
  destruct (prime_facto_spec k' ltac:(lia))
    as (qs & pows' & Hfacto' & Hnodup & Hqs).
  rewrite Hfacto in Hfacto'. injection Hfacto' as <- <-.
  assert (Hpass : forall q, In q primes -> 2 ^ (k' / q) mod (k' + 1) <> 1).
  { intros q Hq. apply (root_test_passed k' primes); [lia|exact Htest|exact Hq|].
    apply Hqs in Hq. destruct Hq as [Hq _]. pose proof (Z.prime_ge_2 q Hq). lia. }
  split; [exact Hp|]. split; [lia|]. split.
  - pose proof (order_from_tests 2 (k' + 1) Hp) as Hord.
    replace (k' + 1 - 1) with k' in Hord by lia.
    apply Hord; [rewrite Z.mod_small; lia|lia|].
    intros q Hq Hdiv. apply Hpass. apply Hqs. now split.
  - exists primes, pows. split; [exact Hfacto|]. split; [exact Hnodup|].
    split; [exact Hqs|exact Hpass].
Qed.

Lemma next_na_set_primitive_root_witness :
  Z.prime 11 /\ 6 <= 11 /\ has_order 2 11 (11 - 1) /\
  exists qs pows,
    prime_facto (11 - 1) = Ret (qs, pows) /\
    NoDup qs /\
    (forall q, In q qs <-> Z.prime q /\ (q | 11 - 1)) /\
    (forall q, In q qs -> 2 ^ ((11 - 1) / q) mod 11 <> 1).
Proof.
  apply (next_na_set_primitive_root 9 6 11); [lia|vm_compute; reflexivity|lia].
Defined.

Lemma next_prime_more (fuel fuel' : nat) (k p : Z) :
  (fuel <= fuel')%nat -> next_prime fuel k = Ret p -> next_prime fuel' k = Ret p.
Proof.
  unfold next_prime. intros Hle Hrun.
  destruct (skip_composites fuel 2 (start_even 1 k)) as [k'| |] eqn:Hskip;
    cbn [bind] in Hrun; try discriminate.
  now rewrite (skip_composites_more _ _ _ _ _ Hle Hskip).
Qed.

Lemma previous_prime_more (fuel fuel' : nat) (k p : Z) :
  (fuel <= fuel')%nat ->
  previous_prime fuel k = Ret p -> previous_prime fuel' k = Ret p.
Proof.
  unfold previous_prime. intros Hle Hrun.
  destruct (skip_composites fuel (-2) (start_even (-1) k)) as [k'| |] eqn:Hskip;
    cbn [bind] in Hrun; try discriminate.
  now rewrite (skip_composites_more _ _ _ _ _ Hle Hskip).
Qed.





(** ** [is_prime] below 2 *)

(** C10 as stated fails where it speaks of every [n < 4] and of every
    input below 2: at 3 the candidates are [[2]], and a negative input is
    rejected by [sqrt]. *)
Lemma trial_range_3_not_empty :
  trial_range 3 = Ret [2] /\
  ~ (forall n, n < 4 -> trial_range n = Ret []) /\
  is_prime (-1) = Raise ValueError.
Proof.
  split; [reflexivity|]. split; [|reflexivity].
  intros Hall. specialize (Hall 3 ltac:(lia)). discriminate Hall.
Qed.

(** C10, amended: [is_prime(0)] and [is_prime(1)] return [True]; for
    [0 <= n < 3] there is no candidate divisor, so every [n] with
    [0 <= n < 2] is reported prime. *)
Theorem is_prime_below_2 :
  is_prime 0 = Ret true /\ is_prime 1 = Ret true /\
  (forall n, 0 <= n < 3 -> trial_range n = Ret []) /\
  (forall n, 0 <= n < 2 -> is_prime n = Ret true).
Proof.
  split; [reflexivity|]. split; [reflexivity|]. split.
  - intros n Hn.
    assert (Hcases : n = 0 \/ n = 1 \/ n = 2) by lia.
    destruct Hcases as [->|[->| ->]]; reflexivity.
  - intros n Hn.
    assert (Hcases : n = 0 \/ n = 1) by lia.
    destruct Hcases as [->| ->]; reflexivity.
Qed.

(** ** Bits of a byte *)

Lemma mask_test (b k : Z) :
  0 <= k -> negb (Z.land b (Z.shiftl 1 k) =? 0) = Z.testbit b k.
Proof.
  intros Hk. rewrite Z.shiftl_1_l.
  destruct (Z.testbit b k) eqn:Hbit.
  - destruct (Z.eqb_spec (Z.land b (2 ^ k)) 0) as [H0|]; [|reflexivity].
    apply (f_equal (fun z => Z.testbit z k)) in H0.
    rewrite Z.land_spec, Hbit, Z.pow2_bits_true, Z.bits_0 in H0 by exact Hk.
    discriminate H0.
  - replace (Z.land b (2 ^ k)) with 0; [reflexivity|].
    symmetry. apply Z.bits_inj'. intros j Hj.
    rewrite Z.land_spec, Z.bits_0, Z.pow2_bits_eqb by exact Hk.
    destruct (Z.eqb_spec k j) as [<-|]; [now rewrite Hbit|apply andb_false_r].
Qed.

Lemma put_bit_test (old k j : Z) (v : bool) :
  0 <= k -> 0 <= j ->
  Z.testbit (put_bit old k v) j = if j =? k then v else Z.testbit old j.
Proof.
  intros Hk Hj. unfold put_bit. rewrite Z.shiftl_1_l.
  destruct v.
  - rewrite Z.lor_spec, Z.pow2_bits_eqb by exact Hk.
    rewrite (Z.eqb_sym k j). destruct (j =? k); [apply orb_true_r|apply orb_false_r].
  - rewrite Z.land_spec, Z.lnot_spec, Z.pow2_bits_eqb by assumption.
    rewrite (Z.eqb_sym k j). destruct (j =? k); [apply andb_false_r|apply andb_true_r].
Qed.

Lemma put_bit_zero (v : bool) : put_bit 0 0 v = Z.b2z v.
Proof. now destruct v. Qed.

(** ** [CompactBoolList]: storage lemmas *)

Lemma div8_mod8_eq (i j : Z) : i / 8 = j / 8 -> i mod 8 = j mod 8 -> i = j.
Proof.
  intros Hd Hm. rewrite (Z.div_mod i 8), (Z.div_mod j 8) by lia. now rewrite Hd, Hm.
Qed.

Lemma byte_index_nonneg (s : CompactBoolList) (i : Z) :
  0 <= i -> CBL.get_byte_and_bit_index s i = (i / 8, i mod 8).
Proof.
  intros Hi. unfold CBL.get_byte_and_bit_index.
  destruct (Z.ltb_spec i 0); [lia|reflexivity].
Qed.

Lemma byte_index_negative (s : CompactBoolList) (i : Z) :
  - cb_length s <= i < 0 ->
  CBL.get_byte_and_bit_index s i =
  CBL.get_byte_and_bit_index s (cb_length s + i).
Proof.
  intros Hi. unfold CBL.get_byte_and_bit_index.
  destruct (Z.ltb_spec i 0); [|lia].
  destruct (Z.ltb_spec (cb_length s + i) 0); [lia|].
  now rewrite (Z.add_comm i).
Qed.

(** Writing bit [i] when its byte is in the storage: the bit takes the
    value written, every other bit of the storage keeps its own. *)
Lemma set_byte_spec (s : CompactBoolList) (i v : Z) :
  0 <= i -> i / 8 < Z.of_nat (length (cb_data s)) ->
  exists d,
    CBL.set_byte_and_bit_index s i v = Ret (CBL.with_data s d) /\
    length d = length (cb_data s) /\
    (forall k, k <> Z.to_nat (i / 8) -> nth k d 0 = nth k (cb_data s) 0) /\
    nth (Z.to_nat (i / 8)) d 0 =
      put_bit (nth (Z.to_nat (i / 8)) (cb_data s) 0) (i mod 8) (Py.truthy v) /\
    forall j, 0 <= j ->
      CBL.bit (CBL.with_data s d) j =
      if j =? i then Py.truthy v else CBL.bit s j.
Proof.
  intros Hi Hbyte.
  assert (Hdiv : 0 <= i / 8) by (apply Z.div_pos; lia).
  pose proof (Z.mod_pos_bound i 8 ltac:(lia)) as Hmod.
  unfold CBL.set_byte_and_bit_index. rewrite byte_index_nonneg by exact Hi.
  rewrite (getitem_nth (cb_data s) (i / 8) 0) by lia. cbn [bind].
  rewrite setitem_nonneg by lia. cbn [bind].
  set (old := nth (Z.to_nat (i / 8)) (cb_data s) 0).
  fold (put_bit old (i mod 8) (Py.truthy v)).
  set (new := put_bit old (i mod 8) (Py.truthy v)).
  eexists. split; [reflexivity|].
  split; [apply update_length; lia|].
  split; [intros k Hk; apply update_nth_other; [lia|exact Hk]|].
  split; [apply update_nth_same; lia|].
  intros j Hj. unfold CBL.bit. cbn [cb_data CBL.with_data].
  assert (Hjdiv : 0 <= j / 8) by (apply Z.div_pos; lia).
  pose proof (Z.mod_pos_bound j 8 ltac:(lia)) as Hjmod.
  destruct (Z.eq_dec (j / 8) (i / 8)) as [Hsame|Hdiff].
  - rewrite Hsame, update_nth_same by lia.
    subst new. rewrite put_bit_test by lia. fold old.
    destruct (Z.eqb_spec (j mod 8) (i mod 8)) as [Hm|Hm];
      destruct (Z.eqb_spec j i) as [Hji|Hji]; try reflexivity.
    + exfalso. apply Hji. now apply div8_mod8_eq.
    + exfalso. apply Hm. now rewrite Hji.
  - rewrite update_nth_other by lia.
    destruct (Z.eqb_spec j i) as [Hji|]; [|reflexivity].
    exfalso. apply Hdiff. now rewrite Hji.
Qed.

Lemma wf_byte_in_storage (s : CompactBoolList) (i : Z) :
  CBL.wf s -> 0 <= i < cb_length s ->
  0 <= i / 8 < Z.of_nat (length (cb_data s)).
Proof.
  intros [Hlen Hsize] Hi. rewrite Hsize.
  split; [apply Z.div_pos; lia|].
  apply Z.div_lt_upper_bound; [lia|].
  pose proof (Z.mul_div_le (cb_length s + 7) 8 ltac:(lia)) as Hle.
  pose proof (Z.mod_pos_bound (cb_length s + 7) 8 ltac:(lia)) as Hmod.
  pose proof (Z.div_mod (cb_length s + 7) 8 ltac:(lia)) as Hdm. lia.
Qed.

Lemma in_bounds_true (s : CompactBoolList) (i : Z) :
  CBL.in_bounds s i = true <-> - cb_length s <= i < cb_length s.
Proof.
  unfold CBL.in_bounds. rewrite andb_true_iff, Z.leb_le, Z.ltb_lt. reflexivity.
Qed.

Lemma in_bounds_false (s : CompactBoolList) (i : Z) :
  CBL.in_bounds s i = false <-> ~ (- cb_length s <= i < cb_length s).
Proof.
  rewrite <- in_bounds_true. destruct (CBL.in_bounds s i); split; intros; easy.
Qed.

Lemma getitem_in_range (s : CompactBoolList) (i : Z) :
  CBL.wf s -> 0 <= i < cb_length s -> CBL.getitem s i = Ret (CBL.bit s i).
Proof.
  intros Hwf Hi. unfold CBL.getitem.
  rewrite (proj2 (in_bounds_true s i)) by lia. cbn [negb].
  rewrite byte_index_nonneg by lia.
  pose proof (wf_byte_in_storage s i Hwf Hi) as Hbyte.
  rewrite (getitem_nth (cb_data s) (i / 8) 0) by lia. cbn [bind].
  rewrite mask_test by (apply Z.mod_pos_bound; lia). reflexivity.
Qed.

Lemma getitem_negative (s : CompactBoolList) (i : Z) :
  - cb_length s <= i < 0 -> CBL.getitem s i = CBL.getitem s (cb_length s + i).
Proof.
  intros Hi. unfold CBL.getitem.
  rewrite (proj2 (in_bounds_true s i)) by lia.
  rewrite (proj2 (in_bounds_true s (cb_length s + i))) by lia.
  now rewrite byte_index_negative.
Qed.

Lemma setitem_negative (s : CompactBoolList) (i v : Z) :
  - cb_length s <= i < 0 -> CBL.setitem s i v = CBL.setitem s (cb_length s + i) v.
Proof.
  intros Hi. unfold CBL.setitem, CBL.set_byte_and_bit_index.
  rewrite (proj2 (in_bounds_true s i)) by lia.
  rewrite (proj2 (in_bounds_true s (cb_length s + i))) by lia.
  now rewrite byte_index_negative.
Qed.

Lemma setitem_in_range (s : CompactBoolList) (i v : Z) :
  CBL.wf s -> 0 <= i < cb_length s ->
  exists d,
    CBL.setitem s i v = Ret (CBL.with_data s d) /\
    length d = length (cb_data s) /\
    forall j, 0 <= j ->
      CBL.bit (CBL.with_data s d) j =
      if j =? i then Py.truthy v else CBL.bit s j.
Proof.
  intros Hwf Hi. unfold CBL.setitem.
  rewrite (proj2 (in_bounds_true s i)) by lia. cbn [negb].
  pose proof (wf_byte_in_storage s i Hwf Hi) as Hbyte.
  destruct (set_byte_spec s i v ltac:(lia) ltac:(lia)) as (d & Hd & Hlen & _ & _ & Hbits).
  exists d. now split.
Qed.

(** Appending a zero byte does not change any bit of the storage. *)
Lemma bit_zero_byte (s : CompactBoolList) (j : Z) :
  CBL.bit (CBL.with_data s (cb_data s ++ [0])) j = CBL.bit s j.
Proof.
  unfold CBL.bit. cbn [cb_data CBL.with_data]. f_equal.
  set (k := Z.to_nat (j / 8)).
  destruct (Nat.lt_ge_cases k (length (cb_data s))) as [Hlt|Hge].
  - now apply app_nth1.
  - rewrite app_nth2 by exact Hge. rewrite (nth_overflow (cb_data s)) by exact Hge.
    destruct (k - length (cb_data s))%nat as [|[|t]]; reflexivity.
Qed.

(** [append] on a well-formed buffer. *)
Lemma append_spec (s : CompactBoolList) (v : Z) :
  CBL.wf s ->
  exists s',
    CBL.append v s = (Ret tt, s') /\
    CBL.wf s' /\
    cb_length s' = cb_length s + 1 /\
    cb_index s' = cb_index s /\
    (forall j, 0 <= j ->
       CBL.bit s' j = if j =? cb_length s then Py.truthy v else CBL.bit s j) /\
    (cb_length s mod 8 = 0 ->
       cb_data s' = cb_data s ++ [Z.b2z (Py.truthy v)]) /\
    (cb_length s mod 8 <> 0 ->
       length (cb_data s') = length (cb_data s)).
Proof.
  intros [Hlen Hsize]. unfold CBL.append.
  pose proof (Z.div_mod (cb_length s) 8 ltac:(lia)) as Hdm.
  pose proof (Z.mod_pos_bound (cb_length s) 8 ltac:(lia)) as Hmod.
  assert (Hq : (cb_length s + 7) / 8 =
               cb_length s / 8 + (if cb_length s mod 8 =? 0 then 0 else 1)).
  { destruct (Z.eqb_spec (cb_length s mod 8) 0) as [H0|H0];
      symmetry; apply Z.div_unique with (r := if cb_length s mod 8 =? 0 then 7
                                               else cb_length s mod 8 - 1);
      destruct (Z.eqb_spec (cb_length s mod 8) 0); lia. }
  assert (Hq1 : (cb_length s + 1 + 7) / 8 = cb_length s / 8 + 1).
  { symmetry. apply Z.div_unique with (r := cb_length s mod 8); lia. }
  set (s1 := if cb_length s mod 8 =? 0
             then CBL.with_data s (cb_data s ++ [0]) else s).
  assert (Hs1 : cb_length s1 = cb_length s /\ cb_index s1 = cb_index s /\
                Z.of_nat (length (cb_data s1)) = cb_length s / 8 + 1 /\
                forall j, CBL.bit s1 j = CBL.bit s j).
  { subst s1. destruct (Z.eqb_spec (cb_length s mod 8) 0) as [H0|H0].
    - cbn [cb_length cb_index cb_data CBL.with_data].
      rewrite length_app. cbn [length]. repeat split; try lia.
      intros j. apply bit_zero_byte.
    - repeat split; lia. }
  destruct Hs1 as (Hl1 & Hi1 & Hd1 & Hb1).
  rewrite Hl1.
  destruct (set_byte_spec s1 (cb_length s) v ltac:(lia) ltac:(lia))
    as (d & -> & Hdlen & Hother & Hbyte & Hbits).
  eexists. split; [reflexivity|]. unfold CBL.wf.
  cbn [cb_length cb_index cb_data CBL.with_length CBL.with_data].
  rewrite Hl1, Hdlen, Hd1, Hq1.
  split; [lia|]. split; [lia|]. split; [exact Hi1|]. split; [|split].
  - intros j Hj. rewrite <- Hb1, <- (Hbits j Hj). reflexivity.
  - intros H0. subst s1. rewrite H0 in *. cbn [Z.eqb] in *.
    cbn [cb_data CBL.with_data] in *.
    rewrite length_app in Hdlen. cbn [length] in Hdlen.
    assert (Hk : Z.to_nat (cb_length s / 8) = length (cb_data s)) by lia.
    rewrite Hk in Hother, Hbyte.
    rewrite nth_middle in Hbyte. rewrite put_bit_zero in Hbyte.
    apply (nth_ext _ _ 0 0); [rewrite length_app; cbn [length]; lia|].
    intros k Hk'. destruct (Nat.eq_dec k (length (cb_data s))) as [->|Hne].
    + now rewrite Hbyte, nth_middle.
    + rewrite Hother by exact Hne. rewrite !app_nth1 by lia. reflexivity.
  - intros H0. subst s1. destruct (Z.eqb_spec (cb_length s mod 8) 0); [contradiction|].
    reflexivity.
Qed.

Lemma bits_append (s s' : CompactBoolList) (v : Z) :
  0 <= cb_length s -> cb_length s' = cb_length s + 1 ->
  (forall j, 0 <= j ->
     CBL.bit s' j = if j =? cb_length s then Py.truthy v else CBL.bit s j) ->
  CBL.bits s' = CBL.bits s ++ [Py.truthy v].
Proof.
  intros Hlen Hlen' Hbits. unfold CBL.bits.
  rewrite Hlen', range_snoc, map_app by exact Hlen. cbn [map]. f_equal.
  - apply map_ext_in. intros j Hj. apply range_In in Hj.
    rewrite Hbits by lia. destruct (Z.eqb_spec j (cb_length s)); [lia|reflexivity].
  - rewrite Hbits by exact Hlen. now rewrite Z.eqb_refl.
Qed.

Lemma extend_spec (items : list Z) :
  forall s,
    CBL.wf s ->
    exists s',
      CBL.extend items s = (Ret tt, s') /\
      CBL.wf s' /\
      cb_length s' = cb_length s + Z.of_nat (length items) /\
      cb_index s' = cb_index s /\
      CBL.bits s' = CBL.bits s ++ map Py.truthy items.
Proof.
  induction items as [|item items IH]; intros s Hwf; cbn [CBL.extend].
  - exists s. rewrite app_nil_r. cbn [length]. repeat split; try apply Hwf; lia.
  - destruct (append_spec s item Hwf) as (s1 & -> & Hwf1 & Hlen1 & Hidx1 & Hbits1 & _).
    destruct (IH s1 Hwf1) as (s' & -> & Hwf' & Hlen' & Hidx' & Hbits').
    exists s'. split; [reflexivity|]. split; [exact Hwf'|].
    split; [cbn [length]; lia|]. split; [congruence|].
    rewrite Hbits', (bits_append s s1 item) by (try apply Hwf; assumption).
    now rewrite <- app_assoc.
Qed.

Lemma wf_empty : CBL.wf CBL.empty.
Proof. split; [cbn; lia|reflexivity]. Qed.

Lemma of_list_spec (items : list Z) :
  CBL.init (Some items) = (Ret tt, CBL.of_list items) /\
  CBL.wf (CBL.of_list items) /\
  cb_length (CBL.of_list items) = Z.of_nat (length items) /\
  cb_index (CBL.of_list items) = 0 /\
  CBL.bits (CBL.of_list items) = map Py.truthy items.
Proof.
  unfold CBL.of_list, CBL.init.
  destruct (extend_spec items CBL.empty wf_empty) as (s' & -> & Hwf & Hlen & Hidx & Hbits).
  cbn [snd]. repeat split; try apply Hwf; assumption.
Qed.

Lemma reachable_wf (s : CompactBoolList) : CBL.reachable s -> CBL.wf s.
Proof.
  induction 1 as [[items|]|s v _ IH].
  - apply of_list_spec.
  - exact wf_empty.
  - destruct (append_spec s v IH) as (s' & -> & Hwf & _). exact Hwf.
Qed.

Lemma bits_nth (s : CompactBoolList) (i : Z) :
  0 <= i < cb_length s -> nth (Z.to_nat i) (CBL.bits s) false = CBL.bit s i.
Proof.
  intros Hi. unfold CBL.bits, Py.range.
  rewrite map_map.
  rewrite (nth_indep _ false (CBL.bit s (0 + Z.of_nat 0)))
    by (rewrite length_map, length_seq; lia).
  rewrite (map_nth (fun k => CBL.bit s (0 + Z.of_nat k))).
  rewrite seq_nth by lia. f_equal. lia.
Qed.

(** A traversal started with the cursor at [_index] yields the bits from
    there on and leaves the cursor at 0. *)
Lemma drain_spec (fuel : nat) :
  forall s,
    CBL.wf s -> 0 <= cb_index s ->
    Z.of_nat fuel = cb_length s - cb_index s ->
    CBL.drain fuel s =
    (Ret (map (CBL.bit s) (Py.range (cb_index s) (cb_length s))),
     CBL.with_index s 0).
Proof.
  induction fuel as [|fuel IH]; intros s Hwf Hidx Hfuel.
  - cbn [CBL.drain]. unfold CBL.next.
    destruct (Z.ltb_spec (cb_index s) (cb_length s)); [lia|].
    now rewrite range_empty by lia.
  - cbn [CBL.drain]. unfold CBL.next.
    destruct (Z.ltb_spec (cb_index s) (cb_length s)); [|lia].
    rewrite getitem_in_range by (try exact Hwf; lia).
    rewrite (IH (CBL.with_index s (cb_index s + 1)));
      [| exact Hwf | cbn [cb_index CBL.with_index]; lia
       | cbn [cb_index cb_length CBL.with_index]; lia].
    cbn [cb_index cb_length CBL.with_index].
    now rewrite (range_cons (cb_index s)) by lia.
Qed.

Lemma to_list_from_start (s : CompactBoolList) :
  CBL.wf s -> cb_index s = 0 ->
  CBL.to_list s = (Ret (CBL.bits s), s).
Proof.
  intros Hwf Hidx. unfold CBL.to_list, CBL.list_of_iter, CBL.iter.
  rewrite drain_spec; [| exact Hwf | lia | destruct Hwf; lia].
  unfold CBL.bits. rewrite Hidx. f_equal.
  destruct s as [d l i]. cbn in Hidx. subst i. reflexivity.
Qed.

Lemma b2z_truthy (items : list Z) :
  Forall (fun b => b = 0 \/ b = 1) items ->
  map Z.b2z (map Py.truthy items) = items.
Proof.
  induction 1 as [|b items [->| ->] _ IH]; cbn [map]; [reflexivity| |];
    now rewrite IH.
Qed.

Lemma b2z_truthy_nth (items : list Z) (k : nat) :
  Forall (fun b => b = 0 \/ b = 1) items ->
  Z.b2z (nth k (map Py.truthy items) false) = nth k items 0.
Proof.
  intros Hbits. change false with (Py.truthy 0). rewrite map_nth.
  destruct (Nat.lt_ge_cases k (length items)) as [Hlt|Hge].
  - destruct (proj1 (Forall_forall _ _) Hbits _ (nth_In items 0 Hlt)) as [-> | ->];
      reflexivity.
  - now rewrite nth_overflow by exact Hge.
Qed.

(** ** The claims on [CompactBoolList] *)

(** C4: a buffer built from a list of bits gives back, at every index
    [0 <= i < length], the [i]-th element of the list, and [to_list] gives
    back the list (Python compares [True] with 1 and [False] with 0 as
    equal, hence [Z.b2z]). *)
Theorem construct_roundtrip (items : list Z) :
  Forall (fun b => b = 0 \/ b = 1) items ->
  CBL.init (Some items) = (Ret tt, CBL.of_list items) /\
  (forall i, 0 <= i < Z.of_nat (length items) ->
     exists b, CBL.getitem (CBL.of_list items) i = Ret b /\
               Z.b2z b = nth (Z.to_nat i) items 0) /\
  exists l, fst (CBL.to_list (CBL.of_list items)) = Ret l /\
            map Z.b2z l = items.
Proof.
  intros Hbits.
  destruct (of_list_spec items) as (Hinit & Hwf & Hlen & Hidx & Hcontents).
  split; [exact Hinit|]. split.
  - intros i Hi. exists (CBL.bit (CBL.of_list items) i).
    split; [apply getitem_in_range; [exact Hwf|lia]|].
    rewrite <- bits_nth by lia. rewrite Hcontents.
    now apply b2z_truthy_nth.
  - exists (CBL.bits (CBL.of_list items)).
    rewrite to_list_from_start by assumption. split; [reflexivity|].
    rewrite Hcontents. now apply b2z_truthy.
Qed.

Lemma construct_roundtrip_witness :
  CBL.init (Some [1; 0; 1; 1; 0; 0; 0; 1; 1])
  = (Ret tt, CBL.of_list [1; 0; 1; 1; 0; 0; 0; 1; 1]) /\
  (forall i, 0 <= i < Z.of_nat (length [1; 0; 1; 1; 0; 0; 0; 1; 1]) ->
     exists b, CBL.getitem (CBL.of_list [1; 0; 1; 1; 0; 0; 0; 1; 1]) i = Ret b /\
               Z.b2z b = nth (Z.to_nat i) [1; 0; 1; 1; 0; 0; 0; 1; 1] 0) /\
  exists l, fst (CBL.to_list (CBL.of_list [1; 0; 1; 1; 0; 0; 0; 1; 1])) = Ret l /\
            map Z.b2z l = [1; 0; 1; 1; 0; 0; 0; 1; 1].
Proof.
  apply (construct_roundtrip [1; 0; 1; 1; 0; 0; 0; 1; 1]).
  repeat constructor; lia.
Defined.

(** C8: on every buffer made by the constructor and then grown by
    [append], the storage has [ceil(length / 8)] bytes; [append] succeeds
    on it, adds one byte, zero but for the new bit, exactly when
    [length mod 8 = 0], and otherwise keeps the number of bytes. *)
Theorem storage_invariant (s : CompactBoolList) :
  CBL.reachable s ->
  Z.of_nat (length (cb_data s)) = (cb_length s + 7) / 8 /\
  8 * ((cb_length s + 7) / 8 - 1) < cb_length s <= 8 * ((cb_length s + 7) / 8) /\
  forall v, exists s',
    CBL.append v s = (Ret tt, s') /\
    cb_length s' = cb_length s + 1 /\
    (cb_length s mod 8 = 0 ->
       cb_data s' = cb_data s ++ [Z.b2z (Py.truthy v)]) /\
    (cb_length s mod 8 <> 0 ->
       length (cb_data s') = length (cb_data s)).
Proof.
  intros Hreach. pose proof (reachable_wf s Hreach) as Hwf.
  split; [apply Hwf|]. split.
  - pose proof (Z.div_mod (cb_length s + 7) 8 ltac:(lia)) as Hdm.
    pose proof (Z.mod_pos_bound (cb_length s + 7) 8 ltac:(lia)) as Hmod. lia.
  - intros v.
    destruct (append_spec s v Hwf) as (s' & Happ & _ & Hlen & _ & _ & Hgrow & Hkeep).
    exists s'. repeat split; assumption.
Qed.

Lemma storage_invariant_witness :
  let s := snd (CBL.append 1 (snd (CBL.init (Some [1; 0; 1; 1; 0; 0; 1])))) in
  Z.of_nat (length (cb_data s)) = (cb_length s + 7) / 8 /\
  8 * ((cb_length s + 7) / 8 - 1) < cb_length s <= 8 * ((cb_length s + 7) / 8) /\
  forall v, exists s',
    CBL.append v s = (Ret tt, s') /\
    cb_length s' = cb_length s + 1 /\
    (cb_length s mod 8 = 0 ->
       cb_data s' = cb_data s ++ [Z.b2z (Py.truthy v)]) /\
    (cb_length s mod 8 <> 0 ->
       length (cb_data s') = length (cb_data s)).
Proof.
  apply (storage_invariant
           (snd (CBL.append 1 (snd (CBL.init (Some [1; 0; 1; 1; 0; 0; 1])))))).
  apply CBL.reach_append, CBL.reach_init.
Defined.

(** C9: on a buffer of length [L] whose storage obeys the invariant,
    [get] and [set] at [i] raise [IndexError] exactly when [i] is outside
    [[-L, L)]; an index [-L <= i < 0] behaves as [L + i]; and a [set] in
    range writes the bit at the resolved position and changes no other
    bit, nor the length, the cursor or the size of the storage. *)
Theorem index_bounds (s : CompactBoolList) (i : Z) :
  CBL.wf s ->
  (CBL.getitem s i = Raise IndexError <-> ~ (- cb_length s <= i < cb_length s)) /\
  (forall b, CBL.setitem s i b = Raise IndexError <->
             ~ (- cb_length s <= i < cb_length s)) /\
  (- cb_length s <= i < 0 ->
     CBL.getitem s i = CBL.getitem s (cb_length s + i) /\
     forall b, CBL.setitem s i b = CBL.setitem s (cb_length s + i) b) /\
  (- cb_length s <= i < cb_length s ->
     forall b, exists s',
       let p := if i <? 0 then cb_length s + i else i in
       CBL.setitem s i b = Ret s' /\
       cb_length s' = cb_length s /\ cb_index s' = cb_index s /\
       length (cb_data s') = length (cb_data s) /\
       CBL.getitem s' p = Ret (Py.truthy b) /\
       forall j, 0 <= j -> j <> p -> CBL.bit s' j = CBL.bit s j).
Proof.
  intros Hwf.
  assert (Hget : forall p, 0 <= p < cb_length s ->
                           CBL.getitem s p <> Raise IndexError).
  { intros p Hp. now rewrite getitem_in_range by assumption. }
  assert (Hset : forall p b, 0 <= p < cb_length s ->
    exists s', CBL.setitem s p b = Ret s' /\
       cb_length s' = cb_length s /\ cb_index s' = cb_index s /\
       length (cb_data s') = length (cb_data s) /\
       CBL.getitem s' p = Ret (Py.truthy b) /\
       forall j, 0 <= j -> j <> p -> CBL.bit s' j = CBL.bit s j).
  { intros p b Hp.
    destruct (setitem_in_range s p b Hwf Hp) as (d & Hd & Hlen & Hbits).
    exists (CBL.with_data s d). split; [exact Hd|].
    split; [reflexivity|]. split; [reflexivity|]. split; [exact Hlen|]. split.
    - rewrite getitem_in_range; [|split; [apply Hwf|cbn [cb_data cb_length CBL.with_data];
        rewrite Hlen; apply Hwf] | exact Hp].
      rewrite Hbits by lia. now rewrite Z.eqb_refl.
    - intros j Hj Hne. rewrite Hbits by exact Hj.
      destruct (Z.eqb_spec j p); [contradiction|reflexivity]. }
  assert (Hout : ~ (- cb_length s <= i < cb_length s) ->
                 CBL.getitem s i = Raise IndexError /\
                 forall b, CBL.setitem s i b = Raise IndexError).
  { intros Hi. apply in_bounds_false in Hi.
    unfold CBL.getitem, CBL.setitem. now rewrite Hi. }
  split; [|split; [|split]].
  - split; [|apply Hout]. intros Hraise Hi.
    destruct (Z.lt_ge_cases i 0) as [Hneg|Hpos].
    + rewrite getitem_negative in Hraise by lia. apply (Hget (cb_length s + i)); [lia|exact Hraise].
    + apply (Hget i); [lia|exact Hraise].
  - intros b. split; [|intros Hi; now apply Hout]. intros Hraise Hi.
    destruct (Z.lt_ge_cases i 0) as [Hneg|Hpos].
    + rewrite setitem_negative in Hraise by lia.
      destruct (Hset (cb_length s + i) b ltac:(lia)) as (s' & Hs' & _). congruence.
    + destruct (Hset i b ltac:(lia)) as (s' & Hs' & _). congruence.
  - intros Hi. split; [now apply getitem_negative|].
    intros b. now apply setitem_negative.
  - intros Hi b. destruct (Z.ltb_spec i 0) as [Hneg|Hpos].
    + destruct (Hset (cb_length s + i) b ltac:(lia)) as (s' & Hs').
      exists s'. cbn zeta. now rewrite setitem_negative by lia.
    + destruct (Hset i b ltac:(lia)) as (s' & Hs'). now exists s'.
Qed.

Lemma index_bounds_witness :
  let s := CBL.of_list [1; 0; 1] in
  (CBL.getitem s (-1) = Raise IndexError <-> ~ (- cb_length s <= -1 < cb_length s)) /\
  (forall b, CBL.setitem s (-1) b = Raise IndexError <->
             ~ (- cb_length s <= -1 < cb_length s)) /\
  (- cb_length s <= -1 < 0 ->
     CBL.getitem s (-1) = CBL.getitem s (cb_length s + -1) /\
     forall b, CBL.setitem s (-1) b = CBL.setitem s (cb_length s + -1) b) /\
  (- cb_length s <= -1 < cb_length s ->
     forall b, exists s',
       let p := if -1 <? 0 then cb_length s + -1 else -1 in
       CBL.setitem s (-1) b = Ret s' /\
       cb_length s' = cb_length s /\ cb_index s' = cb_index s /\
       length (cb_data s') = length (cb_data s) /\
       CBL.getitem s' p = Ret (Py.truthy b) /\
       forall j, 0 <= j -> j <> p -> CBL.bit s' j = CBL.bit s j).
Proof.
  apply (index_bounds (CBL.of_list [1; 0; 1]) (-1)).
  split; [vm_compute; discriminate|reflexivity].
Defined.

(** C2, where the code leaves it: [__iter__] returns the buffer itself
    and the cursor lives in the buffer.  On [CompactBoolList([1, 0])], a
    traversal abandoned after one element makes the next one ([to_list])
    start at index 1 and yield [[False]]; and of two traversals taking
    turns, the first gets element 0, the second gets element 1 as its
    first, and the first is then told the sequence is over. *)
Theorem traversals_share_cursor :
  let b := CBL.of_list [1; 0] in
  fst (CBL.to_list b) = Ret [true; false] /\
  (let abandoned := CBL.next (CBL.iter b) in
   fst abandoned = Ret true /\
   fst (CBL.to_list (snd abandoned)) = Ret [false]) /\
  (let it1 := CBL.iter b in
   let step1 := CBL.next it1 in
   let it2 := CBL.iter (snd step1) in
   let step2 := CBL.next it2 in
   let step3 := CBL.next (snd step2) in
   fst step1 = Ret true /\ fst step2 = Ret false /\
   fst step3 = Raise StopIteration).
Proof.
  cbv zeta. repeat split; reflexivity.
Qed.

(** ** [von_neumann] *)

Lemma list_pair_ind {A : Type} (P : list A -> Prop) :
  P [] -> (forall x, P [x]) -> (forall x y l, P l -> P (x :: y :: l)) ->
  forall l, P l.
Proof.
  intros Hnil Hone Hstep.
  fix IH 1. intros [|x [|y l]]; [exact Hnil|apply Hone|apply Hstep, IH].
Qed.

Lemma every_other_cons {A : Type} (y : A) (rest : list A) :
  every_other (y :: rest) = y :: every_other (skipn 1 rest).
Proof. destruct rest; reflexivity. Qed.

Lemma von_neumann_step (x y : Z) (rest : list Z) :
  von_neumann (x :: y :: rest) =
  (if x =? y then [] else [x]) ++ von_neumann rest.
Proof.
  unfold von_neumann, slice_step2.
  change (skipn 0 (x :: y :: rest)) with (x :: y :: rest).
  change (skipn 1 (x :: y :: rest)) with (y :: rest).
  change (every_other (x :: y :: rest)) with (x :: every_other rest).
  rewrite (every_other_cons y rest). cbn [combine filter fst snd].
  destruct (x =? y); reflexivity.
Qed.

Lemma pairs_of_step (x y : Z) (rest : list Z) :
  pairs_of (x :: y :: rest) = (x, y) :: pairs_of rest.
Proof.
  unfold pairs_of. cbn [length].
  replace (S (S (length rest)) / 2)%nat with (S (length rest / 2)).
  - cbn [seq map]. f_equal. rewrite <- seq_shift, map_map.
    apply map_ext. intros i. unfold pair_at.
    replace (2 * S i)%nat with (S (S (2 * i))) by lia.
    replace (S (S (2 * i)) + 1)%nat with (S (S (2 * i + 1))) by lia.
    reflexivity.
  - change (S (S (length rest))) with (1 * 2 + length rest)%nat.
    rewrite Nat.div_add_l by lia. lia.
Qed.

(** C6: [von_neumann] goes through the consecutive pairs
    [(bits[2i], bits[2i+1])], [i < floor(length / 2)], leaving out an
    unpaired last bit, and gives the first bit of each pair whose bits
    differ and nothing for the others; the three examples of the
    specification; at most [floor(length / 2)] bits come out. *)
Theorem von_neumann_pairs :
  (forall bits, von_neumann bits = von_neumann_by_pairs bits) /\
  von_neumann [0; 1; 1; 0; 1; 1; 0; 0] = [0; 1] /\
  von_neumann [] = [] /\
  von_neumann [1] = [] /\
  (forall bits, (length (von_neumann bits) <= length bits / 2)%nat).
Proof.
  split; [|split; [reflexivity|split; [reflexivity|split; [reflexivity|]]]].
  - intros bits. induction bits as [|x|x y rest IH] using list_pair_ind;
      [reflexivity|reflexivity|].
    rewrite von_neumann_step, IH. unfold von_neumann_by_pairs.
    rewrite pairs_of_step. cbn [flat_map fst snd]. reflexivity.
  - intros bits. induction bits as [|x|x y rest IH] using list_pair_ind;
      [cbn; lia|cbn; lia|].
    rewrite von_neumann_step, length_app. cbn [length].
    change (S (S (length rest))) with (1 * 2 + length rest)%nat.
    rewrite Nat.div_add_l by lia.
    destruct (x =? y); cbn [length]; lia.
Qed.

(** ** [Trevisan.extract] *)

Lemma removelast_ret {A : Type} (x : result A) (l : list (result A)) :
  is_ret x -> Forall is_ret (removelast l) -> Forall is_ret (removelast (x :: l)).
Proof.
  intros Hx Hl. destruct l as [|y l]; [constructor|].
  change (removelast (x :: y :: l)) with (x :: removelast (y :: l)).
  now constructor.
Qed.

Lemma bit_outcomes_ret (idx answers : list Z) :
  bit_outcomes idx (map Ret answers) = bit_calls idx answers.
Proof.
  unfold bit_outcomes, bit_calls. revert answers.
  induction idx as [|i idx IH]; intros [|b answers]; cbn [map combine];
    try reflexivity.
  f_equal. apply IH.
Qed.

Lemma last_ret (answers : list Z) :
  is_ret (last (map Ret answers) (Ret 0)).
Proof.
  induction answers as [|b answers IH]; [exact I|].
  destruct answers as [|c answers]; [exact I|exact IH].
Qed.

Lemma map_ret_inj (a b : list Z) : map Ret a = map Ret b -> a = b.
Proof.
  revert b. induction a as [|x a IH]; intros [|y b] Hab; cbn [map] in Hab;
    try discriminate; [reflexivity|].
  injection Hab as -> Hab. f_equal. now apply IH.
Qed.

Section OrchestratorProperties.

Context {E : Type} `{ExtractionEngine E}.

(** The loop of [extract] against the engine asked by itself: the calls
    recorded are the questions put to the engine with its own answers, the
    engine is left in the state the questions leave it in, and the loop
    returns when the engine has answered every index, with the answers
    appended as bits; otherwise its outcome is the first failure. *)
Lemma extract_loop_ask (n : nat) :
  forall a bits (t : Trevisan E),
    CBL.wf bits ->
    let idx := Py.range a (a + Z.of_nat n) in
    let results := fst (ask idx (ext t)) in
    let run := extract_loop idx bits t in
    calls (snd run)
    = calls t ++ bit_outcomes (Py.range a (a + Z.of_nat (length results))) results /\
    ext (snd run) = snd (ask idx (ext t)) /\
    config_m (snd run) = config_m t /\
    (length results <= n)%nat /\
    Forall is_ret (removelast results) /\
    match fst run with
    | Ret out =>
        exists answers,
          results = map Ret answers /\ length answers = n /\
          CBL.wf out /\
          cb_length out = cb_length bits + Z.of_nat n /\
          cb_index out = cb_index bits /\
          CBL.bits out = CBL.bits bits ++ map Py.truthy answers
    | Raise e => last results (Ret 0) = Raise e
    | Unfinished => last results (Ret 0) = Unfinished
    end.
Proof.
  induction n as [|n IH]; intros a bits t Hwf; cbv zeta.
  - rewrite range_empty by lia. cbn [ask extract_loop fst snd length].
    unfold bit_outcomes. rewrite range_empty by lia. cbn [combine map removelast].
    rewrite app_nil_r. split; [reflexivity|]. split; [reflexivity|].
    split; [reflexivity|]. split; [lia|]. split; [constructor|].
    exists []. cbn [map length]. rewrite app_nil_r.
    repeat split; try apply Hwf; lia.
  - rewrite range_cons by lia. cbn [ask extract_loop]. unfold call_extract_bit.
    destruct (extract_bit a (ext t)) as [[bit|e|] eng].
    + destruct (append_spec bits bit Hwf)
        as (bits1 & -> & Hwf1 & Hlen1 & Hidx1 & Hbits1 & _).
      replace (a + Z.of_nat (S n)) with (a + 1 + Z.of_nat n) by lia.
      set (t1 := mkTrevisan (config_m t) eng (calls t ++ [CallExtractBit a (Ret bit)])).
      specialize (IH (a + 1) bits1 t1 Hwf1). cbv zeta in IH.
      change (ext t1) with eng in IH.
      destruct (ask (Py.range (a + 1) (a + 1 + Z.of_nat n)) eng) as [results e'].
      cbn [fst snd] in *.
      destruct IH as (Hcalls & Hext & Hm & Hlen & Hpre & Hres).
      split; [|split; [exact Hext|split; [exact Hm|split; [cbn [length]; lia|split]]]].
      * rewrite Hcalls. subst t1. cbn [calls length]. rewrite <- app_assoc.
        f_equal. unfold bit_outcomes.
        replace (a + Z.of_nat (S (length results)))
          with (a + 1 + Z.of_nat (length results)) by lia.
        rewrite (range_cons a (a + 1 + Z.of_nat (length results))) by lia.
        reflexivity.
      * apply removelast_ret; [exact I|exact Hpre].
      * destruct (fst (extract_loop (Py.range (a + 1) (a + 1 + Z.of_nat n)) bits1 t1))
          as [out|e|].
        -- destruct Hres as (answers & -> & Hl & Hwf' & Hlen' & Hidx' & Hbits').
           exists (bit :: answers). split; [reflexivity|].
           split; [cbn [length]; lia|]. split; [exact Hwf'|]. split; [lia|].
           split; [congruence|].
           rewrite Hbits', (bits_append bits bits1 bit) by (try apply Hwf; assumption).
           rewrite <- app_assoc. reflexivity.
        -- destruct results as [|r results]; [discriminate Hres|exact Hres].
        -- destruct results as [|r results]; [discriminate Hres|exact Hres].
    + cbn [fst snd calls ext config_m length removelast last].
      unfold bit_outcomes. rewrite (range_cons a (a + Z.of_nat 1)) by lia.
      rewrite range_empty by lia. cbn [combine map fst snd].
      split; [reflexivity|]. split; [reflexivity|]. split; [reflexivity|].
      split; [lia|]. split; [constructor|reflexivity].
    + cbn [fst snd calls ext config_m length removelast last].
      unfold bit_outcomes. rewrite (range_cons a (a + Z.of_nat 1)) by lia.
      rewrite range_empty by lia. cbn [combine map fst snd].
      split; [reflexivity|]. split; [reflexivity|]. split; [reflexivity|].
      split; [lia|]. split; [constructor|reflexivity].
Qed.

End OrchestratorProperties.

(** C7: let [load_source] succeed on the two inputs and leave the engine
    in the state [e1], and let the engine, asked [extract_bit] with the
    indices [0, 1, ..., m - 1] one after the other from [e1], give the
    answers [answers] and end in the state [e'] ([m = config.m >= 0]).
    Then [extract] returns; it has called [load_source] and then
    [extract_bit] with exactly these indices, in this order and once each,
    getting these answers and leaving the engine in [e']; and what it
    returns is a buffer of length [m], built from an empty one, whose bit
    [i] is the answer of the engine for the index [i]. *)
Theorem extract_calls_in_order {E : Type} `{ExtractionEngine E}
  (t : Trevisan E) (input1 input2 : CompactBoolList)
  (e1 e' : E) (answers : list Z) :
  0 <= config_m t ->
  load_source input1 input2 (ext t) = (Ret tt, e1) ->
  ask (Py.range 0 (config_m t)) e1 = (map Ret answers, e') ->
  exists out t',
    extract input1 input2 t = (Ret out, t') /\
    Z.of_nat (length answers) = config_m t /\
    calls t' = calls t ++ CallLoadSource input1 input2
                 :: bit_calls (Py.range 0 (config_m t)) answers /\
    ext t' = e' /\
    config_m t' = config_m t /\
    cb_length out = config_m t /\
    cb_index out = 0 /\
    CBL.bits out = map Py.truthy answers /\
    forall i, 0 <= i < config_m t ->
      CBL.getitem out i = Ret (Py.truthy (nth (Z.to_nat i) answers 0)).
Proof.
  intros Hm Hload Hask. unfold extract, call_load_source. rewrite Hload.
  cbn [config_m CBL.init snd].
  set (t1 := mkTrevisan (config_m t) e1 (calls t ++ [CallLoadSource input1 input2])).
  pose proof (extract_loop_ask (Z.to_nat (config_m t)) 0 CBL.empty t1 wf_empty)
    as Hloop. cbv zeta in Hloop.
  replace (0 + Z.of_nat (Z.to_nat (config_m t))) with (config_m t) in Hloop by lia.
  change (ext t1) with e1 in Hloop. rewrite Hask in Hloop. cbn [fst snd] in Hloop.
  destruct Hloop as (Hcalls & Hext & Hcm & _ & _ & Hres).
  destruct (extract_loop (Py.range 0 (config_m t)) CBL.empty t1) as [[out|e|] t'].
  - cbn [fst snd] in *.
    destruct Hres as (answers' & Heq & Hlen & Hwf & Hlen' & Hidx & Hbits).
    apply map_ret_inj in Heq. subst answers'.
    exists out, t'. split; [reflexivity|]. split; [lia|]. split.
    { rewrite Hcalls. subst t1. cbn [calls]. rewrite <- app_assoc. cbn [app].
      rewrite length_map. replace (0 + Z.of_nat (length answers)) with (config_m t) by lia.
      now rewrite bit_outcomes_ret. }
    split; [exact Hext|]. split; [exact Hcm|].
    cbn [cb_length cb_index CBL.empty] in Hlen', Hidx. split; [lia|].
    split; [exact Hidx|].
    change (CBL.bits CBL.empty) with (@nil bool) in Hbits. cbn [app] in Hbits.
    split; [exact Hbits|].
    intros i Hi. rewrite getitem_in_range by (try exact Hwf; lia).
    rewrite <- bits_nth by lia. rewrite Hbits.
    change false with (Py.truthy 0). now rewrite map_nth.
  - cbn [fst] in Hres. pose proof (last_ret answers) as Hlast.
    rewrite Hres in Hlast. destruct Hlast.
  - cbn [fst] in Hres. pose proof (last_ret answers) as Hlast.
    rewrite Hres in Hlast. destruct Hlast.
Qed.

Lemma extract_calls_in_order_witness :
  let t := mkTrevisan 4 0%nat [] in
  let answers := [0; 1; 0; 1] in
  exists out t',
    extract CBL.empty CBL.empty t = (Ret out, t') /\
    Z.of_nat (length answers) = config_m t /\
    calls t' = calls t ++ CallLoadSource CBL.empty CBL.empty
                 :: bit_calls (Py.range 0 (config_m t)) answers /\
    ext t' = 5%nat /\
    config_m t' = config_m t /\
    cb_length out = config_m t /\
    cb_index out = 0 /\
    CBL.bits out = map Py.truthy answers /\
    forall i, 0 <= i < config_m t ->
      CBL.getitem out i = Ret (Py.truthy (nth (Z.to_nat i) answers 0)).
Proof.
  apply (extract_calls_in_order (mkTrevisan 4 0%nat []) CBL.empty CBL.empty
           1%nat 5%nat [0; 1; 0; 1]).
  - cbn. lia.
  - reflexivity.
  - reflexivity.
Defined.

(** * Further properties of the code *)

(** ** Primality and the prime searches *)

(** X1: from 2 to [2^50], [is_prime] returns [True] on the primes and
    [False] on the other numbers. *)
Theorem is_prime_decides (n : Z) :
  2 <= n < 2 ^ 50 ->
  (Z.prime n -> is_prime n = Ret true) /\
  (~ Z.prime n -> is_prime n = Ret false).
Proof.
  intros Hn. destruct (is_prime_correct n Hn) as ([|] & Hb & Hiff).
  - split; [intros _; exact Hb|]. intros Hnot. exfalso. apply Hnot. now apply Hiff.
  - split; [|intros _; exact Hb]. intros Hp. apply Hiff in Hp. discriminate Hp.
Qed.

Lemma is_prime_decides_witness :
  (Z.prime 97 -> is_prime 97 = Ret true) /\
  (~ Z.prime 97 -> is_prime 97 = Ret false).
Proof. exact (is_prime_decides 97 ltac:(lia)). Defined.

(** X2: from 3 to [2^50], [previous_prime(k)] returns, with any iteration
    budget that is large enough, the largest prime that is at most [k]. *)
Theorem previous_prime_largest (k : Z) :
  3 <= k < 2 ^ 50 ->
  exists p,
    Z.prime p /\ p <= k /\
    (forall q, Z.prime q -> q <= k -> q <= p) /\
    exists fuel0, forall fuel, (fuel0 <= fuel)%nat -> previous_prime fuel k = Ret p.
Proof.
  intros Hk. destruct (previous_prime_correct k Hk) as (fuel0 & p & Hrun & Hp & Hle & Hmax).
  exists p. split; [exact Hp|]. split; [exact Hle|]. split; [exact Hmax|].
  exists fuel0. intros fuel Hfuel. now apply (previous_prime_more fuel0).
Qed.

Lemma previous_prime_largest_witness :
  exists p,
    Z.prime p /\ p <= 100 /\
    (forall q, Z.prime q -> q <= 100 -> q <= p) /\
    exists fuel0, forall fuel, (fuel0 <= fuel)%nat -> previous_prime fuel 100 = Ret p.
Proof. exact (previous_prime_largest 100 ltac:(lia)). Defined.

(** X3: from 3 on, when there is a prime [p0] from [k] to [2^50],
    [next_prime(k)] returns, with any iteration budget that is large
    enough, the smallest prime that is at least [k]. *)
Theorem next_prime_smallest (k p0 : Z) :
  3 <= k -> Z.prime p0 -> k <= p0 < 2 ^ 50 ->
  exists p,
    Z.prime p /\ k <= p /\
    (forall q, Z.prime q -> k <= q -> p <= q) /\
    exists fuel0, forall fuel, (fuel0 <= fuel)%nat -> next_prime fuel k = Ret p.
Proof.
  intros Hk Hp0 Hkp0.
  destruct (next_prime_correct k p0 Hk Hp0 Hkp0)
    as (fuel0 & p & Hrun & Hp & Hle & Hmin).
  exists p. split; [exact Hp|]. split; [exact Hle|]. split; [exact Hmin|].
  exists fuel0. intros fuel Hfuel. now apply (next_prime_more fuel0).
Qed.

Lemma next_prime_smallest_witness :
  exists p,
    Z.prime p /\ 100 <= p /\
    (forall q, Z.prime q -> 100 <= q -> p <= q) /\
    exists fuel0, forall fuel, (fuel0 <= fuel)%nat -> next_prime fuel 100 = Ret p.
Proof.
  apply (next_prime_smallest 100 101); [lia| |lia].
  apply is_prime_true; [lia|reflexivity].
Defined.

(** X4: from 3 on, when there is a prime [p0] from [k] to [2^50],
    [closest_prime(k)] returns a prime than which no prime is nearer to
    [k]. *)
Theorem closest_prime_nearest (k p0 : Z) :
  3 <= k -> Z.prime p0 -> k <= p0 < 2 ^ 50 ->
  exists c,
    Z.prime c /\
    (forall q, Z.prime q -> Z.abs (c - k) <= Z.abs (q - k)) /\
    exists fuel0, forall fuel, (fuel0 <= fuel)%nat -> closest_prime fuel k = Ret c.
Proof.
  intros Hk Hp0 Hkp0.
  destruct (previous_prime_correct k ltac:(lia))
    as (f1 & p & Hprev & Hp & Hpk & Hmax).
  destruct (next_prime_correct k p0 Hk Hp0 Hkp0)
    as (f2 & n & Hnext & Hn & Hnk & Hmin).
  exists (if n - k >=? k - p then p else n). split; [|split].
  - destruct (n - k >=? k - p); assumption.
  - intros q Hq. destruct (Z.le_gt_cases q k) as [Hqk|Hqk].
    + specialize (Hmax q Hq Hqk).
      unfold Z.geb. destruct (Z.compare_spec (n - k) (k - p)); lia.
    + specialize (Hmin q Hq ltac:(lia)).
      unfold Z.geb. destruct (Z.compare_spec (n - k) (k - p)); lia.
  - exists (Nat.max f1 f2). intros fuel Hfuel. unfold closest_prime.
    rewrite (next_prime_more f2 fuel k n) by (try exact Hnext; lia).
    rewrite (previous_prime_more f1 fuel k p) by (try exact Hprev; lia).
    reflexivity.
Qed.

Lemma closest_prime_nearest_witness :
  exists c,
    Z.prime c /\
    (forall q, Z.prime q -> Z.abs (c - 100) <= Z.abs (q - 100)) /\
    exists fuel0, forall fuel, (fuel0 <= fuel)%nat -> closest_prime fuel 100 = Ret c.
Proof.
  apply (closest_prime_nearest 100 101); [lia| |lia].
  apply is_prime_true; [lia|reflexivity].
Defined.

Lemma first_candidate_negative (fuel : nat) (step k0 : Z) :
  - 2 ^ 1023 < k0 + 1 < 0 -> skip_composites (S fuel) step k0 = Raise ValueError.
Proof.
  intros Hneg. cbn [skip_composites]. now rewrite is_prime_negative by exact Hneg.
Qed.

Lemma first_candidate_overflow (fuel : nat) (step k0 : Z) :
  2 ^ 1024 <= Z.abs (k0 + 1) ->
  skip_composites (S fuel) step k0 = Raise OverflowError.
Proof.
  intros Hbig. cbn [skip_composites]. now rewrite is_prime_overflow by exact Hbig.
Qed.

Lemma start_candidate_odd (adjust k : Z) :
  adjust = 1 \/ adjust = -1 -> (start_even adjust k + 1) mod 2 = 1.
Proof.
  intros Hadj. apply succ_even_odd.
  destruct Hadj as [-> | ->]; [apply start_even_next|apply start_even_previous].
Qed.

(** X5: below 2 the prime searches do not look for a prime, and beyond
    the doubles they cannot.  [previous_prime] raises [ValueError] (from
    [sqrt]) on [k <= 0] and answers 1 on 1; [next_prime] raises
    [ValueError] on [k < 0] and answers 1 on 0 and on 1; this as long as
    [k] is above [-2^1023]: from [2^1024] on in absolute value, the
    conversion to a double comes first and both raise [OverflowError]. *)
Theorem prime_search_below_2 (fuel : nat) :
  (forall k, - 2 ^ 1023 + 1 < k <= 0 ->
             previous_prime (S fuel) k = Raise ValueError) /\
  (forall k, - 2 ^ 1023 < k < 0 -> next_prime (S fuel) k = Raise ValueError) /\
  previous_prime (S fuel) 1 = Ret 1 /\
  next_prime (S fuel) 0 = Ret 1 /\
  next_prime (S fuel) 1 = Ret 1 /\
  (forall k, 2 ^ 1024 < Z.abs k ->
             previous_prime (S fuel) k = Raise OverflowError /\
             next_prime (S fuel) k = Raise OverflowError).
Proof.
  assert (Hpow : 0 < 2 ^ 1023 < 2 ^ 1024).
  { split; [apply Z.pow_pos_nonneg; lia|apply Z.pow_lt_mono_r; lia]. }
  split; [|split; [|split; [|split; [|split]]]]; try reflexivity.
  - intros k Hk. unfold previous_prime.
    destruct (start_even_previous k) as [_ Hrange].
    pose proof (start_candidate_odd (-1) k ltac:(now right)) as Hodd.
    rewrite first_candidate_negative; [reflexivity|].
    destruct (Z.eq_dec (start_even (-1) k + 1) 0) as [H0|]; [|lia].
    rewrite H0 in Hodd. discriminate Hodd.
  - intros k Hk. unfold next_prime.
    destruct (start_even_next k) as [_ Hrange].
    pose proof (start_candidate_odd 1 k ltac:(now left)) as Hodd.
    rewrite first_candidate_negative; [reflexivity|].
    destruct (Z.eq_dec (start_even 1 k + 1) 0) as [H0|]; [|lia].
    rewrite H0 in Hodd. discriminate Hodd.
  - intros k Hk. unfold previous_prime, next_prime.
    destruct (start_even_previous k) as [_ Hprev].
    destruct (start_even_next k) as [_ Hnext].
    rewrite !first_candidate_overflow by lia. split; reflexivity.
Qed.

(** X23: where the doubles show in [is_prime].  It raises
    [OverflowError] on every [n] of absolute value [2^1024] or more (the
    conversion to a double comes before anything else) and [ValueError] on
    every negative [n] above [-2^1023]; below [2^50] its candidates are
    the integers from 2 to the integer nearest to the square root of [n];
    at [1125900007505922] they go one further. *)
Theorem is_prime_beyond_doubles :
  (forall n, 2 ^ 1024 <= Z.abs n -> is_prime n = Raise OverflowError) /\
  (forall n, - 2 ^ 1023 < n < 0 -> is_prime n = Raise ValueError) /\
  (forall n, 0 <= n < 2 ^ 50 ->
             trial_range n = Ret (Py.range 2 (nearest_sqrt n + 1))) /\
  trial_range 1125900007505922 = Ret (Py.range 2 (33554434 + 1)) /\
  nearest_sqrt 1125900007505922 = 33554433.
Proof.
  split; [exact is_prime_overflow|]. split; [exact is_prime_negative|].
  split; [|split; [|vm_compute; reflexivity]].
  - intros n Hn. unfold trial_range. now rewrite round_sqrt_exact.
  - assert (Hr : Py.round_sqrt 1125900007505922 = Ret 33554434)
      by (vm_compute; reflexivity).
    unfold trial_range. now rewrite Hr.
Qed.

(** ** [log_2] *)

Lemma log_2_loop_spec (fuel : nat) :
  forall n x,
    0 < n -> Z.log2 n + 1 < Z.of_nat fuel ->
    log_2_loop fuel n x = Ret (x + Z.log2 n + 1).
Proof.
  induction fuel as [|fuel IH]; intros n x Hn Hfuel; [pose proof (Z.log2_nonneg n); lia|].
  cbn [log_2_loop]. destruct (Z.ltb_spec 0 n); [|lia].
  pose proof (Z.log2_nonneg n) as Hlog.
  destruct (Z.eq_dec n 1) as [->|Hn1].
  - change (Z.shiftr 1 1) with 0. destruct fuel as [|fuel]; [cbn in Hfuel; lia|].
    cbn [log_2_loop]. change (0 <? 0) with false. cbn. f_equal. lia.
  - assert (Hhalf : 0 < Z.shiftr n 1).
    { rewrite Z.shiftr_div_pow2 by lia. change (2 ^ 1) with 2.
      apply Z.div_str_pos. lia. }
    assert (Hlog2 : Z.log2 (Z.shiftr n 1) = Z.log2 n - 1).
    { rewrite Z.log2_shiftr by lia.
      assert (1 <= Z.log2 n) by (apply Z.log2_le_pow2; [lia|cbn; lia]). lia. }
    rewrite IH by lia. f_equal. lia.
Qed.

(** X6: [log_2(n)] is 0 for [n <= 0] and, for [n > 0], the number of
    binary digits of [n]: [2^(x-1) <= n < 2^x].  On a power of two
    [2^e] it is [e + 1]. *)
Theorem log_2_bit_length :
  (forall n, n <= 0 -> log_2 n = Ret 0) /\
  (forall n, 0 < n ->
     exists x, log_2 n = Ret x /\ x = Z.log2 n + 1 /\ 2 ^ (x - 1) <= n < 2 ^ x) /\
  (forall e, 0 <= e -> log_2 (2 ^ e) = Ret (e + 1)).
Proof.
  assert (Hpos : forall n, 0 < n -> log_2 n = Ret (Z.log2 n + 1)).
  { intros n Hn. unfold log_2, log_2_budget.
    rewrite log_2_loop_spec; [f_equal; lia|exact Hn|].
    pose proof (Z.log2_lt_lin n Hn). lia. }
  split; [|split].
  - intros n Hn. unfold log_2, log_2_budget. cbn [log_2_loop].
    destruct (Z.ltb_spec 0 n); [lia|reflexivity].
  - intros n Hn. exists (Z.log2 n + 1). split; [now apply Hpos|]. split; [reflexivity|].
    replace (Z.log2 n + 1 - 1) with (Z.log2 n) by lia.
    pose proof (Z.log2_spec n Hn) as Hspec. unfold Z.succ in Hspec. exact Hspec.
  - intros e He. rewrite Hpos by (apply Z.pow_pos_nonneg; lia).
    now rewrite Z.log2_pow2 by exact He.
Qed.

(** ** [prime_facto]: the whole factorisation *)

Lemma product_app (a b : list Z) : product (a ++ b) = product a * product b.
Proof.
  induction a as [|x a IH]; cbn [app product fold_right].
  - unfold product. lia.
  - unfold product in *. rewrite IH. ring.
Qed.

Lemma power_product_snoc (fs pw : list Z) (g e : Z) :
  length fs = length pw ->
  power_product (fs ++ [g]) (pw ++ [e]) = power_product fs pw * g ^ e.
Proof.
  revert pw. induction fs as [|f fs IH]; intros [|x pw] Hlen; try discriminate Hlen.
  - unfold power_product, product. cbn [app combine map fold_right fst snd]. ring.
  - injection Hlen as Hlen. specialize (IH pw Hlen).
    unfold power_product, product in *. cbn [app combine map fold_right fst snd].
    rewrite IH. ring.
Qed.

Lemma update_last {A : Type} (l : list A) (x y : A) :
  firstn (length l) (l ++ [x]) ++ y :: skipn (S (length l)) (l ++ [x]) = l ++ [y].
Proof.
  rewrite firstn_app, Nat.sub_diag, firstn_all. cbn [firstn]. rewrite app_nil_r.
  f_equal. f_equal. rewrite skipn_all2; [reflexivity|].
  rewrite length_app. cbn [length]. lia.
Qed.

Lemma skipn_nth_cons (l : list Z) (a : nat) :
  (a < length l)%nat -> skipn a l = nth a l 0 :: skipn (S a) l.
Proof.
  revert a. induction l as [|x l IH]; intros a Ha; [cbn in Ha; lia|].
  destruct a as [|a]; [reflexivity|]. cbn [skipn nth]. apply IH. cbn in Ha. lia.
Qed.

Lemma increasing_snoc (x : Z) (l : list Z) :
  Forall (fun g => g < x) l -> increasing l -> increasing (l ++ [x]).
Proof.
  intros Hx Hl i j Hij. rewrite length_app in Hij. cbn [length] in Hij.
  destruct (Nat.lt_ge_cases j (length l)) as [Hj|Hj].
  - rewrite !app_nth1 by lia. apply Hl. lia.
  - replace j with (length l) by lia. rewrite nth_middle.
    rewrite app_nth1 by lia. apply (proj1 (Forall_forall _ _) Hx).
    apply nth_In. lia.
Qed.

Lemma increasing_below_last (g : Z) (l : list Z) :
  increasing (l ++ [g]) -> Forall (fun x => x <= g) (l ++ [g]).
Proof.
  intros Hinc. apply Forall_forall. intros x Hx.
  destruct (In_nth _ _ 0 Hx) as (i & Hi & <-).
  rewrite length_app in Hi. cbn [length] in Hi.
  destruct (Nat.eq_dec i (length l)) as [->|Hne].
  - rewrite nth_middle. lia.
  - pose proof (Hinc i (length l)) as Hlt. rewrite nth_middle in Hlt.
    rewrite length_app in Hlt. cbn [length] in Hlt. specialize (Hlt ltac:(lia)). lia.
Qed.

(** The second loop turns factors in non-decreasing order into the
    distinct factors, in increasing order, with the number of times each
    occurs. *)
Lemma group_loop_full (factors : list Z) (todo : nat) :
  nondecreasing factors ->
  forall a f2i g pwi e,
    Z.of_nat (length factors) = a + Z.of_nat todo -> 1 <= a ->
    length f2i = length pwi ->
    g = nth (Z.to_nat (a - 1)) factors 0 ->
    increasing (f2i ++ [g]) ->
    Forall (fun x => 1 <= x) (pwi ++ [e]) ->
    exists f2' pw',
      group_loop factors (Py.range a (Z.of_nat (length factors)))
        (f2i ++ [g]) (pwi ++ [e]) (Z.of_nat (length pwi))
      = Ret (f2', pw') /\
      length f2' = length pw' /\ increasing f2' /\
      Forall (fun x => 1 <= x) pw' /\
      power_product f2' pw' =
      power_product (f2i ++ [g]) (pwi ++ [e]) * product (skipn (Z.to_nat a) factors).
Proof.
  intros Hsorted.
  induction todo as [|todo IH]; intros a f2i g pwi e Hlen Ha Hlens Hg Hinc Hpow.
  - rewrite range_empty by lia. cbn [group_loop]. do 2 eexists.
    split; [reflexivity|]. split; [rewrite !length_app; cbn [length]; lia|].
    split; [exact Hinc|]. split; [exact Hpow|].
    rewrite skipn_all2 by lia. change (product []) with 1. ring.
  - rewrite range_cons by lia. cbn [group_loop].
    rewrite (getitem_nth factors a 0) by lia.
    rewrite (getitem_nth factors (a - 1) 0) by lia. cbn [bind].
    rewrite <- Hg.
    assert (Hle : g <= nth (Z.to_nat a) factors 0) by (subst g; apply Hsorted; lia).
    rewrite (skipn_nth_cons factors (Z.to_nat a)) by lia.
    replace (S (Z.to_nat a)) with (Z.to_nat (a + 1)) by lia.
    set (fi := nth (Z.to_nat a) factors 0) in *.
    assert (He : 1 <= e).
    { apply Forall_app in Hpow. destruct Hpow as [_ Hpow]. now inversion Hpow. }
    destruct (Z.eqb_spec fi g) as [Heq|Hne]; cbn [negb].
    + rewrite (getitem_nth (pwi ++ [e]) (Z.of_nat (length pwi)) 0)
        by (rewrite length_app; cbn [length]; lia).
      rewrite Nat2Z.id, nth_middle. cbn [bind].
      rewrite setitem_nonneg by (rewrite length_app; cbn [length]; lia).
      rewrite Nat2Z.id, update_last. cbn [bind].
      destruct (IH (a + 1) f2i g pwi (e + 1)) as (f2' & pw' & Hrun & Hl & Hi & Hp & Hprod);
        [lia|lia|exact Hlens| |exact Hinc| |].
      * replace (a + 1 - 1) with a by lia. fold fi. now rewrite Heq.
      * apply Forall_app in Hpow. destruct Hpow as [Hpw _].
        apply Forall_app. split; [exact Hpw|]. repeat constructor. lia.
      * exists f2', pw'. split; [exact Hrun|]. split; [exact Hl|].
        split; [exact Hi|]. split; [exact Hp|].
        rewrite Hprod, !power_product_snoc by exact Hlens.
        rewrite Z.pow_add_r by lia. rewrite Z.pow_1_r.
        cbn [product fold_right]. fold (product (skipn (Z.to_nat (a + 1)) factors)).
        rewrite Heq. ring.
    + cbn [bind].
      replace (Z.of_nat (length pwi) + 1) with (Z.of_nat (length (pwi ++ [e])))
        by (rewrite length_app; cbn [length]; lia).
      destruct (IH (a + 1) (f2i ++ [g]) fi (pwi ++ [e]) 1)
        as (f2' & pw' & Hrun & Hl & Hi & Hp & Hprod);
        [lia|lia|rewrite !length_app; cbn [length]; lia| | | |].
      * replace (a + 1 - 1) with a by lia. reflexivity.
      * apply increasing_snoc; [|exact Hinc].
        eapply Forall_impl; [|exact (increasing_below_last g f2i Hinc)].
        cbn. intros x Hx. lia.
      * apply Forall_app. split; [exact Hpow|]. repeat constructor. lia.
      * exists f2', pw'. split; [exact Hrun|]. split; [exact Hl|].
        split; [exact Hi|]. split; [exact Hp|].
        rewrite Hprod.
        rewrite (power_product_snoc (f2i ++ [g]) (pwi ++ [e]) fi 1)
          by (rewrite !length_app; cbn [length]; lia).
        rewrite Z.pow_1_r.
        cbn [product fold_right]. fold (product (skipn (Z.to_nat (a + 1)) factors)).
        ring.
Qed.

Lemma prime_facto_factors (n : Z) :
  2 <= n < 2 ^ 50 ->
  exists factors,
    (0 < length factors)%nat /\ nondecreasing factors /\
    n = product factors /\
    prime_facto n =
    group_loop factors (Py.range 1 (Z.of_nat (length factors)))
      [nth 0 factors 0] [1] 0.
Proof.
  intros Hn. unfold prime_facto.
  destruct (facto_loop_budget n ltac:(lia)) as (n1 & fs & Hrun).
  rewrite Hrun. cbn [bind].
  destruct (facto_loop_sorted _ _ _ _ _ _ Hrun ltac:(lia) ltac:(lia)) as
    (gs' & Hgs' & _ & Hsorted & Hup); [intros d Hd; lia|].
  destruct (facto_loop_spec _ _ _ _ _ _ Hrun ltac:(lia) ltac:(lia)) as
    (gs & -> & Hprod & _ & Hn1 & Hlast); [intros d Hd; lia|].
  cbn [app] in *. subst gs'.
  set (factors := if negb (n1 =? 1) then gs ++ [n1] else gs).
  assert (Hfacts : nondecreasing factors /\ n = product factors).
  { subst factors. destruct (Z.eqb_spec n1 1) as [->|Hne]; cbn [negb].
    - split; [exact Hsorted|lia].
    - destruct Hup as [|[_ Hup]]; [contradiction|].
      split; [now apply nondecreasing_snoc|].
      rewrite product_app. cbn [product fold_right]. lia. }
  destruct Hfacts as [Hfsorted Hnprod].
  assert (Hne : (0 < length factors)%nat).
  { destruct factors; [cbn in Hnprod; lia|cbn; lia]. }
  exists factors. split; [exact Hne|]. split; [exact Hfsorted|]. split; [exact Hnprod|].
  rewrite (getitem_nth factors 0 0) by lia. reflexivity.
Qed.

(** X7: from 2 to [2^50], [prime_facto(n)] returns the prime
    factorisation of [n]: the primes that divide [n], in increasing order,
    and as many powers, each at least 1, with [n] the product of the
    primes raised to their powers. *)
Theorem prime_facto_factorization (n : Z) :
  2 <= n < 2 ^ 50 ->
  exists primes powers,
    prime_facto n = Ret (primes, powers) /\
    length primes = length powers /\
    increasing primes /\
    (forall q, In q primes <-> Z.prime q /\ (q | n)) /\
    Forall (fun e => 1 <= e) powers /\
    power_product primes powers = n.
Proof.
  intros Hn.
  destruct (prime_facto_factors n Hn) as (factors & Hne & Hsorted & Hprod & Hrun).
  destruct (group_loop_full factors (length factors - 1) Hsorted
              1 [] (nth 0 factors 0) [] 1)
    as (f2 & pw & Hgl & Hlen & Hinc & Hpow & Hpp); try (cbn [length]; lia).
  - reflexivity.
  - intros i j Hij. cbn in Hij. lia.
  - repeat constructor. lia.
  - cbn [app length] in Hgl. change (Z.of_nat 0) with 0 in Hgl.
    rewrite Hgl in Hrun.
    destruct (prime_facto_spec n Hn) as (qs & pows & Hrun' & _ & Hqs).
    rewrite Hrun in Hrun'. injection Hrun' as <- <-.
    exists f2, pw. split; [exact Hrun|]. split; [exact Hlen|]. split; [exact Hinc|].
    split; [exact Hqs|]. split; [exact Hpow|].
    rewrite Hpp, Hprod. cbn [app].
    change (Z.to_nat 1) with 1%nat.
    destruct factors as [|f0 rest]; [cbn in Hne; lia|].
    unfold power_product. cbn [combine map fst snd nth skipn product fold_right].
    rewrite Z.pow_1_r. fold (product rest). ring.
Qed.

Lemma prime_facto_factorization_witness :
  exists primes powers,
    prime_facto 360 = Ret (primes, powers) /\
    length primes = length powers /\
    increasing primes /\
    (forall q, In q primes <-> Z.prime q /\ (q | 360)) /\
    Forall (fun e => 1 <= e) powers /\
    power_product primes powers = 360.
Proof. exact (prime_facto_factorization 360 ltac:(lia)). Defined.

(** X8: outside [n >= 2], [prime_facto] raises [ValueError] (from [sqrt])
    on a negative [n] above [-2^1023] and [IndexError] (from
    [factors[0]]) on 1, and on 0 it returns the factor 0 with the power 1;
    from [2^1024] on in absolute value, [n] is beyond the doubles and the
    first [sqrt] raises [OverflowError]. *)
Theorem prime_facto_edges :
  (forall n, - 2 ^ 1023 < n < 0 -> prime_facto n = Raise ValueError) /\
  prime_facto 1 = Raise IndexError /\
  prime_facto 0 = Ret ([0], [1]) /\
  (forall n, 2 ^ 1024 <= Z.abs n -> prime_facto n = Raise OverflowError).
Proof.
  split; [|split; [reflexivity|split; [reflexivity|]]].
  - intros n Hn. unfold prime_facto, facto_budget.
    now rewrite facto_loop_negative by exact Hn.
  - intros n Hn. unfold prime_facto, facto_budget.
    now rewrite facto_loop_overflow by exact Hn.
Qed.

(** ** The searches for a prime with primitive root 2 *)

Lemma two_is_no_root_prime : ~ primitive_root_prime 2.
Proof. intros [_ (_ & Hone & _)]. discriminate Hone. Qed.

(** A candidate on which the test of the search fails is not a prime of
    which 2 is a primitive root. *)
Lemma test_failure_not_root (c : Z) (primes pows : list Z) :
  2 <= c < 2 ^ 50 ->
  prime_facto c = Ret (primes, pows) ->
  root_test_fails c primes = Ret true ->
  ~ has_order 2 (c + 1) c.
Proof.
  intros Hc Hfacto Htest (_ & _ & Hmin).
  destruct (prime_facto_spec c Hc) as (qs & pows' & Hfacto' & _ & Hqs).
  rewrite Hfacto in Hfacto'. injection Hfacto' as <- <-.
  destruct (root_test_defined c primes ltac:(lia)) as (b & Hb & Hfail).
  { apply Forall_forall. intros q Hq. apply Hqs in Hq.
    destruct Hq as [Hq _]. pose proof (Z.prime_ge_2 q Hq). lia. }
  rewrite Htest in Hb. injection Hb as <-.
  destruct (Hfail eq_refl) as (q & Hq & Hone). apply Hqs in Hq.
  destruct Hq as [Hq [m Hm]]. pose proof (Z.prime_ge_2 q Hq) as Hq2.
  assert (Hm0 : 0 < m) by nia.
  assert (Hquot : c / q = m) by (symmetry; apply Z.div_unique_exact; lia).
  rewrite Hquot in Hone. apply (Hmin m); [nia|exact Hone].
Qed.

Lemma refused_not_root_prime (c : Z) :
  2 <= c < 2 ^ 50 - 1 -> refused c -> ~ primitive_root_prime (c + 1).
Proof.
  intros Hc [Hrej|(primes & pows & Hfacto & Htest)] [Hp Hord].
  - destruct (is_prime_correct (c + 1) ltac:(lia)) as (b & Hb & Hiff).
    apply Hiff in Hp. subst b. congruence.
  - replace (c + 1 - 1) with c in Hord by lia.
    exact (test_failure_not_root c primes pows ltac:(lia) Hfacto Htest Hord).
Qed.

(** Every candidate that a [*_na_set] search has passed was refused. *)
Lemma na_search_skipped (fuel : nat) (step : Z) :
  forall k k',
    na_search fuel step k = Ret k' ->
    exists j : nat,
      k' = k + step * Z.of_nat j /\
      forall i : nat, (i < j)%nat -> refused (k + step * Z.of_nat i).
Proof.
  induction fuel as [|fuel IH]; intros k k' Hrun; cbn [na_search] in Hrun;
    [discriminate|].
  destruct (skip_composites (S fuel) step k) as [k1| |] eqn:Hskip;
    cbn [bind] in Hrun; try discriminate.
  destruct (skip_composites_ret _ _ _ _ Hskip) as (j & Hk1 & _ & Hrej).
  destruct (prime_facto k1) as [[primes pows]| |] eqn:Hf; cbn [bind] in Hrun;
    try discriminate.
  destruct (root_test_fails k1 primes) as [[|]| |] eqn:Ht; cbn [bind] in Hrun;
    try discriminate.
  - destruct (IH _ _ Hrun) as (j' & Hj' & Hrej').
    exists (S (j + j')). split; [lia|]. intros i Hi.
    destruct (Nat.lt_trichotomy i j) as [Hlt|[->|Hgt]].
    + left. now apply Hrej.
    + right. rewrite <- Hk1. now exists primes, pows.
    + assert (Hsplit : Z.of_nat i = Z.of_nat j + 1 + Z.of_nat (i - j - 1)) by lia.
      replace (k + step * Z.of_nat i)
        with (k1 + step + step * Z.of_nat (i - j - 1))
        by (rewrite Hsplit, Hk1; ring).
      apply Hrej'. lia.
  - injection Hrun as <-. exists j. split; [exact Hk1|].
    intros i Hi. left. now apply Hrej.
Qed.

Lemma na_search_more (fuel : nat) (step : Z) :
  forall fuel' k k',
    (fuel <= fuel')%nat ->
    na_search fuel step k = Ret k' -> na_search fuel' step k = Ret k'.
Proof.
  induction fuel as [|fuel IH]; intros fuel' k k' Hle Hrun;
    cbn [na_search] in Hrun; [discriminate|].
  destruct fuel' as [|fuel']; [lia|]. cbn [na_search].
  destruct (skip_composites (S fuel) step k) as [k1| |] eqn:Hskip;
    cbn [bind] in Hrun; try discriminate.
  rewrite (skip_composites_more (S fuel) (S fuel') step k k1 ltac:(lia) Hskip).
  cbn [bind].
  destruct (prime_facto k1) as [[primes pows]| |]; cbn [bind] in *; try discriminate.
  destruct (root_test_fails k1 primes) as [[|]| |]; cbn [bind] in *;
    try discriminate; [|exact Hrun].
  apply IH; [lia|exact Hrun].
Qed.

(** What a [*_na_set] search stops on, below [2^50], is a prime of which
    2 is a primitive root. *)
Lemma na_search_root_prime (fuel : nat) (step k k' : Z) :
  na_search fuel step k = Ret k' -> 2 <= k' < 2 ^ 50 - 1 ->
  primitive_root_prime (k' + 1).
Proof.
  intros Hrun Hk'.
  destruct (na_search_ret _ _ _ _ Hrun) as (_ & Hacc & primes & pows & Hfacto & Htest).
  destruct (is_prime_correct (k' + 1) ltac:(lia)) as (b & Hb & Hiff).
  rewrite Hb in Hacc. injection Hacc as ->.
  assert (Hp : Z.prime (k' + 1)) by now apply Hiff.
  destruct (prime_facto_spec k' ltac:(lia)) as (qs & pows' & Hfacto' & _ & Hqs).
  rewrite Hfacto in Hfacto'. injection Hfacto' as <- <-.
  split; [exact Hp|].
  apply order_from_tests; [exact Hp|rewrite Z.mod_small; lia|lia|].
  replace (k' + 1 - 1) with k' by lia.
  intros q Hq Hdiv. apply (root_test_passed k' primes); [lia|exact Htest| |].
  - apply Hqs. now split.
  - pose proof (Z.prime_ge_2 q Hq). lia.
Qed.

Lemma next_na_set_correct (k p : Z) :
  2 <= k -> k <= p < 2 ^ 50 -> primitive_root_prime p ->
  exists fuel p',
    next_na_set fuel k = Ret p' /\
    primitive_root_prime p' /\ k <= p' /\
    forall q, primitive_root_prime q -> k <= q -> p' <= q.
Proof.
  intros Hk Hkp Hroot. pose proof Hroot as [Hp Hord].
  destruct (next_na_set_returns k p Hk Hkp Hp Hord) as (fuel & p' & Hrun).
  exists fuel, p'. split; [exact Hrun|].
  unfold next_na_set in Hrun.
  destruct (start_even_next k) as [Heven Hrange].
  set (k0 := start_even 1 k) in *.
  destruct (na_search fuel 2 k0) as [k'| |] eqn:Hsearch; cbn [bind] in Hrun;
    try discriminate.
  injection Hrun as <-.
  destruct (na_search_skipped _ _ _ _ Hsearch) as (j & Hj & Hrej).
  assert (Hk0 : 2 <= k0).
  { destruct (Z.eq_dec k0 1) as [H1|]; [rewrite H1 in Heven; discriminate|lia]. }
  assert (Hleast : forall q, primitive_root_prime q -> k <= q < 2 ^ 50 ->
                             k' + 1 <= q).
  { intros q Hq Hkq.
    destruct (Z.le_gt_cases (k' + 1) q) as [|Hgt]; [assumption|exfalso].
    assert (Hq2 : 2 < q).
    { pose proof (Z.prime_ge_2 q (proj1 Hq)).
      destruct (Z.eq_dec q 2) as [->|]; [destruct (two_is_no_root_prime Hq)|lia]. }
    pose proof (odd_prime q (proj1 Hq) Hq2) as Hodd.
    destruct (even_gap (k0 + 1) q) as (i & Hi); [now rewrite succ_even_odd| |].
    - destruct (Z.eq_dec q k0) as [->|]; [lia|lia].
    - apply (refused_not_root_prime (k0 + 2 * Z.of_nat i)); [lia|apply Hrej; lia|].
      now replace (k0 + 2 * Z.of_nat i + 1) with q by lia. }
  pose proof (Hleast p Hroot Hkp) as Hle.
  split; [apply (na_search_root_prime fuel 2 k0); [exact Hsearch|lia]|].
  split; [lia|].
  intros q Hq Hkq.
  destruct (Z.lt_ge_cases q (2 ^ 50)); [apply Hleast; [exact Hq|lia]|lia].
Qed.

(** Going down from an even [k >= 2], the search returns: at the latest
    on 2, that is on the prime 3. *)
Lemma na_search_down_returns (fuel : nat) :
  forall k,
    2 <= k < 2 ^ 50 - 1 -> k mod 2 = 0 -> k < 2 * Z.of_nat fuel ->
    exists k', na_search fuel (-2) k = Ret k' /\ 2 <= k'.
Proof.
  induction fuel as [|fuel IH]; intros k Hk Heven Hfuel; [lia|].
  cbn [na_search].
  destruct (skip_down_returns (S fuel) k ltac:(lia) Heven Hfuel) as (k1 & Hskip).
  rewrite Hskip. cbn [bind].
  destruct (skip_composites_ret _ _ _ _ Hskip) as (j & Hk1 & Hacc & Hrej).
  assert (Hk1' : 2 <= k1).
  { destruct (Z.le_gt_cases 2 k1) as [|Hlt]; [assumption|exfalso].
    destruct (even_gap 2 k) as (i & Hi); [now rewrite Heven|lia|].
    specialize (Hrej i ltac:(lia)).
    replace (k + -2 * Z.of_nat i + 1) with 3 in Hrej by lia. discriminate Hrej. }
  destruct (prime_facto_spec k1 ltac:(lia)) as (qs & pows & Hfacto & _ & Hqs).
  rewrite Hfacto. cbn [bind].
  destruct (root_test_defined k1 qs ltac:(lia)) as ([|] & Htest & _).
  { apply Forall_forall. intros q Hq. apply Hqs in Hq.
    destruct Hq as [Hq _]. pose proof (Z.prime_ge_2 q Hq). lia. }
  - rewrite Htest. cbn [bind].
    destruct (Z.eq_dec k1 2) as [H2|Hne].
    + exfalso. rewrite H2 in Hfacto, Htest.
      vm_compute in Hfacto. injection Hfacto as <- _.
      vm_compute in Htest. discriminate Htest.
    + assert (Hk1even : k1 mod 2 = 0).
      { rewrite Hk1. replace (k + -2 * Z.of_nat j) with (k + (- Z.of_nat j) * 2) by lia.
        now rewrite Z.mod_add by lia. }
      assert (4 <= k1).
      { destruct (Z.eq_dec k1 3) as [H3|]; [rewrite H3 in Hk1even; discriminate|lia]. }
      apply IH; [lia| |lia].
      replace (k1 + -2) with (k1 + (-1) * 2) by lia. now rewrite Z.mod_add by lia.
  - rewrite Htest. cbn [bind]. now exists k1.
Qed.

Lemma previous_na_set_correct (k : Z) :
  3 <= k < 2 ^ 50 ->
  exists fuel p,
    previous_na_set fuel k = Ret p /\
    primitive_root_prime p /\ 3 <= p <= k /\
    forall q, primitive_root_prime q -> q <= k -> q <= p.
Proof.
  intros Hk. destruct (start_even_previous k) as [Heven Hrange].
  set (k0 := start_even (-1) k) in *.
  assert (Hk0 : 2 <= k0).
  { destruct (Z.eq_dec k0 1) as [H1|]; [rewrite H1 in Heven; discriminate|lia]. }
  destruct (na_search_down_returns (S (Z.to_nat k)) k0 ltac:(lia) Heven ltac:(lia))
    as (k' & Hsearch & Hk').
  assert (Hk'b : k' <= k0).
  { destruct (na_search_ret _ _ _ _ Hsearch) as ((j0 & Hj0) & _). lia. }
  exists (S (Z.to_nat k)), (k' + 1).
  unfold previous_na_set. fold k0. rewrite Hsearch. cbn [bind].
  split; [reflexivity|].
  destruct (na_search_skipped _ _ _ _ Hsearch) as (j & Hj & Hrej).
  split; [exact (na_search_root_prime _ _ _ _ Hsearch ltac:(lia))|].
  split; [lia|].
  intros q Hq Hqk. destruct (Z.le_gt_cases q (k' + 1)) as [|Hgt]; [assumption|exfalso].
  assert (Hq2 : 2 < q) by lia.
  pose proof (odd_prime q (proj1 Hq) Hq2) as Hodd.
  destruct (even_gap q (k0 + 1)) as (i & Hi); [now rewrite succ_even_odd| |].
  - destruct (Z.eq_dec q (k0 + 2)) as [->|]; [|lia].
    replace (k0 + 2) with (k0 + 1 * 2) in Hodd by lia.
    rewrite Z.mod_add in Hodd by lia. lia.
  - apply (refused_not_root_prime (k0 + -2 * Z.of_nat i)); [lia|apply Hrej; lia|].
    now replace (k0 + -2 * Z.of_nat i + 1) with q by lia.
Qed.

Lemma next_na_set_more (fuel fuel' : nat) (k p : Z) :
  (fuel <= fuel')%nat -> next_na_set fuel k = Ret p -> next_na_set fuel' k = Ret p.
Proof.
  unfold next_na_set. intros Hle Hrun.
  destruct (na_search fuel 2 (start_even 1 k)) as [k'| |] eqn:Hsearch;
    cbn [bind] in Hrun; try discriminate.
  now rewrite (na_search_more _ _ _ _ _ Hle Hsearch).
Qed.

Lemma previous_na_set_more (fuel fuel' : nat) (k p : Z) :
  (fuel <= fuel')%nat ->
  previous_na_set fuel k = Ret p -> previous_na_set fuel' k = Ret p.
Proof.
  unfold previous_na_set. intros Hle Hrun.
  destruct (na_search fuel (-2) (start_even (-1) k)) as [k'| |] eqn:Hsearch;
    cbn [bind] in Hrun; try discriminate.
  now rewrite (na_search_more _ _ _ _ _ Hle Hsearch).
Qed.

(** X9: for [k >= 2], as soon as there is a prime [p] from [k] to [2^50]
    of which 2 is a primitive root, [next_na_set(k)] returns (with any
    iteration budget that is large enough) the smallest such prime. *)
Theorem next_na_set_smallest (k p : Z) :
  2 <= k -> k <= p < 2 ^ 50 -> primitive_root_prime p ->
  exists p',
    primitive_root_prime p' /\ k <= p' /\
    (forall q, primitive_root_prime q -> k <= q -> p' <= q) /\
    exists fuel0, forall fuel, (fuel0 <= fuel)%nat -> next_na_set fuel k = Ret p'.
Proof.
  intros Hk Hkp Hp.
  destruct (next_na_set_correct k p Hk Hkp Hp) as (fuel0 & p' & Hrun & Hp' & Hle & Hmin).
  exists p'. split; [exact Hp'|]. split; [exact Hle|]. split; [exact Hmin|].
  exists fuel0. intros fuel Hfuel. now apply (next_na_set_more fuel0).
Qed.

Lemma root_prime_11 : primitive_root_prime 11.
Proof.
  split.
  - destruct (is_prime_correct 11 ltac:(lia)) as (b & Hb & Hiff).
    apply Hiff. vm_compute in Hb. now injection Hb as <-.
  - apply (na_search_root_prime 9 2 6 10); [vm_compute; reflexivity|lia].
Qed.

Lemma next_na_set_smallest_witness :
  exists p',
    primitive_root_prime p' /\ 6 <= p' /\
    (forall q, primitive_root_prime q -> 6 <= q -> p' <= q) /\
    exists fuel0, forall fuel, (fuel0 <= fuel)%nat -> next_na_set fuel 6 = Ret p'.
Proof.
  exact (next_na_set_smallest 6 11 ltac:(lia) ltac:(lia) root_prime_11).
Defined.

(** X10: from 3 to [2^50], [previous_na_set(k)] always returns (with any
    iteration budget that is large enough), and what it returns is the
    largest prime [p <= k] of which 2 is a primitive root; it is at
    least 3. *)
Theorem previous_na_set_largest (k : Z) :
  3 <= k < 2 ^ 50 ->
  exists p,
    primitive_root_prime p /\ 3 <= p <= k /\
    (forall q, primitive_root_prime q -> q <= k -> q <= p) /\
    exists fuel0, forall fuel,
        (fuel0 <= fuel)%nat -> previous_na_set fuel k = Ret p.
Proof.
  intros Hk.
  destruct (previous_na_set_correct k Hk) as (fuel0 & p & Hrun & Hp & Hle & Hmax).
  exists p. split; [exact Hp|]. split; [exact Hle|]. split; [exact Hmax|].
  exists fuel0. intros fuel Hfuel. now apply (previous_na_set_more fuel0).
Qed.

Lemma previous_na_set_largest_witness :
  exists p,
    primitive_root_prime p /\ 3 <= p <= 10 /\
    (forall q, primitive_root_prime q -> q <= 10 -> q <= p) /\
    exists fuel0, forall fuel,
        (fuel0 <= fuel)%nat -> previous_na_set fuel 10 = Ret p.
Proof. exact (previous_na_set_largest 10 ltac:(lia)). Defined.

(** X11: for [k >= 3], if there is a prime from [k] to [2^50] of which 2
    is a primitive root, [closest_na_set(k)] returns such a prime than
    which none is nearer to [k]. *)
Theorem closest_na_set_nearest (k p : Z) :
  3 <= k -> k <= p < 2 ^ 50 -> primitive_root_prime p ->
  exists c,
    primitive_root_prime c /\
    (forall q, primitive_root_prime q -> Z.abs (c - k) <= Z.abs (q - k)) /\
    exists fuel0, forall fuel,
        (fuel0 <= fuel)%nat -> closest_na_set fuel k = Ret c.
Proof.
  intros Hk Hkp Hp.
  destruct (previous_na_set_correct k ltac:(lia))
    as (f1 & lo & Hprev & Hlo & Hlok & Hmax).
  destruct (next_na_set_correct k p ltac:(lia) Hkp Hp)
    as (f2 & hi & Hnext & Hhi & Hhik & Hmin).
  exists (if hi - k >=? k - lo then lo else hi). split; [|split].
  - destruct (hi - k >=? k - lo); assumption.
  - intros q Hq. destruct (Z.le_gt_cases q k) as [Hqk|Hqk].
    + specialize (Hmax q Hq Hqk).
      unfold Z.geb. destruct (Z.compare_spec (hi - k) (k - lo)); lia.
    + specialize (Hmin q Hq ltac:(lia)).
      unfold Z.geb. destruct (Z.compare_spec (hi - k) (k - lo)); lia.
  - exists (Nat.max f1 f2). intros fuel Hfuel. unfold closest_na_set.
    rewrite (next_na_set_more f2 fuel k hi) by (try exact Hnext; lia).
    rewrite (previous_na_set_more f1 fuel k lo) by (try exact Hprev; lia).
    reflexivity.
Qed.

Lemma closest_na_set_nearest_witness :
  exists c,
    primitive_root_prime c /\
    (forall q, primitive_root_prime q -> Z.abs (c - 6) <= Z.abs (q - 6)) /\
    exists fuel0, forall fuel,
        (fuel0 <= fuel)%nat -> closest_na_set fuel 6 = Ret c.
Proof.
  exact (closest_na_set_nearest 6 11 ltac:(lia) ltac:(lia) root_prime_11).
Defined.

Lemma na_search_first_negative (fuel : nat) (step k0 : Z) :
  - 2 ^ 1023 < k0 + 1 < 0 -> na_search (S fuel) step k0 = Raise ValueError.
Proof.
  intros Hneg. cbn [na_search]. now rewrite first_candidate_negative by exact Hneg.
Qed.

Lemma na_search_first_overflow (fuel : nat) (step k0 : Z) :
  2 ^ 1024 <= Z.abs (k0 + 1) ->
  na_search (S fuel) step k0 = Raise OverflowError.
Proof.
  intros Hbig. cbn [na_search]. now rewrite first_candidate_overflow by exact Hbig.
Qed.

(** X12: below 3 the searches for a primitive-root prime fail, and beyond
    the doubles too.  [previous_na_set] raises [ValueError] on [k <= 0]
    and [next_na_set] on [k < 0] (from [sqrt]), as long as [k] is above
    [-2^1023]; when the first candidate is 1, that is for
    [previous_na_set] on 1 and 2 and for [next_na_set] on 0 and 1, the
    factor 0 of [prime_facto(0)] gives a [ZeroDivisionError]; from
    [2^1024] on in absolute value both raise [OverflowError]. *)
Theorem na_set_search_below_3 (fuel : nat) :
  (forall k, - 2 ^ 1023 + 1 < k <= 0 ->
             previous_na_set (S fuel) k = Raise ValueError) /\
  (forall k, - 2 ^ 1023 < k < 0 -> next_na_set (S fuel) k = Raise ValueError) /\
  previous_na_set (S fuel) 1 = Raise ZeroDivisionError /\
  previous_na_set (S fuel) 2 = Raise ZeroDivisionError /\
  next_na_set (S fuel) 0 = Raise ZeroDivisionError /\
  next_na_set (S fuel) 1 = Raise ZeroDivisionError /\
  (forall k, 2 ^ 1024 < Z.abs k ->
             previous_na_set (S fuel) k = Raise OverflowError /\
             next_na_set (S fuel) k = Raise OverflowError).
Proof.
  assert (Hpow : 0 < 2 ^ 1023 < 2 ^ 1024).
  { split; [apply Z.pow_pos_nonneg; lia|apply Z.pow_lt_mono_r; lia]. }
  split; [|split; [|split; [|split; [|split; [|split]]]]]; try reflexivity.
  3:{ intros k Hk. unfold previous_na_set, next_na_set.
      destruct (start_even_previous k) as [_ Hprev].
      destruct (start_even_next k) as [_ Hnext].
      rewrite !na_search_first_overflow by lia. split; reflexivity. }
  - intros k Hk. unfold previous_na_set.
    destruct (start_even_previous k) as [_ Hrange].
    pose proof (start_candidate_odd (-1) k ltac:(now right)) as Hodd.
    rewrite na_search_first_negative; [reflexivity|].
    destruct (Z.eq_dec (start_even (-1) k + 1) 0) as [H0|]; [|lia].
    rewrite H0 in Hodd. discriminate Hodd.
  - intros k Hk. unfold next_na_set.
    destruct (start_even_next k) as [_ Hrange].
    pose proof (start_candidate_odd 1 k ltac:(now left)) as Hodd.
    rewrite na_search_first_negative; [reflexivity|].
    destruct (Z.eq_dec (start_even 1 k + 1) 0) as [H0|]; [|lia].
    rewrite H0 in Hodd. discriminate Hodd.
Qed.

(** ** [CompactBoolList]: what every buffer satisfies *)

Lemma byte_bits_high (b j : Z) : 0 <= b < 256 -> 8 <= j -> Z.testbit b j = false.
Proof.
  intros Hb Hj. rewrite <- (Z.mod_small b (2 ^ 8)) by (change (2 ^ 8) with 256; lia).
  apply Z.mod_pow2_bits_high. lia.
Qed.

Lemma put_bit_byte (old k : Z) (v : bool) :
  0 <= old < 256 -> 0 <= k < 8 -> 0 <= put_bit old k v < 256.
Proof.
  intros Hold Hk.
  assert (Heq : put_bit old k v = put_bit old k v mod 2 ^ 8).
  { apply Z.bits_inj'. intros j Hj.
    destruct (Z.lt_ge_cases j 8) as [Hlow|Hhigh].
    - now rewrite Z.mod_pow2_bits_low by lia.
    - rewrite Z.mod_pow2_bits_high by lia.
      rewrite put_bit_test by lia.
      destruct (Z.eqb_spec j k); [lia|]. now apply byte_bits_high. }
  rewrite Heq. change (2 ^ 8) with 256. apply Z.mod_pos_bound. lia.
Qed.

Lemma set_byte_range (s s' : CompactBoolList) (i v : Z) :
  0 <= i -> i / 8 < Z.of_nat (length (cb_data s)) ->
  Forall (fun b => 0 <= b < 256) (cb_data s) ->
  CBL.set_byte_and_bit_index s i v = Ret s' ->
  Forall (fun b => 0 <= b < 256) (cb_data s').
Proof.
  intros Hi Hbyte Hrange Hset.
  destruct (set_byte_spec s i v Hi Hbyte) as (d & Hd & Hlen & Hother & Hnew & _).
  rewrite Hd in Hset. injection Hset as <-. cbn [cb_data CBL.with_data].
  assert (Hdiv : 0 <= i / 8) by (apply Z.div_pos; lia).
  apply Forall_nth. intros k dflt Hk. rewrite (nth_indep d dflt 0 Hk).
  destruct (Nat.eq_dec k (Z.to_nat (i / 8))) as [->|Hne].
  - rewrite Hnew. apply put_bit_byte; [|apply Z.mod_pos_bound; lia].
    apply (proj1 (Forall_nth _ _) Hrange). lia.
  - rewrite Hother by exact Hne. apply (proj1 (Forall_nth _ _) Hrange). lia.
Qed.

Lemma append_range (s : CompactBoolList) (v : Z) :
  CBL.wf s ->
  Forall (fun b => 0 <= b < 256) (cb_data s) ->
  Forall (fun b => 0 <= b < 256) (cb_data (snd (CBL.append v s))).
Proof.
  intros [Hlen Hsize] Hrange. unfold CBL.append.
  set (s1 := if cb_length s mod 8 =? 0
             then CBL.with_data s (cb_data s ++ [0]) else s).
  assert (Hs1 : cb_length s1 = cb_length s /\
                cb_length s / 8 < Z.of_nat (length (cb_data s1)) /\
                Forall (fun b => 0 <= b < 256) (cb_data s1)).
  { pose proof (Z.div_mod (cb_length s) 8 ltac:(lia)) as Hdm.
    pose proof (Z.mod_pos_bound (cb_length s) 8 ltac:(lia)) as Hmod.
    subst s1. destruct (Z.eqb_spec (cb_length s mod 8) 0) as [H0|H0].
    - cbn [cb_length cb_data CBL.with_data]. rewrite length_app. cbn [length].
      split; [reflexivity|]. split.
      + assert ((cb_length s + 7) / 8 = cb_length s / 8)
          by (symmetry; apply Z.div_unique with (r := 7); lia). lia.
      + apply Forall_app. split; [exact Hrange|]. repeat constructor; lia.
    - split; [reflexivity|]. split; [|exact Hrange].
      assert ((cb_length s + 7) / 8 = cb_length s / 8 + 1)
        by (symmetry; apply Z.div_unique with (r := cb_length s mod 8 - 1); lia).
      lia. }
  destruct Hs1 as (Hl1 & Hb1 & Hr1). rewrite Hl1.
  destruct (CBL.set_byte_and_bit_index s1 (cb_length s) v) as [s2| |] eqn:Hset;
    cbn [snd]; [|exact Hr1|exact Hr1].
  cbn [cb_data CBL.with_length].
  exact (set_byte_range s1 s2 (cb_length s) v Hlen Hb1 Hr1 Hset).
Qed.

Lemma append_invariant (s : CompactBoolList) (v : Z) :
  buffer_invariant s -> buffer_invariant (snd (CBL.append v s)).
Proof.
  intros (Hwf & Hidx & Hrange & Hpad).
  pose proof (append_range s v Hwf Hrange) as Hrange'.
  destruct (append_spec s v Hwf) as (s' & Happ & Hwf' & Hlen' & Hidx' & Hbits & _).
  rewrite Happ in *. cbn [snd] in *.
  split; [exact Hwf'|]. split; [lia|]. split; [exact Hrange'|].
  intros j Hj. rewrite Hbits by (destruct Hwf; lia).
  destruct (Z.eqb_spec j (cb_length s)); [lia|]. apply Hpad. lia.
Qed.

Lemma extend_invariant (items : list Z) :
  forall s, buffer_invariant s -> buffer_invariant (snd (CBL.extend items s)).
Proof.
  induction items as [|item items IH]; intros s Hinv; cbn [CBL.extend]; [exact Hinv|].
  pose proof (append_invariant s item Hinv) as Hinv1.
  destruct (append_spec s item (proj1 Hinv)) as (s1 & Happ & _).
  rewrite Happ in *. cbn [snd] in Hinv1. now apply IH.
Qed.

Lemma empty_invariant : buffer_invariant CBL.empty.
Proof.
  split; [exact wf_empty|]. split; [cbn; lia|]. split; [constructor|].
  intros j _. unfold CBL.bit. cbn [cb_data CBL.empty].
  destruct (Z.to_nat (j / 8)); apply Z.testbit_0_l.
Qed.

Lemma setitem_invariant (s s' : CompactBoolList) (i v : Z) :
  buffer_invariant s -> CBL.setitem s i v = Ret s' -> buffer_invariant s'.
Proof.
  intros (Hwf & Hidx & Hrange & Hpad) Hset.
  assert (Hin : - cb_length s <= i < cb_length s).
  { apply in_bounds_true. unfold CBL.setitem in Hset.
    destruct (CBL.in_bounds s i); [reflexivity|discriminate Hset]. }
  set (p := if i <? 0 then cb_length s + i else i).
  assert (Hp : 0 <= p < cb_length s) by (subst p; destruct (Z.ltb_spec i 0); lia).
  assert (Hset' : CBL.setitem s p v = Ret s').
  { subst p. destruct (Z.ltb_spec i 0); [|exact Hset].
    now rewrite <- setitem_negative by lia. }
  destruct (setitem_in_range s p v Hwf Hp) as (d & Hd & Hlen & Hbits).
  pose proof (wf_byte_in_storage s p Hwf Hp) as Hbyte.
  assert (Hr : Forall (fun b => 0 <= b < 256) (cb_data s')).
  { apply (set_byte_range s s' p v); [lia|lia|exact Hrange|].
    unfold CBL.setitem in Hset'.
    now rewrite (proj2 (in_bounds_true s p)) in Hset' by lia. }
  rewrite Hd in Hset'. injection Hset' as <-.
  split; [split; [apply Hwf|cbn [cb_data cb_length CBL.with_data]; rewrite Hlen; apply Hwf]|].
  split; [exact Hidx|]. split; [exact Hr|].
  intros j Hj. cbn [cb_length CBL.with_data] in Hj.
  rewrite Hbits by lia. destruct (Z.eqb_spec j p); [lia|]. now apply Hpad.
Qed.

Lemma next_invariant (s : CompactBoolList) :
  buffer_invariant s -> buffer_invariant (snd (CBL.next s)).
Proof.
  intros (Hwf & Hidx & Hrange & Hpad). unfold CBL.next.
  destruct (Z.ltb_spec (cb_index s) (cb_length s)) as [Hlt|Hge].
  - rewrite getitem_in_range by (try exact Hwf; lia). cbn [snd].
    split; [exact Hwf|]. split; [cbn [cb_index cb_length CBL.with_index]; lia|].
    split; assumption.
  - cbn [snd]. split; [exact Hwf|].
    split; [cbn [cb_index cb_length CBL.with_index]; lia|]. split; assumption.
Qed.

Lemma to_list_invariant (s : CompactBoolList) :
  buffer_invariant s -> buffer_invariant (snd (CBL.to_list s)).
Proof.
  intros (Hwf & Hidx & Hrange & Hpad).
  unfold CBL.to_list, CBL.list_of_iter, CBL.iter.
  rewrite drain_spec by (try exact Hwf; lia). cbn [snd].
  split; [exact Hwf|]. split; [cbn [cb_index cb_length CBL.with_index]; lia|].
  split; assumption.
Qed.

(** X13: every buffer that the constructor, [append], a successful
    assignment to an index, [__next__] and [to_list] can make has
    [ceil(length / 8)] bytes of storage, each within [0, 256) (so the
    [bytearray] never refuses a byte), a cursor between 0 and its
    length, and only zero bits after its last bit. *)
Theorem api_keeps_invariant (s : CompactBoolList) :
  api_reachable s -> buffer_invariant s.
Proof.
  induction 1 as [[items|]|s v _ IH|s s' i v _ IH Hset|s _ IH|s _ IH].
  - apply extend_invariant, empty_invariant.
  - exact empty_invariant.
  - now apply append_invariant.
  - exact (setitem_invariant s s' i v IH Hset).
  - now apply next_invariant.
  - now apply to_list_invariant.
Qed.

Lemma api_keeps_invariant_witness :
  buffer_invariant
    (snd (CBL.next (snd (CBL.append 0 (snd (CBL.init (Some [1; 1; 0]))))))).
Proof.
  apply api_keeps_invariant. apply api_next, api_append, api_init.
Defined.

(** ** [CompactBoolList]: reading after writing, traversals *)

(** X14: after [append(value)] on a buffer with the storage invariant,
    the length is one more, index [-1] (and index [length]) reads the
    truth value of [value], and every earlier index reads what it read
    before. *)
Theorem append_then_read (s : CompactBoolList) (value : Z) :
  CBL.wf s ->
  exists s',
    CBL.append value s = (Ret tt, s') /\
    cbl_len s' = cbl_len s + 1 /\
    CBL.getitem s' (-1) = Ret (Py.truthy value) /\
    CBL.getitem s' (cbl_len s) = Ret (Py.truthy value) /\
    forall i, 0 <= i < cbl_len s -> CBL.getitem s' i = CBL.getitem s i.
Proof.
  intros Hwf. unfold cbl_len.
  destruct (append_spec s value Hwf) as (s' & Happ & Hwf' & Hlen & _ & Hbits & _).
  pose proof (proj1 Hwf) as Hpos.
  exists s'. split; [exact Happ|]. split; [exact Hlen|].
  assert (Hlast : CBL.getitem s' (cb_length s) = Ret (Py.truthy value)).
  { rewrite getitem_in_range by (try exact Hwf'; lia).
    rewrite Hbits by lia. now rewrite Z.eqb_refl. }
  split; [|split; [exact Hlast|]].
  - rewrite getitem_negative by lia.
    now replace (cb_length s' + -1) with (cb_length s) by lia.
  - intros i Hi. rewrite !getitem_in_range by (assumption || lia).
    rewrite Hbits by lia. destruct (Z.eqb_spec i (cb_length s)); [lia|reflexivity].
Qed.

Lemma append_then_read_witness :
  exists s',
    CBL.append 1 (CBL.of_list [0; 1; 0]) = (Ret tt, s') /\
    cbl_len s' = cbl_len (CBL.of_list [0; 1; 0]) + 1 /\
    CBL.getitem s' (-1) = Ret (Py.truthy 1) /\
    CBL.getitem s' (cbl_len (CBL.of_list [0; 1; 0])) = Ret (Py.truthy 1) /\
    forall i, 0 <= i < cbl_len (CBL.of_list [0; 1; 0]) ->
              CBL.getitem s' i = CBL.getitem (CBL.of_list [0; 1; 0]) i.
Proof.
  apply (append_then_read (CBL.of_list [0; 1; 0]) 1).
  split; [vm_compute; discriminate|reflexivity].
Defined.

(** X15: the constructor stores the truth value of each item, whatever
    integers the items are: the buffer has as many bits as there are
    items, index [i] reads whether item [i] is non-zero, and [to_list]
    returns these truth values and leaves the buffer as it was. *)
Theorem construct_truth_values (items : list Z) :
  cbl_len (CBL.of_list items) = Z.of_nat (length items) /\
  (forall i, 0 <= i < Z.of_nat (length items) ->
     CBL.getitem (CBL.of_list items) i
     = Ret (negb (nth (Z.to_nat i) items 0 =? 0))) /\
  CBL.to_list (CBL.of_list items)
  = (Ret (map (fun v => negb (v =? 0)) items), CBL.of_list items).
Proof.
  destruct (of_list_spec items) as (_ & Hwf & Hlen & Hidx & Hcontents).
  split; [exact Hlen|]. split.
  - intros i Hi. rewrite getitem_in_range by (try exact Hwf; lia).
    rewrite <- bits_nth by lia. rewrite Hcontents.
    change false with (Py.truthy 0). now rewrite map_nth.
  - rewrite to_list_from_start by assumption. now rewrite Hcontents.
Qed.

Lemma range_skipn (k : nat) :
  forall a b, skipn k (Py.range a b) = Py.range (a + Z.of_nat k) b.
Proof.
  induction k as [|k IH]; intros a b.
  - cbn [skipn]. f_equal. lia.
  - destruct (Z.lt_ge_cases a b) as [Hlt|Hge].
    + rewrite (range_cons a b) by exact Hlt. cbn [skipn]. rewrite IH. f_equal. lia.
    + rewrite !range_empty by lia. reflexivity.
Qed.

(** X16: [to_list] on a buffer whose cursor stands at [c] returns the
    bits from position [c] on, does not change the bits, and leaves the
    cursor at 0; a [to_list] that follows a [to_list] therefore returns
    all the bits. *)
Theorem traversal_from_cursor (s : CompactBoolList) :
  CBL.wf s -> 0 <= cb_index s <= cb_length s ->
  CBL.to_list s
  = (Ret (skipn (Z.to_nat (cb_index s)) (CBL.bits s)), CBL.with_index s 0) /\
  CBL.to_list (snd (CBL.to_list s)) = (Ret (CBL.bits s), CBL.with_index s 0).
Proof.
  intros Hwf Hidx.
  assert (Hfirst : CBL.to_list s
    = (Ret (skipn (Z.to_nat (cb_index s)) (CBL.bits s)), CBL.with_index s 0)).
  { unfold CBL.to_list, CBL.list_of_iter, CBL.iter.
    rewrite drain_spec by (try exact Hwf; lia).
    unfold CBL.bits. rewrite skipn_map, range_skipn.
    now replace (0 + Z.of_nat (Z.to_nat (cb_index s))) with (cb_index s) by lia. }
  split; [exact Hfirst|]. rewrite Hfirst. cbn [snd].
  rewrite to_list_from_start; [reflexivity|exact Hwf|reflexivity].
Qed.

Lemma traversal_from_cursor_witness :
  let s := snd (CBL.next (CBL.of_list [1; 0; 1])) in
  CBL.to_list s
  = (Ret (skipn (Z.to_nat (cb_index s)) (CBL.bits s)), CBL.with_index s 0) /\
  CBL.to_list (snd (CBL.to_list s)) = (Ret (CBL.bits s), CBL.with_index s 0).
Proof.
  apply (traversal_from_cursor (snd (CBL.next (CBL.of_list [1; 0; 1])))).
  - split; [vm_compute; discriminate|reflexivity].
  - vm_compute. split; discriminate.
Defined.

(** ** [CompactBoolList]: slices *)

Lemma clamp_bounds (length lower upper v : Z) :
  lower <= upper -> lower <= 0 -> length - 1 <= upper ->
  lower <= PySlice.clamp length lower upper v <= upper.
Proof.
  intros Hlu Hl Hu. unfold PySlice.clamp.
  destruct (Z.ltb_spec v 0).
  - destruct (Z.ltb_spec (v + length) lower); lia.
  - destruct (Z.ltb_spec upper v); lia.
Qed.

(** What [slice.indices] answers lies within the sequence. *)
Lemma indices_bounds (sl : slice) (length a b c : Z) :
  PySlice.indices sl length = Ret (a, b, c) ->
  c <> 0 /\
  (0 < c -> 0 <= a <= length /\ 0 <= b <= length) /\
  (c < 0 -> -1 <= a <= length - 1 /\ -1 <= b <= length - 1).
Proof.
  unfold PySlice.indices. destruct (Z.ltb_spec length 0) as [|Hlen]; [discriminate|].
  set (step := match sl_step sl with None => 1 | Some s => s end).
  destruct (Z.eqb_spec step 0) as [|Hstep]; [discriminate|].
  intros [= <- <- <-]. split; [exact Hstep|].
  destruct (Z.ltb_spec step 0) as [Hneg|Hpos].
  - split; [lia|]. intros _.
    split; [destruct (sl_start sl)|destruct (sl_stop sl)];
      try apply clamp_bounds; lia.
  - split; [|lia]. intros _.
    split; [destruct (sl_start sl)|destruct (sl_stop sl)];
      try apply clamp_bounds; lia.
Qed.

Lemma indices_step_zero (sl : slice) (length : Z) :
  sl_step sl = Some 0 -> PySlice.indices sl length = Raise ValueError.
Proof.
  intros Hstep. unfold PySlice.indices. rewrite Hstep.
  destruct (length <? 0); reflexivity.
Qed.

Lemma indices_defined (sl : slice) (length : Z) :
  0 <= length -> sl_step sl <> Some 0 ->
  exists a b c, PySlice.indices sl length = Ret (a, b, c).
Proof.
  intros Hlen Hstep. unfold PySlice.indices.
  destruct (Z.ltb_spec length 0); [lia|].
  destruct (sl_step sl) as [st|].
  - destruct (Z.eqb_spec st 0) as [->|]; [contradiction|]. do 3 eexists. reflexivity.
  - cbn. do 3 eexists. reflexivity.
Qed.

(** The members and the number of the elements of [range(a, b, c)]. *)
Lemma range_step_spec (a b c : Z) (idx : list Z) :
  PySlice.range_step a b c = Ret idx ->
  (forall x, In x idx -> (0 < c -> a <= x < b) /\ (c < 0 -> b < x <= a)) /\
  (0 < c -> Z.of_nat (length idx) <= Z.max 0 (b - a)) /\
  (c < 0 -> Z.of_nat (length idx) <= Z.max 0 (a - b)).
Proof.
  unfold PySlice.range_step. destruct (Z.eqb_spec c 0) as [|Hc]; [discriminate|].
  intros [= <-]. rewrite length_map, length_seq.
  destruct (Z.ltb_spec 0 c) as [Hpos|Hneg].
  - destruct (Z.ltb_spec a b) as [Hab|Hab].
    + pose proof (Z.mul_div_le (b - a - 1) c Hpos) as Hmul.
      assert (Hq : 0 <= (b - a - 1) / c) by (apply Z.div_pos; lia).
      assert (Hq' : (b - a - 1) / c <= b - a - 1) by (apply Z.div_le_upper_bound; nia).
      split; [|split; [lia|lia]].
      intros x Hx. apply in_map_iff in Hx. destruct Hx as (i & <- & Hi).
      apply in_seq in Hi. split; [|lia]. intros _. nia.
    + cbn [Z.to_nat seq map length]. split; [intros x []|lia].
  - assert (Hc' : 0 < - c) by lia.
    destruct (Z.ltb_spec b a) as [Hab|Hab].
    + pose proof (Z.mul_div_le (a - b - 1) (- c) Hc') as Hmul.
      assert (Hq : 0 <= (a - b - 1) / - c) by (apply Z.div_pos; lia).
      assert (Hq' : (a - b - 1) / - c <= a - b - 1) by (apply Z.div_le_upper_bound; nia).
      split; [|split; [lia|lia]].
      intros x Hx. apply in_map_iff in Hx. destruct Hx as (i & <- & Hi).
      apply in_seq in Hi. split; [lia|]. intros _. nia.
    + cbn [Z.to_nat seq map length]. split; [intros x []|lia].
Qed.

Lemma range_step_defined (a b c : Z) :
  c <> 0 -> exists idx, PySlice.range_step a b c = Ret idx.
Proof.
  intros Hc. unfold PySlice.range_step.
  destruct (Z.eqb_spec c 0); [contradiction|]. eexists. reflexivity.
Qed.

Lemma getitems_spec (s : CompactBoolList) (idx : list Z) :
  CBL.wf s -> Forall (fun i => 0 <= i < cb_length s) idx ->
  CBLSlice.getitems s idx = Ret (map (CBL.bit s) idx).
Proof.
  intros Hwf Hidx. induction Hidx as [|i idx Hi _ IH]; [reflexivity|].
  cbn [CBLSlice.getitems map]. rewrite getitem_in_range by assumption.
  cbn [bind]. now rewrite IH.
Qed.

Lemma truthy_b2z (values : list bool) : map Py.truthy (map Z.b2z values) = values.
Proof.
  induction values as [|[|] values IH]; cbn [map]; [reflexivity| |]; now rewrite IH.
Qed.

(** A slice whose indices are known: the new buffer holds the bits at
    these indices. *)
Lemma slice_core (s : CompactBoolList) (sl : slice) (a b c : Z) (idx : list Z) :
  CBL.wf s ->
  PySlice.indices sl (cb_length s) = Ret (a, b, c) ->
  PySlice.range_step a b c = Ret idx ->
  exists s',
    CBLSlice.getitem s sl = Ret s' /\
    Forall (fun i => 0 <= i < cb_length s) idx /\
    CBL.wf s' /\ cb_index s' = 0 /\
    cb_length s' = Z.of_nat (length idx) /\
    CBL.bits s' = map (CBL.bit s) idx.
Proof.
  intros Hwf Hind Hrange.
  destruct (indices_bounds _ _ _ _ _ Hind) as (Hc & Hpos & Hneg).
  destruct (range_step_spec _ _ _ _ Hrange) as (Hmem & _).
  assert (Hin : Forall (fun i => 0 <= i < cb_length s) idx).
  { apply Forall_forall. intros x Hx. destruct (Hmem x Hx) as [Hp Hn].
    destruct (Z.lt_trichotomy c 0) as [Hlt|[H0|Hgt]]; [|contradiction|].
    - specialize (Hn Hlt). specialize (Hneg Hlt). lia.
    - specialize (Hp Hgt). specialize (Hpos Hgt). lia. }
  unfold CBLSlice.getitem. rewrite Hind. cbn [bind]. rewrite Hrange. cbn [bind].
  rewrite getitems_spec by assumption. cbn [bind].
  destruct (of_list_spec (map Z.b2z (map (CBL.bit s) idx)))
    as (Hinit & Hwf' & Hlen & Hidx & Hbits).
  rewrite Hinit. eexists. split; [reflexivity|]. split; [exact Hin|].
  split; [exact Hwf'|]. split; [exact Hidx|].
  split; [now rewrite Hlen, !length_map|].
  now rewrite Hbits, truthy_b2z.
Qed.

(** X17: on a buffer with the storage invariant, a slice with step 0
    raises [ValueError]; any other slice returns a new buffer, with its
    cursor at 0, that holds the bits of the old one at the indices that
    [range] makes of [slice.indices(length)], all of which are valid
    indices, so that no slice raises [IndexError] and none is longer than
    the buffer. *)
Theorem slice_selects (s : CompactBoolList) (sl : slice) :
  CBL.wf s ->
  (sl_step sl = Some 0 -> CBLSlice.getitem s sl = Raise ValueError) /\
  (sl_step sl <> Some 0 ->
   exists a b c idx s',
     PySlice.indices sl (cb_length s) = Ret (a, b, c) /\
     PySlice.range_step a b c = Ret idx /\
     Forall (fun i => 0 <= i < cb_length s) idx /\
     CBLSlice.getitem s sl = Ret s' /\
     CBL.wf s' /\ cb_index s' = 0 /\
     CBL.bits s' = map (CBL.bit s) idx /\
     cbl_len s' = Z.of_nat (length idx) /\
     cbl_len s' <= cbl_len s).
Proof.
  intros Hwf. split.
  - intros Hstep. unfold CBLSlice.getitem. now rewrite indices_step_zero.
  - intros Hstep.
    destruct (indices_defined sl (cb_length s) (proj1 Hwf) Hstep) as (a & b & c & Hind).
    destruct (indices_bounds _ _ _ _ _ Hind) as (Hc & Hpos & Hneg).
    destruct (range_step_defined a b c Hc) as (idx & Hrange).
    destruct (slice_core s sl a b c idx Hwf Hind Hrange)
      as (s' & Hget & Hin & Hwf' & Hidx & Hlen & Hbits).
    exists a, b, c, idx, s'. repeat (split; [assumption|]).
    unfold cbl_len. rewrite Hlen.
    destruct (range_step_spec _ _ _ _ Hrange) as (_ & Hp & Hn).
    destruct (Z.lt_trichotomy c 0) as [Hlt|[H0|Hgt]]; [|contradiction|].
    + specialize (Hn Hlt). specialize (Hneg Hlt). lia.
    + specialize (Hp Hgt). specialize (Hpos Hgt). lia.
Qed.

Lemma slice_selects_witness :
  let s := CBL.of_list [1; 0; 1; 1; 0; 0; 0; 1; 1] in
  let sl := mkSlice (Some 20) (Some (-20)) (Some (-2)) in
  (sl_step sl = Some 0 -> CBLSlice.getitem s sl = Raise ValueError) /\
  (sl_step sl <> Some 0 ->
   exists a b c idx s',
     PySlice.indices sl (cb_length s) = Ret (a, b, c) /\
     PySlice.range_step a b c = Ret idx /\
     Forall (fun i => 0 <= i < cb_length s) idx /\
     CBLSlice.getitem s sl = Ret s' /\
     CBL.wf s' /\ cb_index s' = 0 /\
     CBL.bits s' = map (CBL.bit s) idx /\
     cbl_len s' = Z.of_nat (length idx) /\
     cbl_len s' <= cbl_len s).
Proof.
  apply (slice_selects (CBL.of_list [1; 0; 1; 1; 0; 0; 0; 1; 1])
           (mkSlice (Some 20) (Some (-20)) (Some (-2)))).
  split; [vm_compute; discriminate|reflexivity].
Defined.

Lemma range_firstn (k : nat) :
  forall a b,
    a + Z.of_nat k <= b -> firstn k (Py.range a b) = Py.range a (a + Z.of_nat k).
Proof.
  induction k as [|k IH]; intros a b Hab.
  - cbn [firstn]. now rewrite range_empty by lia.
  - rewrite (range_cons a b) by lia. rewrite (range_cons a (a + Z.of_nat (S k))) by lia.
    cbn [firstn]. f_equal. rewrite IH by lia. f_equal. lia.
Qed.

Lemma range_step_one (a b : Z) :
  a <= b -> PySlice.range_step a b 1 = Ret (Py.range a b).
Proof.
  intros Hab. unfold PySlice.range_step, Py.range. cbn [Z.eqb Z.ltb Z.compare].
  f_equal.
  replace (Z.to_nat (if a <? b then (b - a - 1) / 1 + 1 else 0))
    with (Z.to_nat (b - a)).
  - apply map_ext. intros i. lia.
  - destruct (Z.ltb_spec a b); [rewrite Z.div_1_r|]; lia.
Qed.

Lemma countdown_rev (n : nat) :
  map (fun i => Z.of_nat n - 1 + Z.of_nat i * -1) (seq 0 n)
  = rev (Py.range 0 (Z.of_nat n)).
Proof.
  induction n as [|n IH]; [reflexivity|].
  replace (Z.of_nat (S n)) with (Z.of_nat n + 1) by lia.
  rewrite range_snoc by lia. rewrite rev_app_distr. cbn [rev app seq map].
  f_equal; [lia|]. rewrite <- IH, <- seq_shift, map_map.
  apply map_ext. intros i. lia.
Qed.

Lemma range_step_down (len : Z) :
  0 <= len ->
  PySlice.range_step (len - 1) (-1) (-1) = Ret (rev (Py.range 0 len)).
Proof.
  intros Hlen. unfold PySlice.range_step. cbn [Z.eqb Z.ltb Z.compare Z.opp].
  f_equal.
  replace (Z.to_nat (if -1 <? len - 1 then (len - 1 - -1 - 1) / 1 + 1 else 0))
    with (Z.to_nat len)
    by (destruct (Z.ltb_spec (-1) (len - 1)); [rewrite Z.div_1_r|]; lia).
  assert (Hn : len = Z.of_nat (Z.to_nat len)) by lia.
  set (n := Z.to_nat len) in *. clearbody n. subst len. apply countdown_rev.
Qed.

(** X18: on a buffer with the storage invariant, the slice [[:]] returns
    a buffer with the same bits, the slice [[::-1]] one with the bits in
    reverse order, and the slice [[a:b]], for [0 <= a <= b <= length],
    one with the bits from position [a] up to, and without, position
    [b]. *)
Theorem slice_copy_reverse_cut (s : CompactBoolList) :
  CBL.wf s ->
  (exists s', CBLSlice.getitem s (mkSlice None None None) = Ret s' /\
              CBL.bits s' = CBL.bits s) /\
  (exists s', CBLSlice.getitem s (mkSlice None None (Some (-1))) = Ret s' /\
              CBL.bits s' = rev (CBL.bits s)) /\
  (forall a b, 0 <= a <= b -> b <= cb_length s ->
     exists s', CBLSlice.getitem s (mkSlice (Some a) (Some b) None) = Ret s' /\
                CBL.bits s' =
                firstn (Z.to_nat (b - a)) (skipn (Z.to_nat a) (CBL.bits s))).
Proof.
  intros Hwf. pose proof (proj1 Hwf) as Hlen.
  assert (Hcut : forall a b, 0 <= a <= b -> b <= cb_length s ->
     exists s', CBLSlice.getitem s (mkSlice (Some a) (Some b) None) = Ret s' /\
                CBL.bits s' = map (CBL.bit s) (Py.range a b)).
  { intros a b Hab Hb.
    destruct (slice_core s (mkSlice (Some a) (Some b) None) a b 1 (Py.range a b) Hwf)
      as (s' & Hget & _ & _ & _ & _ & Hbits).
    - unfold PySlice.indices, PySlice.clamp. cbn [sl_start sl_stop sl_step].
      destruct (Z.ltb_spec (cb_length s) 0); [lia|]. cbn [Z.eqb Z.ltb Z.compare].
      destruct (Z.ltb_spec a 0); [lia|]. destruct (Z.ltb_spec (cb_length s) a); [lia|].
      destruct (Z.ltb_spec b 0); [lia|]. destruct (Z.ltb_spec (cb_length s) b); [lia|].
      reflexivity.
    - apply range_step_one. lia.
    - now exists s'. }
  split; [|split].
  - destruct (slice_core s (mkSlice None None None) 0 (cb_length s) 1
                (Py.range 0 (cb_length s)) Hwf) as (s' & Hget & _ & _ & _ & _ & Hbits).
    + unfold PySlice.indices. cbn [sl_start sl_stop sl_step].
      destruct (Z.ltb_spec (cb_length s) 0); [lia|]. reflexivity.
    + now apply range_step_one.
    + now exists s'.
  - destruct (slice_core s (mkSlice None None (Some (-1))) (cb_length s - 1) (-1) (-1)
                (rev (Py.range 0 (cb_length s))) Hwf)
      as (s' & Hget & _ & _ & _ & _ & Hbits).
    + unfold PySlice.indices. cbn [sl_start sl_stop sl_step].
      destruct (Z.ltb_spec (cb_length s) 0); [lia|]. reflexivity.
    + now apply range_step_down.
    + exists s'. split; [exact Hget|]. rewrite Hbits. unfold CBL.bits.
      now rewrite map_rev.
  - intros a b Hab Hb. destruct (Hcut a b Hab Hb) as (s' & Hget & Hbits).
    exists s'. split; [exact Hget|]. rewrite Hbits. unfold CBL.bits.
    rewrite skipn_map, firstn_map, range_skipn, range_firstn by lia.
    do 2 f_equal; lia.
Qed.

Lemma slice_copy_reverse_cut_witness :
  let s := CBL.of_list [1; 0; 1; 1; 0; 0; 0; 1; 1] in
  (exists s', CBLSlice.getitem s (mkSlice None None None) = Ret s' /\
              CBL.bits s' = CBL.bits s) /\
  (exists s', CBLSlice.getitem s (mkSlice None None (Some (-1))) = Ret s' /\
              CBL.bits s' = rev (CBL.bits s)) /\
  (forall a b, 0 <= a <= b -> b <= cb_length s ->
     exists s', CBLSlice.getitem s (mkSlice (Some a) (Some b) None) = Ret s' /\
                CBL.bits s' =
                firstn (Z.to_nat (b - a)) (skipn (Z.to_nat a) (CBL.bits s))).
Proof.
  apply (slice_copy_reverse_cut (CBL.of_list [1; 0; 1; 1; 0; 0; 0; 1; 1])).
  split; [vm_compute; discriminate|reflexivity].
Defined.

(** ** [Trevisan.extract] with an engine that may fail *)

(** X19: whatever the engine does, [extract] calls [load_source] once
    and first; if that fails, the failure is what [extract] raises and no
    other call is made.  Otherwise it calls [extract_bit] with the indices
    [0, 1, 2, ...] in this order, each once and never past [m - 1], on
    the engine as each call has left it, and stops at the first call that
    fails, whose failure is what [extract] raises.  When no call fails,
    every index below [m] has been asked and the buffer returned has the
    [max(0, m)] answers as its bits.  The engine is left as the last call
    left it. *)
Theorem extract_call_discipline {E : Type} `{ExtractionEngine E}
  (t : Trevisan E) (input1 input2 : CompactBoolList) :
  let run := extract input1 input2 t in
  let loaded := load_source input1 input2 (ext t) in
  let asked := ask (Py.range 0 (config_m t)) (snd loaded) in
  let results := fst asked in
  config_m (snd run) = config_m t /\
  match fst loaded with
  | Ret _ =>
      calls (snd run)
      = calls t ++ CallLoadSource input1 input2
          :: bit_outcomes (Py.range 0 (Z.of_nat (length results))) results /\
      ext (snd run) = snd asked /\
      Z.of_nat (length results) <= Z.max 0 (config_m t) /\
      Forall is_ret (removelast results) /\
      match last results (Ret 0) with
      | Ret _ =>
          exists out answers,
            fst run = Ret out /\ results = map Ret answers /\
            Z.of_nat (length answers) = Z.max 0 (config_m t) /\
            cbl_len out = Z.max 0 (config_m t) /\
            CBL.bits out = map Py.truthy answers
      | Raise e => fst run = Raise e
      | Unfinished => fst run = Unfinished
      end
  | failure =>
      calls (snd run) = calls t ++ [CallLoadSource input1 input2] /\
      ext (snd run) = snd loaded /\
      match failure with
      | Raise e => fst run = Raise e
      | _ => fst run = Unfinished
      end
  end.
Proof.
  cbv zeta.
  assert (Hrange : Py.range 0 (config_m t)
                   = Py.range 0 (0 + Z.of_nat (Z.to_nat (config_m t)))).
  { unfold Py.range. do 2 f_equal. lia. }
  unfold extract, call_load_source.
  destruct (load_source input1 input2 (ext t)) as [[[]|e|] eng]; cbn [fst snd].
  - cbn [config_m CBL.init snd]. rewrite Hrange.
    set (t1 := mkTrevisan (config_m t) eng (calls t ++ [CallLoadSource input1 input2])).
    pose proof (extract_loop_ask (Z.to_nat (config_m t)) 0 CBL.empty t1 wf_empty)
      as Hloop. cbv zeta in Hloop. change (ext t1) with eng in Hloop.
    destruct Hloop as (Hcalls & Hext & Hcm & Hlen & Hpre & Hres).
    set (idx := Py.range 0 (0 + Z.of_nat (Z.to_nat (config_m t)))) in *.
    set (results := fst (ask idx eng)) in *.
    split; [exact Hcm|].
    split; [rewrite Hcalls; subst t1; cbn [calls]; now rewrite <- app_assoc|].
    split; [exact Hext|]. split; [lia|]. split; [exact Hpre|].
    destruct (fst (extract_loop idx CBL.empty t1)) as [out|e|].
    + destruct Hres as (answers & Heq & Hl & _ & Hlen' & _ & Hbits).
      rewrite Heq. pose proof (last_ret answers) as Hlast.
      destruct (last (map Ret answers) (Ret 0)); try destruct Hlast.
      exists out, answers. split; [reflexivity|]. split; [reflexivity|].
      cbn [cb_length CBL.empty] in Hlen'. unfold cbl_len.
      split; [lia|]. split; [lia|exact Hbits].
    + now rewrite Hres.
    + now rewrite Hres.
  - cbn [calls config_m ext]. repeat split; reflexivity.
  - cbn [calls config_m ext]. repeat split; reflexivity.
Qed.

(** ** [von_neumann]: composition, values and symmetry *)

Lemma von_neumann_app_even (a b : list Z) :
  Nat.even (length a) = true ->
  von_neumann (a ++ b) = von_neumann a ++ von_neumann b.
Proof.
  induction a as [|x|x y rest IH] using list_pair_ind; intros Heven.
  - reflexivity.
  - discriminate Heven.
  - cbn [app]. rewrite !von_neumann_step, IH by exact Heven.
    now rewrite app_assoc.
Qed.

(** X20: [von_neumann] works pair by pair: after a list of even length
    the rest is processed as if it stood alone, and a single bit at the
    end of a list of even length changes nothing. *)
Theorem von_neumann_concatenation (a b : list Z) :
  Nat.even (length a) = true ->
  von_neumann (a ++ b) = von_neumann a ++ von_neumann b /\
  forall x, von_neumann (a ++ [x]) = von_neumann a.
Proof.
  intros Heven. split; [now apply von_neumann_app_even|].
  intros x. rewrite von_neumann_app_even by exact Heven.
  change (von_neumann [x]) with (@nil Z). apply app_nil_r.
Qed.

Lemma von_neumann_concatenation_witness :
  von_neumann ([0; 1; 1; 1] ++ [1; 0; 1])
  = von_neumann [0; 1; 1; 1] ++ von_neumann [1; 0; 1] /\
  forall x, von_neumann ([0; 1; 1; 1] ++ [x]) = von_neumann [0; 1; 1; 1].
Proof. exact (von_neumann_concatenation [0; 1; 1; 1] [1; 0; 1] eq_refl). Defined.

(** X21: [von_neumann] gives out only values that it was given, and
    exchanging 0 and 1 in the input exchanges them in the output: the
    transform treats the two bit values alike. *)
Theorem von_neumann_values_and_flip (bits : list Z) :
  incl (von_neumann bits) bits /\
  von_neumann (map (fun x => 1 - x) bits)
  = map (fun x => 1 - x) (von_neumann bits).
Proof.
  split.
  - induction bits as [|x|x y rest IH] using list_pair_ind.
    + intros z [].
    + intros z [].
    + rewrite von_neumann_step. intros z Hz. apply in_app_or in Hz.
      destruct Hz as [Hz|Hz].
      * destruct (x =? y); [destruct Hz|]. destruct Hz as [<-|[]]. now left.
      * right. right. now apply IH.
  - induction bits as [|x|x y rest IH] using list_pair_ind;
      [reflexivity|reflexivity|].
    cbn [map]. rewrite !von_neumann_step, IH, map_app.
    destruct (Z.eqb_spec x y) as [Hxy|Hxy];
      destruct (Z.eqb_spec (1 - x) (1 - y)); try lia; reflexivity.
Qed.
